(** * bio_hansel/utils.py: subtype consistency and quality-control checks

    A shallow embedding of the pure part of [bio_hansel/utils.py]
    ([compare_subtypes], [find_inconsistent_subtypes],
    [check_is_confident_subtype], [check_min_tiles_reached] and the two
    message translators) together with the properties stated about them.

    Python values are modelled as follows: [int] is [Z]; [float] is an
    IEEE 754 binary64 number, [spec_float] with precision 53 and maximal
    exponent 1024, with the operations of [SpecFloat] (round to nearest,
    ties to even); [str] is [string], for ASCII text; a list is a [list];
    an exception is a value of [exn] carried by the [result] monad; a
    [Counter] is an association list in insertion order. *)

From Stdlib Require Import ZArith List String Ascii Bool Lia Arith.
From Stdlib Require Import Sorting.Sorted Sorting.Permutation.
From Stdlib Require Import DecimalString DecimalPos DecimalZ.
From Stdlib Require Import Floats.SpecFloat.
Import ListNotations.

Local Open Scope string_scope.
Local Open Scope list_scope.

(* ===================================================================== *)
(** * Exceptions *)
(* ===================================================================== *)

(** The exceptions the embedded functions can raise. *)
Inductive exn : Type :=
| AttributeError   (* attribute access on [None] *)
| ValueError       (* [int(s)] on a malformed literal *)
| OverflowError    (* an [int] too large to convert to [float] *)
| IndexError.      (* subscript out of range *)

Inductive result (A : Type) : Type :=
| Return (a : A)
| Raise (e : exn).

Arguments Return {A} a.
Arguments Raise {A} e.

Definition bind {A B : Type} (m : result A) (k : A -> result B) : result B :=
  match m with
  | Return a => k a
  | Raise e => Raise e
  end.

Notation "x <- m ;; k" := (bind m (fun x => k))
  (at level 61, m at next level, right associativity).

(* ===================================================================== *)
(** * Subtype paths *)
(* ===================================================================== *)

(** The elements of a subtype path are typed [Any] in the source; the code
    uses two operations on them: [x != y] and [str(x)].  [PyLabel] is that
    interface, for element types whose [!=] is the negation of equality. *)
Class PyLabel (A : Type) : Type := {
  py_ne : A -> A -> bool;
  py_ne_spec : forall x y, py_ne x y = false <-> x = y;
  py_str : A -> string
}.

(** [str(z)] for a Python [int]. *)
Definition str_of_int (z : Z) : string :=
  NilZero.string_of_int (Z.to_int z).

Lemma Z_ne_spec (x y : Z) : negb (Z.eqb x y) = false <-> x = y.
Proof.
  rewrite negb_false_iff. apply Z.eqb_eq.
Qed.

Lemma string_ne_spec (x y : string) : negb (String.eqb x y) = false <-> x = y.
Proof.
  rewrite negb_false_iff. apply String.eqb_eq.
Qed.

#[export] Instance PyLabel_int : PyLabel Z := {
  py_ne := fun x y => negb (Z.eqb x y);
  py_ne_spec := Z_ne_spec;
  py_str := str_of_int
}.

#[export] Instance PyLabel_str : PyLabel string := {
  py_ne := fun x y => negb (String.eqb x y);
  py_ne_spec := string_ne_spec;
  py_str := fun s => s
}.

(** [compare_subtypes(a, b)]:
<<
    for x, y in zip(a, b):
        if x != y:
            return False
    return True
>>
    [zip] stops at the end of the shorter list. *)
Fixpoint compare_subtypes {A : Type} `{PyLabel A} (a b : list A) : bool :=
  match a, b with
  | x :: a', y :: b' => if py_ne x y then false else compare_subtypes a' b'
  | _, _ => true
  end.

(** ['.'.join([str(x) for x in a])] *)
Definition join_subtype {A : Type} `{PyLabel A} (a : list A) : string :=
  String.concat "." (map py_str a).

(* ===================================================================== *)
(** * find_inconsistent_subtypes *)
(* ===================================================================== *)

(** The body of the inner loop at indices [i] and [j]: the pair appended to
    [incon], if any.  Both subscripts are in range whenever the loops reach
    them (see [inner_loop_cons]). *)
Definition incon_at {A : Type} `{PyLabel A} (subtypes : list (list A))
    (i j : nat) : list (list A * list A) :=
  match nth_error subtypes i, nth_error subtypes j with
  | Some a, Some b => if compare_subtypes a b then [] else [(a, b)]
  | _, _ => []
  end.

(** [for j in range(i + 1, len(subtypes))] *)
Definition inner_loop {A : Type} `{PyLabel A} (subtypes : list (list A))
    (i : nat) : list (list A * list A) :=
  flat_map (incon_at subtypes i)
           (seq (i + 1) (List.length subtypes - (i + 1))).

(** [for i in range(len(subtypes) - 1)]; [range] of a negative bound is
    empty, as is [seq 0 (0 - 1)]. *)
Definition inconsistent_pairs {A : Type} `{PyLabel A}
    (subtypes : list (list A)) : list (list A * list A) :=
  flat_map (inner_loop subtypes) (seq 0 (List.length subtypes - 1)).

(** The list [l] of flattened strings, two per recorded pair. *)
Definition flatten_pairs {A : Type} `{PyLabel A}
    (incon : list (list A * list A)) : list string :=
  flat_map (fun ab => [join_subtype (fst ab); join_subtype (snd ab)]) incon.

(** [collections.Counter]: a dictionary from keys to counts that keeps its
    keys in the order of first insertion, as an association list. *)
Definition counter := list (string * nat).

Fixpoint counter_incr (k : string) (c : counter) : counter :=
  match c with
  | [] => [(k, 1)]
  | (k', n) :: c' =>
      if String.eqb k k' then (k', S n) :: c'
      else (k', n) :: counter_incr k c'
  end.

Definition Counter (l : list string) : counter :=
  fold_left (fun c k => counter_incr k c) l [].

(** [Counter.most_common()] is
    [sorted(self.items(), key=itemgetter(1), reverse=True)]: a stable sort
    by descending count, so items of equal count keep their dictionary
    order. *)
Fixpoint insert_desc (x : string * nat) (l : counter) : counter :=
  match l with
  | [] => [x]
  | y :: l' =>
      if Nat.ltb (snd x) (snd y) then y :: insert_desc x l'
      else x :: y :: l'
  end.

Definition most_common (c : counter) : counter :=
  fold_right insert_desc [] c.

(** The last loop:
<<
    for subtype, freq in c.most_common():
        if freq >= 1:
            incon_subtypes.append(subtype)
        else:
            break
>> *)
Fixpoint collect_frequent (mc : counter) : list string :=
  match mc with
  | [] => []
  | (subtype, freq) :: rest =>
      if Nat.leb 1 freq then subtype :: collect_frequent rest else []
  end.

Definition find_inconsistent_subtypes {A : Type} `{PyLabel A}
    (subtypes : list (list A)) : list string :=
  let incon := inconsistent_pairs subtypes in
  let l := flatten_pairs incon in
  let c := Counter l in
  collect_frequent (most_common c).

(** The recorded pairs by recursion on the list of paths: the first path
    against every later one, then the pairs of the rest.  Proved equal to
    the loops of the source in [inconsistent_pairs_rec]. *)
Fixpoint pairs_rec {A : Type} `{PyLabel A} (subtypes : list (list A))
    : list (list A * list A) :=
  match subtypes with
  | [] => []
  | a :: rest =>
      flat_map (fun b => if compare_subtypes a b then [] else [(a, b)]) rest
      ++ pairs_rec rest
  end.

(* ===================================================================== *)
(** * Strings: [str.split] and [int(str)] *)
(* ===================================================================== *)

(** [s.split(sep)] for a separator of one character: the pieces of [s]
    between the occurrences of [sep], at least one piece. *)
Fixpoint str_split (sep : ascii) (s : string) : list string :=
  match s with
  | EmptyString => [EmptyString]
  | String c s' =>
      if Ascii.eqb c sep then EmptyString :: str_split sep s'
      else match str_split sep s' with
           | [] => [String c EmptyString]
           | w :: ws => String c w :: ws
           end
  end.

(** [l[i]] for a non-negative index. *)
Definition subscript {A : Type} (l : list A) (i : nat) : result A :=
  match nth_error l i with
  | Some x => Return x
  | None => Raise IndexError
  end.

(** The characters [int] skips around a literal: space, [\t], [\n],
    [\v], [\f] and [\r]. *)
Definition is_space (c : ascii) : bool :=
  let n := nat_of_ascii c in
  (Nat.eqb n 32 || (Nat.leb 9 n && Nat.leb n 13))%bool.

Definition digit_val (c : ascii) : option Z :=
  let n := nat_of_ascii c in
  if (Nat.leb 48 n && Nat.leb n 57)%bool then Some (Z.of_nat (n - 48))
  else None.

Fixpoint lstrip (s : string) : string :=
  match s with
  | String c s' => if is_space c then lstrip s' else s
  | EmptyString => s
  end.

Fixpoint all_space (s : string) : bool :=
  match s with
  | EmptyString => true
  | String c s' => (is_space c && all_space s')%bool
  end.

(** The digits of a base-10 literal after its first digit: digits, each
    underscore between two digits, then white space up to the end.
    [after_us] says that the previous character was an underscore. *)
Fixpoint int_digits (acc : Z) (after_us : bool) (s : string) : option Z :=
  match s with
  | EmptyString => if after_us then None else Some acc
  | String c s' =>
      match digit_val c with
      | Some d => int_digits (10 * acc + d) false s'
      | None =>
          if after_us then None
          else if Ascii.eqb c "_" then int_digits acc true s'
          else if all_space s then Some acc else None
      end
  end.

Definition int_unsigned (s : string) : option Z :=
  match s with
  | String c s' =>
      match digit_val c with
      | Some d => int_digits d false s'
      | None => None
      end
  | EmptyString => None
  end.

(** [int(s)] on ASCII text: optional white space, an optional sign, decimal
    digits, optional white space; [ValueError] otherwise.  The number of
    digits is not limited. *)
Definition int_of_str (s : string) : result Z :=
  let body :=
    match lstrip s with
    | String "+" s' => int_unsigned s'
    | String "-" s' => option_map Z.opp (int_unsigned s')
    | s' => int_unsigned s'
    end in
  match body with
  | Some z => Return z
  | None => Raise ValueError
  end.

(* ===================================================================== *)
(** * Floating-point numbers *)
(* ===================================================================== *)

(** Python's [float] is IEEE 754 binary64. *)
Definition float : Type := spec_float.
Definition prec : Z := 53.
Definition emax : Z := 1024.

Definition float_mul : float -> float -> float := SFmul prec emax.
Definition float_add : float -> float -> float := SFadd prec emax.
Definition float_sub : float -> float -> float := SFsub prec emax.

(** The literals [0.01] and [0.05]: the binary64 numbers nearest to 1/100
    and 1/20 (see [lit_0_01_nearest] and [lit_0_05_nearest]). *)
Definition lit_0_01 : float := S754_finite false 5764607523034235 (-59).
Definition lit_0_05 : float := S754_finite false 7205759403792794 (-57).

(** The conversion of an [int] operand of a [float] operation: rounded to
    nearest, ties to even; [OverflowError] beyond the finite range. *)
Definition float_of_int (z : Z) : result float :=
  match binary_normalize prec emax z 0 false with
  | S754_infinity _ => Raise OverflowError
  | f => Return f
  end.

(** [z * f], [f + z] and [z - f] with [z] an [int] and [f] a [float]. *)
Definition int_mul_float (z : Z) (f : float) : result float :=
  x <- float_of_int z ;; Return (float_mul x f).

Definition float_add_int (f : float) (z : Z) : result float :=
  y <- float_of_int z ;; Return (float_add f y).

Definition int_sub_float (z : Z) (f : float) : result float :=
  x <- float_of_int z ;; Return (float_sub x f).

(** The comparison of an [int] with a [float] is exact: the [int] is not
    rounded to a [float].  [None] when the [float] is not a number. *)
Definition int_compare_float (n : Z) (f : float) : option comparison :=
  match f with
  | S754_nan => None
  | S754_infinity s => Some (if s then Gt else Lt)
  | S754_zero _ => Some (Z.compare n 0)
  | S754_finite s m e =>
      let sm := cond_Zopp s (Zpos m) in
      Some (if Z.leb 0 e then Z.compare n (sm * 2 ^ e)
            else Z.compare (n * 2 ^ (- e)) sm)
  end.

(** [n >= f] *)
Definition int_ge_float (n : Z) (f : float) : bool :=
  match int_compare_float n f with
  | Some Gt | Some Eq => true
  | _ => false
  end.

(** [n <= f] *)
Definition int_le_float (n : Z) (f : float) : bool :=
  match int_compare_float n f with
  | Some Lt | Some Eq => true
  | _ => false
  end.

(* ===================================================================== *)
(** * The Subtype record and the two checks *)
(* ===================================================================== *)

(** Modelled from the spec: the class [Subtype] of [bio_hansel/subtype.py],
    imported by [utils.py]; of its attributes, the four that the checks
    read.  [None] is the missing value of a nullable attribute. *)
Record Subtype : Type := {
  n_tiles_matching_all : Z;
  n_tiles_matching_all_expected : option string;
  are_subtypes_consistent : option bool;
  inconsistent_subtypes : option Z
}.

(** [int(st.n_tiles_matching_all_expected.split(";")[0])] *)
Definition expected_tiles (st : Subtype) : result Z :=
  match n_tiles_matching_all_expected st with
  | None => Raise AttributeError
  | Some s =>
      first <- subscript (str_split ";" s) 0 ;;
      int_of_str first
  end.

(** [st.are_subtypes_consistent is False or
     (st.inconsistent_subtypes is not None and st.inconsistent_subtypes > 0)] *)
Definition flagged_inconsistent (st : Subtype) : bool :=
  (match are_subtypes_consistent st with
   | Some false => true
   | _ => false
   end
   ||
   match inconsistent_subtypes st with
   | Some k => Z.ltb 0 k
   | None => false
   end)%bool.

Definition check_is_confident_subtype (st : Subtype) : result bool :=
  expected_tiles_matching <- expected_tiles st ;;
  if flagged_inconsistent st then Return false
  else
    p <- int_mul_float expected_tiles_matching lit_0_01 ;;
    bound <- float_add_int p expected_tiles_matching ;;
    if int_ge_float (n_tiles_matching_all st) bound then Return false
    else Return true.

Definition check_min_tiles_reached (st : Subtype) : result bool :=
  expected_tiles_matching <- expected_tiles st ;;
  p <- int_mul_float expected_tiles_matching lit_0_05 ;;
  bound <- int_sub_float expected_tiles_matching p ;;
  if int_le_float (n_tiles_matching_all st) bound then Return false
  else Return true.

(* ===================================================================== *)
(** * Status messages *)
(* ===================================================================== *)

Definition translate_mixed_subtype_results (result : bool) : string :=
  if result then "ERROR: MIXED SUBTYPES" else "Subtypes not mixed".

Definition translate_min_tiles_results (result : bool) : string :=
  if result then "ERROR: Insufficient number of SNV targets found!"
  else "Expected number of tiles reached".


(* ===================================================================== *)
(** * genome_name_from_fasta_path *)
(* ===================================================================== *)

(** [s.rfind(c)]; [None] stands for -1. *)
Fixpoint rfind (c : ascii) (s : string) : option nat :=
  match s with
  | EmptyString => None
  | String c' s' =>
      match rfind c s' with
      | Some i => Some (S i)
      | None => if Ascii.eqb c' c then Some 0%nat else None
      end
  end.

(** [s[i:]] *)
Fixpoint str_drop (i : nat) (s : string) : string :=
  match i, s with
  | O, _ => s
  | S i', String _ s' => str_drop i' s'
  | S _, EmptyString => EmptyString
  end.

(** [os.path.basename] of [posixpath]: [p[p.rfind('/') + 1:]]. *)
Definition basename (p : string) : string :=
  let i := match rfind "/" p with
           | Some k => S k
           | None => O
           end in
  str_drop i p.

(** The regular expressions the pattern is built from: a character, the
    greedy repetition [\w{1,}], the anchor [$], sequence and alternation. *)
Inductive regex : Type :=
| Lit (c : ascii)
| WordPlus
| Eos
| Seq (r1 r2 : regex)
| Alt (r1 r2 : regex).

(** [\w] on ASCII text: a letter, a digit or the underscore. *)
Definition is_word (c : ascii) : bool :=
  let n := nat_of_ascii c in
  ((Nat.leb 48 n && Nat.leb n 57) || (Nat.leb 65 n && Nat.leb n 90)
   || (Nat.leb 97 n && Nat.leb n 122) || Nat.eqb n 95)%bool.

(** [$] matches at the end of the text and just before a newline that ends
    the text. *)
Definition at_end (s : string) : bool :=
  match s with
  | EmptyString => true
  | String c EmptyString => Ascii.eqb c "010"
  | _ => false
  end.

(** [\w*], greedy: the longest run first, then shorter ones, each followed
    by the rest [k] of the pattern. *)
Fixpoint word_star (s : string) (k : string -> option string)
    : option string :=
  match s with
  | String c s' =>
      if is_word c then
        match word_star s' k with
        | Some rest => Some rest
        | None => k s
        end
      else k s
  | EmptyString => k s
  end.

(** Backtracking match of [r] at the start of [s], followed by the rest
    [k] of the pattern; the result is the text left after the whole match.
    Alternatives are tried from left to right. *)
Fixpoint re_match (r : regex) (s : string) (k : string -> option string)
    : option string :=
  match r with
  | Lit c =>
      match s with
      | String c' s' => if Ascii.eqb c' c then k s' else None
      | EmptyString => None
      end
  | WordPlus =>
      match s with
      | String c s' => if is_word c then word_star s' k else None
      | EmptyString => None
      end
  | Eos => if at_end s then k s else None
  | Seq r1 r2 => re_match r1 s (fun s' => re_match r2 s' k)
  | Alt r1 r2 =>
      match re_match r1 s k with
      | Some rest => Some rest
      | None => re_match r2 s k
      end
  end.

(** [re.sub(r, '', s)] for a pattern that matches no empty text: the
    matches are searched from left to right and removed.  [skip] counts the
    characters of the current match that are still to be dropped. *)
Fixpoint re_sub_loop (r : regex) (s : string) (skip : nat) : string :=
  match s with
  | EmptyString => EmptyString
  | String c s' =>
      match skip with
      | S n => re_sub_loop r s' n
      | O =>
          match re_match r s Some with
          | Some rest =>
              re_sub_loop r s' (String.length s' - String.length rest)
          | None => String c (re_sub_loop r s' O)
          end
      end
  end.

Definition re_sub_empty (r : regex) (s : string) : string :=
  re_sub_loop r s O.

(** The characters of [w] in sequence, then [r]. *)
Fixpoint lits (w : string) (r : regex) : regex :=
  match w with
  | EmptyString => r
  | String c w' => Seq (Lit c) (lits w' r)
  end.

(** [(\.fa$)|(\.fas$)|(\.fasta$)|(\.fna$)|(\.\w{1,}$)] *)
Definition extension_pattern : regex :=
  Alt (lits ".fa" Eos)
      (Alt (lits ".fas" Eos)
           (Alt (lits ".fasta" Eos)
                (Alt (lits ".fna" Eos)
                     (Seq (Lit ".") (Seq WordPlus Eos))))).

Definition genome_name_from_fasta_path (fasta_path : string) : string :=
  let filename := basename fasta_path in
  re_sub_empty extension_pattern filename.

(* ===================================================================== *)
(** * Subtyping schemes *)
(* ===================================================================== *)

(** The value of an entry of [SCHEME_FASTAS]: a dictionary with the keys
    ['file'] and ['version']. *)
Record scheme_entry : Type := {
  file : string;
  version : string
}.

(** [FileNotFoundError] with its two arguments: the message template and
    the scheme (the template is not filled in). *)
Inductive os_error : Type :=
| FileNotFoundError (template : string) (scheme : string).

(** ['Could not find user-specified subtyping scheme fasta "%s"'] *)
Definition not_found_template : string :=
  "Could not find user-specified subtyping scheme fasta "
  ++ String (ascii_of_nat 34) ("%s" ++ String (ascii_of_nat 34) EmptyString).

(** A dictionary with string keys, as the list of its items. *)
Fixpoint dict_get {V : Type} (d : list (string * V)) (k : string)
    : option V :=
  match d with
  | [] => None
  | (k', v) :: d' => if String.eqb k k' then Some v else dict_get d' k
  end.

Section Schemes.

(** What the module takes from its environment: [resource_filename] of
    [pkg_resources], the package's [program_name], and the file system
    through [os.path.exists] and [os.path.isfile]. *)
Variable resource_filename : string -> string -> string.
Variable program_name : string.
Variable path_exists : string -> bool.
Variable path_isfile : string -> bool.

Definition SCHEME_FASTAS : list (string * scheme_entry) :=
  [("heidelberg",
    {| file := resource_filename program_name "data/heidelberg/tiles.fasta";
       version := "0.5.0" |});
   ("enteritidis",
    {| file := resource_filename program_name "data/enteritidis/tiles.fasta";
       version := "0.7.0" |})].

Definition get_scheme_fasta (scheme : string) : os_error + string :=
  match dict_get SCHEME_FASTAS scheme with
  | Some entry => inr (file entry)
  | None =>
      if (path_exists scheme && path_isfile scheme)%bool then inr scheme
      else inl (FileNotFoundError not_found_template scheme)
  end.

(** Without a built-in scheme the function ends without [return]: [None]. *)
Definition get_scheme_version (scheme : string) : option string :=
  match dict_get SCHEME_FASTAS scheme with
  | Some entry => Some (version entry)
  | None => None
  end.

End Schemes.
(* ===================================================================== *)
(** * Auxiliary definitions for the statements *)
(* ===================================================================== *)

(** [c[k]], zero for a key that is not in the dictionary. *)
Fixpoint counter_get (k : string) (c : counter) : nat :=
  match c with
  | [] => 0
  | (k', n) :: c' => if String.eqb k k' then n else counter_get k c'
  end.

(** The keys of a dictionary, in its order. *)
Definition keys (c : counter) : list string := map fst c.

(** Every count is at least one. *)
Definition positive_counts (c : counter) : Prop :=
  Forall (fun kn => 1 <= snd kn) c.

(** The order of [most_common]: [x] may come before [y]. *)
Definition by_count_desc (x y : string * nat) : Prop := snd y <= snd x.

(** How often [s] is the flattened form of a side of a recorded pair. *)
Definition occurrences {A : Type} `{PyLabel A} (s : string)
    (incon : list (list A * list A)) : nat :=
  list_sum (map (fun ab =>
                   ((if String.eqb (join_subtype (fst ab)) s then 1 else 0)
                    + (if String.eqb (join_subtype (snd ab)) s then 1 else 0))%nat)
                incon).

(** What the pair of positions [i], [j] adds to the count of the string
    [s]: when [i < j] and the two paths disagree, one for each of the two
    paths whose flattened form is [s]; nothing otherwise. *)
Definition contribution {A : Type} `{PyLabel A} (subtypes : list (list A))
    (s : string) (i j : nat) : nat :=
  if (i <? j)%nat then
    match nth_error subtypes i, nth_error subtypes j with
    | Some a, Some b =>
        if compare_subtypes a b then 0%nat
        else ((if String.eqb (join_subtype a) s then 1 else 0)
              + (if String.eqb (join_subtype b) s then 1 else 0))%nat
    | _, _ => 0%nat
    end
  else 0%nat.

(** The occurrence count as the specification words it: every pair of
    positions [i < j] on which the comparison is [False] contributes both
    of its paths, once per occurrence.  It is a sum over the positions of
    the input and does not mention the lists the function builds. *)
Definition disagreeing_pair_count {A : Type} `{PyLabel A}
    (subtypes : list (list A)) (s : string) : nat :=
  let positions := seq 0 (List.length subtypes) in
  list_sum (map (fun i => list_sum (map (contribution subtypes s i) positions))
                positions).

(** The pair of paths at positions [i < j] disagrees. *)
Definition disagree_at {A : Type} `{PyLabel A} (subtypes : list (list A))
    (i j : nat) (a b : list A) : Prop :=
  (i < j)%nat /\ nth_error subtypes i = Some a /\ nth_error subtypes j = Some b
  /\ compare_subtypes a b = false.

(** Four paths, the last one twice. *)
Definition paths_last_twice : list (list Z) := [[2]; [1; 2]; [1; 3]; [1; 3]]%Z.

(** Three paths, the first one twice. *)
Definition paths_repeated : list (list Z) := [[1; 2]; [1; 2]; [1; 3]]%Z.

(** A record whose expected count is the text [abc]. *)
Definition st_abc : Subtype :=
  {| n_tiles_matching_all := 100;
     n_tiles_matching_all_expected := Some "abc";
     are_subtypes_consistent := Some true;
     inconsistent_subtypes := None |}.

(** Records for the examples: 100 expected tiles. *)
Definition st_100_100 : Subtype :=
  {| n_tiles_matching_all := 100;
     n_tiles_matching_all_expected := Some "100;100";
     are_subtypes_consistent := Some true;
     inconsistent_subtypes := None |}.

Definition st_101_100 : Subtype :=
  {| n_tiles_matching_all := 101;
     n_tiles_matching_all_expected := Some "100;100";
     are_subtypes_consistent := Some true;
     inconsistent_subtypes := None |}.

Definition st_inconsistent : Subtype :=
  {| n_tiles_matching_all := 100;
     n_tiles_matching_all_expected := Some "100;100";
     are_subtypes_consistent := Some false;
     inconsistent_subtypes := None |}.

Definition st_95_100 : Subtype :=
  {| n_tiles_matching_all := 95;
     n_tiles_matching_all_expected := Some "100";
     are_subtypes_consistent := Some true;
     inconsistent_subtypes := None |}.

Definition st_96_100 : Subtype :=
  {| n_tiles_matching_all := 96;
     n_tiles_matching_all_expected := Some "100";
     are_subtypes_consistent := Some true;
     inconsistent_subtypes := None |}.

(** Records with expected counts beyond the range in which the
    floating-point bounds are exact enough. *)
Definition st_far_confident : Subtype :=
  {| n_tiles_matching_all := 140737488355367;
     n_tiles_matching_all_expected := Some "139344047876601";
     are_subtypes_consistent := Some true;
     inconsistent_subtypes := None |}.

Definition st_far_min_tiles : Subtype :=
  {| n_tiles_matching_all := 562949953421329;
     n_tiles_matching_all_expected := Some "592578898338241";
     are_subtypes_consistent := Some true;
     inconsistent_subtypes := None |}.

(** A record whose expected count, [2 ^ 1024], is beyond the finite
    binary64 numbers. *)
Definition st_overflow : Subtype :=
  {| n_tiles_matching_all := 0;
     n_tiles_matching_all_expected := Some (str_of_int (2 ^ 1024));
     are_subtypes_consistent := Some true;
     inconsistent_subtypes := None |}.

(** What [n] applications of [shr_1] to the mantissa [P] leave: the
    quotient by [2 ^ n], the round bit and the sticky bit. *)
Definition shr_inv (P n : Z) (mrs : shr_record) : Prop :=
  (shr_m mrs = P / 2 ^ n
   /\ (shr_r mrs = true <-> 2 ^ n <= 2 * (P mod 2 ^ n))
   /\ (shr_s mrs = true <-> (2 * (P mod 2 ^ n)) mod 2 ^ n <> 0))%Z.


(** Every character of [s] is a word character. *)
Fixpoint all_word (s : string) : bool :=
  match s with
  | EmptyString => true
  | String c s' => (is_word c && all_word s')%bool
  end.

(** The longest run of word characters at the start of [s], and what
    follows it. *)
Fixpoint span_word (s : string) : string * string :=
  match s with
  | String c s' =>
      if is_word c then (String c (fst (span_word s')), snd (span_word s'))
      else (EmptyString, s)
  | EmptyString => (EmptyString, EmptyString)
  end.

(** A match of [\.\w{1,}$] at the start of [s], computed directly: a dot,
    the longest run of word characters, not empty, and then the end. *)
Definition match_ext (s : string) : option string :=
  match s with
  | String "." (String c s') =>
      if is_word c then
        let rest := snd (span_word s') in
        if at_end rest then Some rest else None
      else None
  | _ => None
  end.

(** [ext] can be a file extension: word characters, at least one. *)
Definition is_extension (ext : string) : Prop :=
  ext <> EmptyString /\ all_word ext = true.

(** [tail] is what [$] allows after a match: nothing, or one newline. *)
Definition is_line_end (tail : string) : Prop :=
  tail = EmptyString \/ tail = String "010" EmptyString.

(** The end [$] as the rest of a pattern. *)
Definition k_end (s : string) : option string :=
  if at_end s then Some s else None.

(** [s] holds no dot. *)
Fixpoint no_dot (s : string) : bool :=
  match s with
  | EmptyString => true
  | String c s' => (negb (Ascii.eqb c ".") && no_dot s')%bool
  end.

(** The distinct elements of [l] in the order of their first
    occurrence. *)
Fixpoint first_seen (l : list string) : list string :=
  match l with
  | [] => []
  | x :: l' => x :: filter (fun y => negb (String.eqb y x)) (first_seen l')
  end.

(** [st] with another text for the expected counts, and with another
    number of matching tiles. *)
Definition with_expected (st : Subtype) (s : string) : Subtype :=
  {| n_tiles_matching_all := n_tiles_matching_all st;
     n_tiles_matching_all_expected := Some s;
     are_subtypes_consistent := are_subtypes_consistent st;
     inconsistent_subtypes := inconsistent_subtypes st |}.

Definition with_n_tiles (st : Subtype) (n : Z) : Subtype :=
  {| n_tiles_matching_all := n;
     n_tiles_matching_all_expected := n_tiles_matching_all_expected st;
     are_subtypes_consistent := are_subtypes_consistent st;
     inconsistent_subtypes := inconsistent_subtypes st |}.

(** The value of the decimal digits [d] read after the value [acc]. *)
Fixpoint uint_value (d : Decimal.uint) (acc : Z) : Z :=
  match d with
  | Decimal.Nil => acc
  | Decimal.D0 l => uint_value l (10 * acc + 0)
  | Decimal.D1 l => uint_value l (10 * acc + 1)
  | Decimal.D2 l => uint_value l (10 * acc + 2)
  | Decimal.D3 l => uint_value l (10 * acc + 3)
  | Decimal.D4 l => uint_value l (10 * acc + 4)
  | Decimal.D5 l => uint_value l (10 * acc + 5)
  | Decimal.D6 l => uint_value l (10 * acc + 6)
  | Decimal.D7 l => uint_value l (10 * acc + 7)
  | Decimal.D8 l => uint_value l (10 * acc + 8)
  | Decimal.D9 l => uint_value l (10 * acc + 9)
  end.

(** No character of [s] is [c]. *)
Fixpoint lacks (c : ascii) (s : string) : bool :=
  match s with
  | EmptyString => true
  | String c' s' => (negb (Ascii.eqb c' c) && lacks c s')%bool
  end.

(** How many paths of [subtypes] disagree with [a]. *)
Definition conflicts {A : Type} `{PyLabel A} (a : list A)
    (subtypes : list (list A)) : nat :=
  List.length (filter (fun b => negb (compare_subtypes a b)) subtypes).

(** Equality of integer paths is decidable. *)
Definition path_eq_dec : forall a b : list Z, {a = b} + {a <> b} :=
  list_eq_dec Z.eq_dec.
(* ===================================================================== *)
(** * Properties of [compare_subtypes] *)
(* ===================================================================== *)

Section CompareSubtypes.
Context {A : Type} `{PyLabel A}.

Lemma py_ne_refl (x : A) : py_ne x x = false.
Proof. now apply py_ne_spec. Qed.

Lemma py_ne_sym (x y : A) : py_ne x y = py_ne y x.
Proof.
  destruct (py_ne x y) eqn:Hxy, (py_ne y x) eqn:Hyx; trivial.
  - apply py_ne_spec in Hyx. subst. now rewrite py_ne_refl in Hxy.
  - apply py_ne_spec in Hxy. subst. now rewrite py_ne_refl in Hyx.
Qed.

Lemma compare_subtypes_nil_l (b : list A) : compare_subtypes [] b = true.
Proof. reflexivity. Qed.

Lemma compare_subtypes_nil_r (a : list A) : compare_subtypes a [] = true.
Proof. now destruct a. Qed.

Lemma compare_subtypes_refl (a : list A) : compare_subtypes a a = true.
Proof.
  induction a as [|x a IH]; simpl; trivial.
  now rewrite py_ne_refl.
Qed.

Lemma compare_subtypes_sym (a b : list A) :
  compare_subtypes a b = compare_subtypes b a.
Proof.
  revert b. induction a as [|x a IH]; intros [|y b]; simpl; trivial.
  rewrite (py_ne_sym y x). now rewrite IH.
Qed.

(** [True] exactly when the paths agree wherever both have an element. *)
Lemma compare_subtypes_true_iff (a b : list A) :
  compare_subtypes a b = true <->
  forall i x y, nth_error a i = Some x -> nth_error b i = Some y -> x = y.
Proof.
  revert b. induction a as [|x a IH]; intros [|y b]; simpl.
  - split; trivial. intros _ [|i]; discriminate.
  - split; trivial. intros _ [|i]; discriminate.
  - split; trivial. intros _ [|i] ? ? _; discriminate.
  - destruct (py_ne x y) eqn:Hxy.
    + split; [discriminate|].
      intros Hall. specialize (Hall 0%nat x y eq_refl eq_refl).
      apply py_ne_spec in Hall. congruence.
    + apply py_ne_spec in Hxy. subst y. rewrite IH. split.
      * intros Hall [|i] u v; simpl; [congruence | apply Hall].
      * intros Hall i u v. apply (Hall (S i)).
Qed.

Lemma compare_subtypes_false_iff (a b : list A) :
  compare_subtypes a b = false <->
  exists i x y, nth_error a i = Some x /\ nth_error b i = Some y /\ x <> y.
Proof.
  revert b. induction a as [|x a IH]; intros [|y b]; simpl.
  - split; [discriminate|]. intros ([|i] & ? & ? & ? & _); discriminate.
  - split; [discriminate|]. intros ([|i] & ? & ? & ? & _); discriminate.
  - split; [discriminate|]. intros ([|i] & ? & ? & _ & ? & _); discriminate.
  - destruct (py_ne x y) eqn:Hxy.
    + split; trivial. intros _. exists 0%nat, x, y. repeat split.
      intros ->. now rewrite py_ne_refl in Hxy.
    + apply py_ne_spec in Hxy. subst y. rewrite IH. split.
      * intros (i & u & v & ?). now exists (S i), u, v.
      * intros ([|i] & u & v & Hu & Hv & Hne); simpl in *.
        -- congruence.
        -- now exists i, u, v.
Qed.

(** Only the first [min (len a) (len b)] positions take part. *)
Lemma compare_subtypes_firstn (a b : list A) :
  let k := Nat.min (List.length a) (List.length b) in
  compare_subtypes a b = compare_subtypes (firstn k a) (firstn k b).
Proof.
  revert b. induction a as [|x a IH]; intros [|y b]; simpl; trivial.
  destruct (py_ne x y); [reflexivity | apply IH].
Qed.

(** Whatever follows the overlap in the longer path is ignored. *)
Lemma compare_subtypes_app (a b t : list A) :
  List.length a = List.length b ->
  compare_subtypes (a ++ t) b = compare_subtypes a b /\
  compare_subtypes a (b ++ t) = compare_subtypes a b.
Proof.
  revert b. induction a as [|x a IH]; intros [|y b] Hlen; simpl in *;
    try discriminate.
  - split; trivial. now destruct t.
  - injection Hlen as Hlen. destruct (py_ne x y); auto.
Qed.

End CompareSubtypes.

(** C4. [compare_subtypes] compares the overlapping prefix only: it returns
    [false] when some position present in both paths holds different
    elements and [true] when every such position holds equal elements, also
    when the lengths differ; the positions beyond the shorter path are not
    looked at.  [[1,2,3]] against [[1,2]] gives [true] and [[1,2,3]]
    against [[1,2,4]] gives [false]. *)
Theorem C4_compare_overlap_only :
  (forall (A : Type) (L : PyLabel A) (a b : list A),
      (compare_subtypes a b = false <->
       exists i x y,
         nth_error a i = Some x /\ nth_error b i = Some y /\ x <> y)
      /\ (compare_subtypes a b = true <->
          forall i x y,
            nth_error a i = Some x -> nth_error b i = Some y -> x = y)
      /\ compare_subtypes a b =
         compare_subtypes
           (firstn (Nat.min (List.length a) (List.length b)) a)
           (firstn (Nat.min (List.length a) (List.length b)) b))
  /\ compare_subtypes [1; 2; 3]%Z [1; 2]%Z = true
  /\ compare_subtypes [1; 2; 3]%Z [1; 2; 4]%Z = false.
Proof.
  split; [|split; reflexivity].
  intros A L a b. split; [|split].
  - apply compare_subtypes_false_iff.
  - apply compare_subtypes_true_iff.
  - apply compare_subtypes_firstn.
Qed.

(** C8. [compare_subtypes] is reflexive (on every non-empty path, and on the
    empty one too) and symmetric. *)
Theorem C8_compare_refl_sym :
  forall (A : Type) (L : PyLabel A),
    (forall a : list A, a <> [] -> compare_subtypes a a = true)
    /\ (forall a b : list A, compare_subtypes a b = compare_subtypes b a).
Proof.
  intros A L. split.
  - intros a _. apply compare_subtypes_refl.
  - apply compare_subtypes_sym.
Qed.

Lemma C8_witness :
  compare_subtypes [1; 2]%Z [1; 2]%Z = true
  /\ compare_subtypes [1; 2]%Z [1; 3]%Z = compare_subtypes [1; 3]%Z [1; 2]%Z.
Proof.
  destruct (C8_compare_refl_sym Z PyLabel_int) as [Hrefl Hsym].
  split.
  - apply Hrefl. discriminate.
  - apply Hsym.
Defined.

(** C10. The empty path compares equal to every path, on either side. *)
Theorem C10_compare_empty :
  forall (A : Type) (L : PyLabel A) (b : list A),
    compare_subtypes [] b = true /\ compare_subtypes b [] = true.
Proof.
  intros A L b. split.
  - apply compare_subtypes_nil_l.
  - apply compare_subtypes_nil_r.
Qed.

(** C9. The two translators map [True] and [False] to their fixed
    messages. *)
Theorem C9_status_messages :
  translate_mixed_subtype_results true = "ERROR: MIXED SUBTYPES"
  /\ translate_mixed_subtype_results false = "Subtypes not mixed"
  /\ translate_min_tiles_results true
     = "ERROR: Insufficient number of SNV targets found!"
  /\ translate_min_tiles_results false = "Expected number of tiles reached".
Proof. repeat split. Qed.

(* ===================================================================== *)
(** * Properties of [find_inconsistent_subtypes] *)
(* ===================================================================== *)

Section Pairs.
Context {A : Type} `{PyLabel A}.

Lemma flat_map_nth_error {B : Type} (f : list A -> list B) (l : list (list A)) :
  flat_map (fun j => match nth_error l j with
                     | Some b => f b
                     | None => []
                     end) (seq 0 (List.length l))
  = flat_map f l.
Proof.
  induction l as [|b l IH]; simpl; trivial.
  rewrite <- seq_shift, flat_map_concat_map, map_map, <- flat_map_concat_map.
  simpl. now rewrite IH.
Qed.

Lemma incon_at_S (a : list A) (rest : list (list A)) (i j : nat) :
  incon_at (a :: rest) (S i) (S j) = incon_at rest i j.
Proof. reflexivity. Qed.

Lemma inner_loop_cons (a : list A) (rest : list (list A)) :
  inner_loop (a :: rest) 0
  = flat_map (fun b => if compare_subtypes a b then [] else [(a, b)]) rest.
Proof.
  unfold inner_loop. simpl List.length. simpl Nat.add.
  replace (S (List.length rest) - 1)%nat with (List.length rest) by lia.
  rewrite <- seq_shift, flat_map_concat_map, map_map, <- flat_map_concat_map.
  rewrite <- flat_map_nth_error.
  apply flat_map_ext. intros j. unfold incon_at. simpl.
  now destruct (nth_error rest j).
Qed.

Lemma inner_loop_S (a : list A) (rest : list (list A)) (i : nat) :
  inner_loop (a :: rest) (S i) = inner_loop rest i.
Proof.
  unfold inner_loop. simpl List.length.
  replace (S (List.length rest) - (S i + 1))%nat
    with (List.length rest - (i + 1))%nat by lia.
  simpl Nat.add.
  rewrite <- seq_shift, flat_map_concat_map, map_map, <- flat_map_concat_map.
  apply flat_map_ext. intros j. apply incon_at_S.
Qed.

Lemma inconsistent_pairs_rec (subtypes : list (list A)) :
  inconsistent_pairs subtypes = pairs_rec subtypes.
Proof.
  induction subtypes as [|a rest IH]; trivial.
  change (pairs_rec (a :: rest))
    with (flat_map (fun b => if compare_subtypes a b then [] else [(a, b)])
                   rest ++ pairs_rec rest).
  rewrite <- IH, <- inner_loop_cons.
  unfold inconsistent_pairs. simpl List.length.
  replace (S (List.length rest) - 1)%nat with (List.length rest) by lia.
  destruct (List.length rest) as [|n] eqn:Hlen.
  - apply length_zero_iff_nil in Hlen. now subst rest.
  - rewrite <- cons_seq, <- seq_shift. cbn [flat_map]. f_equal.
    rewrite flat_map_concat_map, map_map, <- flat_map_concat_map.
    replace (S n - 1)%nat with n by lia.
    apply flat_map_ext. intros i. apply inner_loop_S.
Qed.
End Pairs.

Section CounterFacts.

Lemma keys_incr_In (k k' : string) (c : counter) :
  In k' (keys (counter_incr k c)) <-> k' = k \/ In k' (keys c).
Proof.
  induction c as [|[k0 n] c IH]; simpl.
  - intuition congruence.
  - destruct (String.eqb_spec k k0) as [->|Hne]; simpl.
    + intuition congruence.
    + rewrite IH. intuition congruence.
Qed.

Lemma keys_incr_NoDup (k : string) (c : counter) :
  NoDup (keys c) -> NoDup (keys (counter_incr k c)).
Proof.
  induction c as [|[k0 n] c IH]; simpl; intros Hnd.
  - constructor; [intros [] | constructor].
  - destruct (String.eqb_spec k k0) as [->|Hne]; simpl; trivial.
    inversion Hnd as [|? ? Hnotin Hnd']; subst.
    constructor; [|now apply IH].
    rewrite keys_incr_In. intros [->|Hin]; [now apply Hne | now apply Hnotin].
Qed.

Lemma counter_get_incr (k k' : string) (c : counter) :
  counter_get k' (counter_incr k c)
  = (counter_get k' c + if String.eqb k' k then 1 else 0)%nat.
Proof.
  induction c as [|[k0 n] c IH]; simpl.
  - destruct (String.eqb k' k); trivial.
  - destruct (String.eqb_spec k k0) as [->|Hne]; simpl.
    + destruct (String.eqb_spec k' k0); lia.
    + destruct (String.eqb_spec k' k0) as [->|Hne'].
      * destruct (String.eqb_spec k0 k); [congruence | lia].
      * apply IH.
Qed.

Lemma positive_counts_incr (k : string) (c : counter) :
  positive_counts c -> positive_counts (counter_incr k c).
Proof.
  unfold positive_counts.
  induction c as [|[k0 n] c IH]; simpl; intros Hpos.
  - repeat constructor.
  - inversion Hpos; subst. destruct (String.eqb k k0).
    + constructor; simpl in *; [lia | assumption].
    + constructor; auto.
Qed.

Lemma counter_get_In (k : string) (n : nat) (c : counter) :
  NoDup (keys c) -> In (k, n) c -> counter_get k c = n.
Proof.
  induction c as [|[k0 n0] c IH]; simpl; intros Hnd Hin; [contradiction|].
  inversion Hnd as [|? ? Hnotin Hnd']; subst.
  destruct Hin as [Heq|Hin].
  - injection Heq as -> ->. now rewrite String.eqb_refl.
  - destruct (String.eqb_spec k k0) as [->|Hne]; [|now apply IH].
    exfalso. apply Hnotin. apply (in_map fst) in Hin. exact Hin.
Qed.

(** The loop of [Counter] started from any dictionary [c]. *)
Lemma fold_incr_spec (l : list string) (c : counter) :
  let c' := fold_left (fun c k => counter_incr k c) l c in
  (forall k, counter_get k c' = (counter_get k c + count_occ string_dec l k)%nat)
  /\ (forall k, In k (keys c') <-> In k (keys c) \/ In k l)
  /\ (NoDup (keys c) -> NoDup (keys c'))
  /\ (positive_counts c -> positive_counts c').
Proof.
  revert c. induction l as [|x l IH]; intros c; simpl.
  - repeat split; auto; try tauto.
  - destruct (IH (counter_incr x c)) as (Hget & Hin & Hnd & Hpos).
    repeat split.
    + intros k. rewrite Hget, counter_get_incr.
      destruct (string_dec x k) as [->|Hne].
      * rewrite String.eqb_refl. lia.
      * destruct (String.eqb_spec k x); [congruence | lia].
    + rewrite Hin, keys_incr_In. intuition.
    + rewrite Hin, keys_incr_In. intros [Hk|[Hk|Hk]]; auto.
    + intros H. now apply Hnd, keys_incr_NoDup.
    + intros H. now apply Hpos, positive_counts_incr.
Qed.

Lemma Counter_spec (l : list string) :
  NoDup (keys (Counter l))
  /\ positive_counts (Counter l)
  /\ (forall k, In k (keys (Counter l)) <-> In k l)
  /\ (forall k n, In (k, n) (Counter l) -> n = count_occ string_dec l k).
Proof.
  destruct (fold_incr_spec l []) as (Hget & Hin & Hnd & Hpos).
  assert (Hnd' : NoDup (keys (Counter l))) by (apply Hnd; constructor).
  repeat split.
  - exact Hnd'.
  - apply Hpos. constructor.
  - intros Hk. apply Hin in Hk. now destruct Hk.
  - intros Hk. apply Hin. now right.
  - intros k n Hkn. rewrite <- (counter_get_In k n _ Hnd' Hkn).
    apply Hget.
Qed.

Lemma insert_desc_perm (x : string * nat) (l : counter) :
  Permutation (insert_desc x l) (x :: l).
Proof.
  induction l as [|y l IH]; simpl; [reflexivity|].
  destruct (Nat.ltb (snd x) (snd y)); [|reflexivity].
  rewrite IH. apply perm_swap.
Qed.

Lemma most_common_perm (c : counter) : Permutation (most_common c) c.
Proof.
  induction c as [|x c IH]; simpl; [reflexivity|].
  now rewrite insert_desc_perm, IH.
Qed.

Lemma insert_desc_sorted (x : string * nat) (l : counter) :
  StronglySorted by_count_desc l ->
  StronglySorted by_count_desc (insert_desc x l).
Proof.
  unfold by_count_desc.
  induction l as [|y l IH]; simpl; intros Hs.
  - repeat constructor.
  - inversion Hs as [|? ? Hs' Hall]; subst.
    destruct (Nat.ltb_spec (snd x) (snd y)) as [Hlt|Hge].
    + constructor; [now apply IH|].
      rewrite Forall_forall in *. intros z Hz.
      apply (Permutation_in _ (insert_desc_perm x l)) in Hz.
      destruct Hz as [<-|Hz]; [lia | now apply Hall].
    + constructor; trivial. constructor; trivial.
      rewrite Forall_forall in *. intros z Hz.
      specialize (Hall z Hz). lia.
Qed.

Lemma most_common_sorted (c : counter) :
  StronglySorted by_count_desc (most_common c).
Proof.
  induction c as [|x c IH]; simpl; [constructor|].
  now apply insert_desc_sorted.
Qed.

Lemma collect_frequent_all (mc : counter) :
  positive_counts mc -> collect_frequent mc = keys mc.
Proof.
  unfold positive_counts.
  induction mc as [|[k n] mc IH]; simpl; intros Hpos; trivial.
  inversion Hpos as [|? ? Hn Hpos']; subst. simpl in Hn.
  destruct n as [|n]; [lia|]. f_equal. now apply IH.
Qed.

Lemma StronglySorted_map {X Y : Type} (R : X -> X -> Prop)
    (R' : Y -> Y -> Prop) (f : X -> Y) (l : list X) :
  (forall x y, In x l -> In y l -> R x y -> R' (f x) (f y)) ->
  StronglySorted R l -> StronglySorted R' (map f l).
Proof.
  induction l as [|x l IH]; simpl; intros Hf Hs; [constructor|].
  inversion Hs as [|? ? Hs' Hall]; subst.
  constructor.
  - apply IH; auto.
  - rewrite Forall_forall in *. intros y Hy.
    apply in_map_iff in Hy. destruct Hy as (z & <- & Hz).
    apply Hf; auto.
Qed.

End CounterFacts.

Section Ranking.
Context {A : Type} `{PyLabel A}.

Lemma pairs_rec_In (subtypes : list (list A)) (a b : list A) :
  In (a, b) (pairs_rec subtypes) <->
  exists i j, disagree_at subtypes i j a b.
Proof.
  unfold disagree_at.
  induction subtypes as [|a0 rest IH]; simpl.
  - split; [contradiction|]. intros ([|i] & j & _ & Hi & _); discriminate.
  - rewrite in_app_iff, in_flat_map, IH. split.
    + intros [(b0 & Hb0 & Hin)|(i & j & Hij & Hi & Hj & Hc)].
      * destruct (compare_subtypes a0 b0) eqn:Hc; [contradiction|].
        destruct Hin as [Heq|[]]. injection Heq as <- <-.
        apply In_nth_error in Hb0. destruct Hb0 as (j & Hj).
        exists 0%nat, (S j). repeat split; trivial. lia.
      * exists (S i), (S j). repeat split; trivial. lia.
    + intros ([|i] & [|j] & Hij & Hi & Hj & Hc); simpl in *; try lia.
      * left. injection Hi as ->. exists b. split.
        -- eapply nth_error_In; eauto.
        -- rewrite Hc. now left.
      * right. exists i, j. repeat split; trivial. lia.
Qed.

Lemma flatten_pairs_In (s : string) (incon : list (list A * list A)) :
  In s (flatten_pairs incon) <->
  exists a b, In (a, b) incon /\ (s = join_subtype a \/ s = join_subtype b).
Proof.
  unfold flatten_pairs. rewrite in_flat_map. split.
  - intros ([a b] & Hin & Hs). exists a, b. simpl in Hs. intuition.
  - intros (a & b & Hin & Hs). exists (a, b). simpl. intuition.
Qed.

Lemma flatten_pairs_count (s : string) (incon : list (list A * list A)) :
  count_occ string_dec (flatten_pairs incon) s = occurrences s incon.
Proof.
  unfold occurrences.
  induction incon as [|[a b] incon IH]; simpl; trivial.
  rewrite <- IH.
  destruct (string_dec (join_subtype a) s) as [Ha|Ha],
           (string_dec (join_subtype b) s) as [Hb|Hb];
    try (apply String.eqb_eq in Ha as Ha'; rewrite Ha');
    try (apply String.eqb_eq in Hb as Hb'; rewrite Hb');
    try (apply String.eqb_neq in Ha as Ha'; rewrite Ha');
    try (apply String.eqb_neq in Hb as Hb'; rewrite Hb');
    reflexivity.
Qed.

Lemma find_inconsistent_subtypes_eq (subtypes : list (list A)) :
  find_inconsistent_subtypes subtypes
  = keys (most_common
            (Counter (flatten_pairs (inconsistent_pairs subtypes)))).
Proof.
  unfold find_inconsistent_subtypes.
  apply collect_frequent_all.
  destruct (Counter_spec (flatten_pairs (inconsistent_pairs subtypes)))
    as (_ & Hpos & _).
  unfold positive_counts in *. rewrite Forall_forall in *.
  intros kn Hkn. apply Hpos.
  eapply Permutation_in; [apply most_common_perm | exact Hkn].
Qed.

Lemma pairs_rec_all_agree (subtypes : list (list A)) :
  (forall i j a b, (i < j)%nat -> nth_error subtypes i = Some a ->
                   nth_error subtypes j = Some b ->
                   compare_subtypes a b = true) ->
  pairs_rec subtypes = [].
Proof.
  intros Hall. destruct (pairs_rec subtypes) as [|[a b] ps] eqn:Hps; trivial.
  assert (Hin : In (a, b) (pairs_rec subtypes)) by (rewrite Hps; now left).
  apply pairs_rec_In in Hin. destruct Hin as (i & j & Hij & Hi & Hj & Hc).
  rewrite (Hall i j a b Hij Hi Hj) in Hc. discriminate.
Qed.

End Ranking.

Section PairCount.
Context {A : Type} `{PyLabel A}.
Local Open Scope nat_scope.

Lemma occurrences_app (s : string) (l1 l2 : list (list A * list A)) :
  occurrences s (l1 ++ l2) = (occurrences s l1 + occurrences s l2)%nat.
Proof. unfold occurrences. now rewrite map_app, list_sum_app. Qed.

Lemma list_sum_cons (n : nat) (l : list nat) :
  list_sum (n :: l) = n + list_sum l.
Proof. reflexivity. Qed.

Lemma list_sum_nth_error (g : list A -> nat) (l : list (list A)) :
  list_sum (map (fun j => match nth_error l j with
                          | Some b => g b
                          | None => 0%nat
                          end) (seq 0 (List.length l)))
  = list_sum (map g l).
Proof.
  induction l as [|b l IH]; [reflexivity|].
  cbn [List.length seq map nth_error].
  rewrite !list_sum_cons, <- seq_shift, map_map. cbn [nth_error].
  now rewrite IH.
Qed.

Lemma occurrences_row_sum (s : string) (a : list A) (rest : list (list A)) :
  occurrences s
    (flat_map (fun b => if compare_subtypes a b then [] else [(a, b)]) rest)
  = list_sum
      (map (fun b => if compare_subtypes a b then 0
                     else (if String.eqb (join_subtype a) s then 1 else 0)
                          + (if String.eqb (join_subtype b) s then 1 else 0))
           rest).
Proof.
  induction rest as [|b rest IH]; [reflexivity|].
  cbn [flat_map map]. rewrite list_sum_cons, occurrences_app, IH.
  f_equal. destruct (compare_subtypes a b); [reflexivity|].
  unfold occurrences. cbn [map fst snd]. rewrite list_sum_cons.
  cbn [list_sum fold_right]. lia.
Qed.

Lemma disagreeing_pair_count_cons (s : string) (x : list A)
    (rest : list (list A)) :
  disagreeing_pair_count (x :: rest) s
  = list_sum
      (map (fun b => if compare_subtypes x b then 0
                     else (if String.eqb (join_subtype x) s then 1 else 0)
                          + (if String.eqb (join_subtype b) s then 1 else 0))
           rest)
    + disagreeing_pair_count rest s.
Proof.
  unfold disagreeing_pair_count.
  cbn [List.length seq map]. rewrite list_sum_cons.
  cbn [map]. rewrite list_sum_cons.
  rewrite <- !seq_shift, !map_map.
  change (contribution (x :: rest) s 0 0) with 0. cbn [Nat.add].
  f_equal.
  - rewrite <- list_sum_nth_error. reflexivity.
  - f_equal. apply map_ext. intros i.
    cbn [map]. rewrite list_sum_cons, map_map.
    change (contribution (x :: rest) s (S i) 0) with 0. cbn [Nat.add].
    f_equal.
Qed.

Lemma occurrences_pair_count (s : string) (subtypes : list (list A)) :
  occurrences s (pairs_rec subtypes) = disagreeing_pair_count subtypes s.
Proof.
  induction subtypes as [|x rest IH]; [reflexivity|].
  cbn [pairs_rec].
  now rewrite occurrences_app, occurrences_row_sum, IH,
    disagreeing_pair_count_cons.
Qed.

End PairCount.

(** C3.  [find_inconsistent_subtypes] returns, without repetition, the
    ['.']-joined strings of the paths of the disagreeing pairs: a string is
    returned exactly when it flattens a path of some pair of positions
    [i < j] on which [compare_subtypes] is [False].  Every such pair of
    positions contributes both of its paths, once per occurrence: the
    number of times a string stands in the list that is counted is
    [disagreeing_pair_count], a sum over the pairs of positions of the
    input, so paths that occur several times in the input count once for
    each position.  The result is in descending order of this count, and
    it is the whole ranking of the counter: every counted string has a
    count of at least one, so the test [freq >= 1] never stops the loop.
    With the paths [[2], [1,2], [1,3], [1,3]] the counts are 3, 3 and 4
    and the result is ['1.3', '2', '1.2']. *)
Theorem C3_find_inconsistent_subtypes_ranking :
  (forall (A : Type) (L : PyLabel A) (subtypes : list (list A)),
      let l := flatten_pairs (inconsistent_pairs subtypes) in
      let r := find_inconsistent_subtypes subtypes in
      let count := disagreeing_pair_count subtypes in
      NoDup r
      /\ (forall s, In s r <->
            exists i j a b, disagree_at subtypes i j a b
                            /\ (s = join_subtype a \/ s = join_subtype b))
      /\ (forall s, In s r <-> (1 <= count s)%nat)
      /\ (forall a b, In (a, b) (inconsistent_pairs subtypes) <->
            exists i j, disagree_at subtypes i j a b)
      /\ (forall s, occurrences s (inconsistent_pairs subtypes) = count s)
      /\ (forall s, count_occ string_dec l s = count s)
      /\ (forall s n, In (s, n) (Counter l) -> n = count s /\ (1 <= n)%nat)
      /\ StronglySorted (fun s t => (count t <= count s)%nat) r
      /\ r = map fst (most_common (Counter l)))
  /\ (map (disagreeing_pair_count paths_last_twice) ["2"; "1.2"; "1.3"]
      = [3; 3; 4]%nat
      /\ find_inconsistent_subtypes paths_last_twice = ["1.3"; "2"; "1.2"]).
Proof.
  split; [|split; reflexivity].
  intros A L subtypes l r count.
  destruct (Counter_spec l) as (Hnd & Hpos & Hkeys & Hcount).
  assert (Hr : r = keys (most_common (Counter l)))
    by apply find_inconsistent_subtypes_eq.
  assert (Hperm : Permutation (keys (most_common (Counter l))) (keys (Counter l)))
    by (apply Permutation_map, most_common_perm).
  assert (Hpairs : forall a b, In (a, b) (inconsistent_pairs subtypes) <->
                               exists i j, disagree_at subtypes i j a b).
  { intros a b. rewrite inconsistent_pairs_rec. apply pairs_rec_In. }
  assert (Hocc : forall s, occurrences s (inconsistent_pairs subtypes)
                           = count s).
  { intros s. rewrite inconsistent_pairs_rec. apply occurrences_pair_count. }
  assert (Hl : forall s, count_occ string_dec l s = count s).
  { intros s. unfold l. now rewrite flatten_pairs_count. }
  assert (Hin : forall s, In s r <-> In s l).
  { intros s. rewrite Hr. split.
    - intros Hs. now apply (Permutation_in _ Hperm), Hkeys in Hs.
    - intros Hs. now apply (Permutation_in _ (Permutation_sym Hperm)), Hkeys. }
  split; [|split; [|split; [|split; [|split; [|split; [|split; [|split]]]]]]].
  - rewrite Hr. eapply Permutation_NoDup; [symmetry; exact Hperm | exact Hnd].
  - intros s. rewrite Hin. split.
    + intros Hs.
      apply flatten_pairs_In in Hs. destruct Hs as (a & b & Hab & Hs).
      apply Hpairs in Hab. destruct Hab as (i & j & Hd).
      now exists i, j, a, b.
    + intros (i & j & a & b & Hd & Hs).
      apply flatten_pairs_In. exists a, b. split; trivial.
      apply Hpairs. now exists i, j.
  - intros s. rewrite Hin, <- Hl.
    rewrite (count_occ_In string_dec). unfold gt, lt. reflexivity.
  - exact Hpairs.
  - exact Hocc.
  - exact Hl.
  - intros s n Hsn. split.
    + rewrite <- Hl. now apply Hcount.
    + unfold positive_counts in Hpos. rewrite Forall_forall in Hpos.
      apply (Hpos (s, n) Hsn).
  - rewrite Hr. unfold keys.
    apply StronglySorted_map with (R := by_count_desc);
      [|apply most_common_sorted].
    intros [s n] [t m] Hs Ht Hst. unfold by_count_desc in Hst. simpl in *.
    apply (Permutation_in _ (most_common_perm _)), Hcount in Hs.
    apply (Permutation_in _ (most_common_perm _)), Hcount in Ht.
    fold l in Hs, Ht. rewrite <- !Hl. lia.
  - exact Hr.
Qed.

(** C5 (amended).  On [[1,2],[1,2],[1,3]] the result is ["1.2"; "1.3"]: it
    holds both strings, in descending order of frequency.  Two disagreeing
    pairs are recorded, positions 0 and 2 and positions 1 and 2, so each
    string has the count 2. *)
Theorem C5_example_two_pairs :
  find_inconsistent_subtypes paths_repeated = ["1.2"; "1.3"]
  /\ In "1.3" (find_inconsistent_subtypes paths_repeated)
  /\ In "1.2" (find_inconsistent_subtypes paths_repeated)
  /\ inconsistent_pairs paths_repeated
     = [([1; 2], [1; 3]); ([1; 2], [1; 3])]%Z
  /\ disagree_at paths_repeated 0 2 [1; 2]%Z [1; 3]%Z
  /\ disagree_at paths_repeated 1 2 [1; 2]%Z [1; 3]%Z
  /\ most_common (Counter (flatten_pairs (inconsistent_pairs paths_repeated)))
     = [("1.2", 2%nat); ("1.3", 2%nat)].
Proof.
  unfold disagree_at. repeat split; simpl; auto.
Qed.

(** C5 as stated: the input does not record exactly one pair, and the
    counts are not 1. *)
Lemma C5_counterexample :
  ~ (List.length (inconsistent_pairs paths_repeated) = 1%nat
     /\ count_occ string_dec
          (flatten_pairs (inconsistent_pairs paths_repeated)) "1.3" = 1%nat
     /\ count_occ string_dec
          (flatten_pairs (inconsistent_pairs paths_repeated)) "1.2" = 1%nat).
Proof.
  intros (Hlen & _). vm_compute in Hlen. discriminate.
Qed.

(** C6.  The result is empty when there is at most one path, and when
    every pair of paths agrees under [compare_subtypes]. *)
Theorem C6_empty_result :
  forall (A : Type) (L : PyLabel A) (subtypes : list (list A)),
    ((List.length subtypes <= 1)%nat
     \/ (forall i j a b, (i < j)%nat -> nth_error subtypes i = Some a ->
                         nth_error subtypes j = Some b ->
                         compare_subtypes a b = true)) ->
    find_inconsistent_subtypes subtypes = [].
Proof.
  intros A L subtypes Hcases.
  assert (Hall : forall i j a b, (i < j)%nat -> nth_error subtypes i = Some a ->
                          nth_error subtypes j = Some b ->
                          compare_subtypes a b = true).
  { destruct Hcases as [Hlen|Hall]; trivial.
    intros i j a b Hij Hi Hj.
    assert (j < List.length subtypes)%nat
      by (apply nth_error_Some; congruence).
    lia. }
  unfold find_inconsistent_subtypes.
  rewrite inconsistent_pairs_rec, (pairs_rec_all_agree _ Hall).
  reflexivity.
Qed.

Lemma C6_witness :
  find_inconsistent_subtypes [[1; 2]; [1; 2; 3]; [1]]%Z = []
  /\ find_inconsistent_subtypes [[1; 2]]%Z = []
  /\ find_inconsistent_subtypes (@nil (list Z)) = [].
Proof.
  split; [|split].
  - apply C6_empty_result. right.
    intros [|[|[|i]]] [|[|[|j]]] a b Hij Hi Hj; simpl in *;
      try lia; try discriminate;
      try (destruct i; discriminate); try (destruct j; discriminate);
      injection Hi as <-; injection Hj as <-; reflexivity.
  - apply C6_empty_result. left. simpl. lia.
  - apply C6_empty_result. left. simpl. lia.
Defined.

(* ===================================================================== *)
(** * Parsing the expected count *)
(* ===================================================================== *)

Lemma str_split_nonempty (sep : ascii) (s : string) : str_split sep s <> [].
Proof.
  destruct s as [|c s]; simpl; [discriminate|].
  destruct (Ascii.eqb c sep); [discriminate|].
  destruct (str_split sep s); discriminate.
Qed.

(** The first piece of [s.split(";")] has no semicolon, and [s] is that
    piece alone or that piece, a semicolon and the rest. *)
Lemma str_split_first (s : string) :
  exists first rest,
    str_split ";" s = first :: rest
    /\ (forall i, String.get i first <> Some ";"%char)
    /\ (s = first \/ exists t, s = first ++ String ";" t)%string.
Proof.
  induction s as [|c s (first & rest & Hsplit & Hfirst & Hs)]; simpl.
  - exists EmptyString, []. repeat split; auto. intros i. destruct i; discriminate.
  - destruct (Ascii.eqb_spec c ";") as [->|Hne].
    + exists EmptyString, (str_split ";" s). repeat split.
      * intros i. destruct i; discriminate.
      * right. now exists s.
    + rewrite Hsplit. exists (String c first), rest. repeat split.
      * intros [|i]; simpl; [congruence | apply Hfirst].
      * destruct Hs as [->|(t & ->)]; [now left | right; now exists t].
Qed.

Lemma int_of_str_raises (s : string) (e : exn) :
  int_of_str s = Raise e -> e = ValueError.
Proof.
  unfold int_of_str.
  destruct (match lstrip s with
            | String "+" s' => int_unsigned s'
            | String "-" s' => option_map Z.opp (int_unsigned s')
            | s' => int_unsigned s'
            end); congruence.
Qed.

Lemma expected_tiles_missing (st : Subtype) :
  n_tiles_matching_all_expected st = None ->
  expected_tiles st = Raise AttributeError.
Proof. unfold expected_tiles. now intros ->. Qed.

Lemma expected_tiles_some (st : Subtype) (s first : string) (rest : list string) :
  n_tiles_matching_all_expected st = Some s ->
  str_split ";" s = first :: rest ->
  expected_tiles st = int_of_str first.
Proof. unfold expected_tiles. now intros -> ->. Qed.

(** C7. When the expected count is missing, or the text before its first
    semicolon is not an integer literal, both checks raise
    ([AttributeError] for the missing attribute, [ValueError] for the
    literal) and so return no boolean; ["abc"] is such a text. *)
Theorem C7_malformed_expected_raises :
  forall st : Subtype,
    (n_tiles_matching_all_expected st = None
     \/ exists s first rest,
          n_tiles_matching_all_expected st = Some s
          /\ str_split ";" s = first :: rest
          /\ int_of_str first = Raise ValueError) ->
    (exists e, (e = AttributeError \/ e = ValueError)
               /\ check_is_confident_subtype st = Raise e
               /\ check_min_tiles_reached st = Raise e)
    /\ (forall b, check_is_confident_subtype st <> Return b)
    /\ (forall b, check_min_tiles_reached st <> Return b).
Proof.
  intros st Hbad.
  assert (Hraise : exists e, (e = AttributeError \/ e = ValueError)
                             /\ expected_tiles st = Raise e).
  { destruct Hbad as [Hnone|(s & first & rest & Hs & Hsplit & Hint)].
    - exists AttributeError. split; [now left | now apply expected_tiles_missing].
    - exists ValueError. split; [now right|].
      now rewrite (expected_tiles_some st s first rest Hs Hsplit). }
  destruct Hraise as (e & He & Hexp).
  unfold check_is_confident_subtype, check_min_tiles_reached.
  rewrite Hexp. simpl. split; [|split].
  - now exists e.
  - discriminate.
  - discriminate.
Qed.

Lemma C7_witness :
  (exists e, (e = AttributeError \/ e = ValueError)
             /\ check_is_confident_subtype st_abc = Raise e
             /\ check_min_tiles_reached st_abc = Raise e)
  /\ (forall b, check_is_confident_subtype st_abc <> Return b)
  /\ (forall b, check_min_tiles_reached st_abc <> Return b).
Proof.
  apply C7_malformed_expected_raises.
  right. exists "abc", "abc", []. repeat split.
Defined.

(* ===================================================================== *)
(** * Binary64 rounding *)
(* ===================================================================== *)

Local Open Scope Z_scope.

Section Rounding.

Lemma digits2_pos_bounds (p : positive) :
  2 ^ (Zpos (digits2_pos p) - 1) <= Zpos p < 2 ^ Zpos (digits2_pos p).
Proof.
  induction p as [p IH|p IH|]; simpl digits2_pos.
  - rewrite Pos2Z.inj_succ, (Pos2Z.inj_xI p).
    replace (Z.succ (Zpos (digits2_pos p)) - 1)
      with (Z.succ (Zpos (digits2_pos p) - 1)) by lia.
    rewrite !Z.pow_succ_r by lia. lia.
  - rewrite Pos2Z.inj_succ, (Pos2Z.inj_xO p).
    replace (Z.succ (Zpos (digits2_pos p)) - 1)
      with (Z.succ (Zpos (digits2_pos p) - 1)) by lia.
    rewrite !Z.pow_succ_r by lia. lia.
  - simpl. lia.
Qed.

Lemma digits2_pos_unique (p : positive) (d : Z) :
  2 ^ (d - 1) <= Zpos p < 2 ^ d -> Zpos (digits2_pos p) = d.
Proof.
  intros [Hlo Hhi].
  destruct (digits2_pos_bounds p) as [Hlo' Hhi'].
  assert (Hd : 0 < d).
  { destruct (Z.lt_trichotomy d 0) as [Hneg|[->|Hpos]]; trivial.
    - rewrite Z.pow_neg_r in Hhi by lia. lia.
    - simpl in Hhi. lia. }
  assert (H1 : Zpos (digits2_pos p) - 1 < d).
  { apply (Z.pow_lt_mono_r_iff 2); lia. }
  assert (H2 : d - 1 < Zpos (digits2_pos p)).
  { apply (Z.pow_lt_mono_r_iff 2); lia. }
  lia.
Qed.

Lemma shr_1_nonneg (m : Z) (r s : bool) :
  0 <= m ->
  shr_1 {| shr_m := m; shr_r := r; shr_s := s |}
  = {| shr_m := m / 2; shr_r := Z.odd m; shr_s := r || s |}.
Proof.
  intros Hm. destruct m as [|p|p]; [reflexivity| |lia].
  destruct p as [p|p|]; simpl shr_1; f_equal.
  - rewrite (Pos2Z.inj_xI p). apply Z.div_unique with 1; lia.
  - rewrite (Pos2Z.inj_xO p). apply Z.div_unique with 0; lia.
Qed.

Lemma shr_inv_0 (P : Z) :
  shr_inv P 0 {| shr_m := P; shr_r := false; shr_s := false |}.
Proof.
  unfold shr_inv. cbn [shr_m shr_r shr_s]. change (2 ^ 0) with 1.
  rewrite Z.div_1_r, Z.mod_1_r. change ((2 * 0) mod 1) with 0.
  split; [reflexivity|]. split; split; intros H; try discriminate; lia.
Qed.

Lemma shr_inv_step (P n : Z) (mrs : shr_record) :
  0 <= P -> 0 <= n -> shr_inv P n mrs -> shr_inv P (n + 1) (shr_1 mrs).
Proof.
  intros HP Hn (Hm & Hr & Hs).
  destruct mrs as [m r s]. cbn [shr_m shr_r shr_s] in *.
  assert (HB : 0 < 2 ^ n) by (apply Z.pow_pos_nonneg; lia).
  assert (Hm0 : 0 <= m) by (subst m; apply Z.div_pos; lia).
  rewrite shr_1_nonneg by trivial.
  unfold shr_inv. cbn [shr_m shr_r shr_s].
  rewrite Z.pow_add_r, Z.pow_1_r by lia.
  set (B := 2 ^ n) in *.
  assert (Hrem : 0 <= P mod B < B) by (apply Z.mod_pos_bound; lia).
  assert (Hdiv : P / (B * 2) = m / 2)
    by (subst m; rewrite Z.div_div by lia; reflexivity).
  assert (Hmod : P mod (B * 2) = P mod B + B * (m mod 2))
    by (subst m; apply Z.rem_mul_r; lia).
  assert (Hm2 : m mod 2 = 0 \/ m mod 2 = 1)
    by (pose proof (Z.mod_pos_bound m 2); lia).
  assert (Hodd : Z.odd m = true <-> m mod 2 = 1).
  { rewrite Zodd_mod. destruct (Z.eqb_spec (m mod 2) 1); intuition congruence. }
  rewrite Hdiv, Hmod. split; [reflexivity|]. split.
  - rewrite Hodd. split; intros H; [rewrite H; lia|].
    destruct Hm2 as [H0|H1]; trivial. rewrite H0 in H. lia.
  - assert (Hsticky : (2 * (P mod B + B * (m mod 2))) mod (B * 2) <> 0
                      <-> P mod B <> 0).
    { replace (2 * (P mod B + B * (m mod 2)))
        with (2 * (P mod B) + (m mod 2) * (B * 2)) by ring.
      rewrite Z.mod_add by lia.
      rewrite Z.mod_small by lia. lia. }
    rewrite Hsticky, orb_true_iff, Hr, Hs. split.
    + intros [H|H] Hz; rewrite Hz in *; simpl in *.
      * lia.
      * rewrite Z.mod_0_l in H by lia. now apply H.
    + intros Hnz. destruct (Z_lt_le_dec (2 * (P mod B)) B) as [Hlt|Hge].
      * right. rewrite Z.mod_small by lia. lia.
      * now left.
Qed.

Lemma shr_inv_iter (P : Z) (p : positive) :
  0 <= P ->
  forall (n : Z) (mrs : shr_record),
    0 <= n -> shr_inv P n mrs ->
    shr_inv P (n + Zpos p) (iter_pos shr_1 p mrs).
Proof.
  intros HP. induction p as [p IH|p IH|]; intros n mrs Hn Hinv; simpl iter_pos.
  - replace (n + Zpos p~1) with (((n + 1) + Zpos p) + Zpos p) by lia.
    apply IH; [lia|]. apply IH; [lia|]. now apply shr_inv_step.
  - replace (n + Zpos p~0) with ((n + Zpos p) + Zpos p) by lia.
    apply IH; [lia|]. now apply IH.
  - now apply shr_inv_step.
Qed.

(** Shifting right by [n] from an exact mantissa. *)
Lemma shr_exact_inv (P E n : Z) :
  0 <= P -> 0 <= n ->
  exists mrs,
    shr (shr_record_of_loc P loc_Exact) E n = (mrs, E + n)
    /\ shr_inv P n mrs.
Proof.
  intros HP Hn. unfold shr. simpl shr_record_of_loc.
  destruct n as [|p|p]; [| |lia].
  - eexists. split; [rewrite Z.add_0_r; reflexivity | apply shr_inv_0].
  - eexists. split; [reflexivity|].
    change (Zpos p) with (0 + Zpos p).
    apply shr_inv_iter; [trivial | lia | apply shr_inv_0].
Qed.

(** Rounding to nearest, ties to even, leaves a quotient within half a
    unit of the shifted mantissa. *)
Lemma round_nearest_even_inv (P n : Z) (mrs : shr_record) :
  0 <= P -> 0 <= n -> shr_inv P n mrs ->
  let q := round_nearest_even (shr_m mrs) (loc_of_shr_record mrs) in
  P / 2 ^ n <= q <= P / 2 ^ n + 1
  /\ 2 * Z.abs (q * 2 ^ n - P) <= 2 ^ n.
Proof.
  intros HP Hn (Hm & Hr & Hs) q.
  assert (HB : 0 < 2 ^ n) by (apply Z.pow_pos_nonneg; lia).
  set (B := 2 ^ n) in *.
  assert (Hrem : 0 <= P mod B < B) by (apply Z.mod_pos_bound; lia).
  assert (HPeq : P = B * (P / B) + P mod B) by (apply Z.div_mod; lia).
  destruct mrs as [m r s]. cbn [shr_m shr_r shr_s] in *. subst m.
  set (m := P / B) in *. set (rem := P mod B) in *.
  destruct r, s;
    cbn [round_nearest_even loc_of_shr_record shr_m shr_r shr_s] in q;
    subst q.
  - (* above the midpoint *)
    assert (H1 : B <= 2 * rem) by now apply Hr.
    assert (H2 : (2 * rem) mod B <> 0) by now apply Hs.
    assert (H3 : 2 * rem <> B) by (intros Heq; apply H2; rewrite Heq; apply Z.mod_same; lia).
    split; [lia|]. nia.
  - (* the midpoint *)
    assert (H1 : B <= 2 * rem) by now apply Hr.
    assert (H2 : (2 * rem) mod B = 0).
    { destruct (Z.eq_dec ((2 * rem) mod B) 0) as [Hz|Hnz]; trivial.
      apply Hs in Hnz. discriminate. }
    assert (H3 : 2 * rem = B).
    { replace (2 * rem) with ((2 * rem - B) + 1 * B) in H2 by ring.
      rewrite Z.mod_add in H2 by lia.
      rewrite Z.mod_small in H2 by lia. lia. }
    destruct (Z.even m); split; try lia; nia.
  - (* below the midpoint *)
    assert (H1 : ~ B <= 2 * rem) by (intros H; apply Hr in H; discriminate).
    split; [lia|]. nia.
  - (* exact *)
    assert (H1 : ~ B <= 2 * rem) by (intros H; apply Hr in H; discriminate).
    assert (H2 : rem = 0).
    { destruct (Z.eq_dec ((2 * rem) mod B) 0) as [Hz|Hnz].
      - rewrite Z.mod_small in Hz by lia. lia.
      - apply Hs in Hnz. discriminate. }
    split; [lia|]. nia.
Qed.

End Rounding.

Section RoundingOps.

Lemma fexp_normal (x : Z) : -1021 <= x -> fexp prec emax x = x - 53.
Proof. unfold fexp, SpecFloat.emin, prec, emax. lia. Qed.

Lemma pow2_pos (n : Z) : 0 <= n -> 0 < 2 ^ n.
Proof. intros Hn. apply Z.pow_pos_nonneg; lia. Qed.

Lemma pow2_split (a b : Z) : 0 <= a -> 0 <= b -> 2 ^ (a + b) = 2 ^ a * 2 ^ b.
Proof. intros Ha Hb. now apply Z.pow_add_r. Qed.

(** [binary_round_aux] on an exact mantissa of at least 53 digits, away
    from the subnormal and the infinite range: the result is a normal
    number within half a unit in the last place. *)
Lemma binary_round_aux_normal (s : bool) (P : positive) (E : Z) :
  let d := Zpos (digits2_pos P) in
  53 <= d -> -1021 <= d + E -> d + E <= 1023 ->
  exists (m' : positive) (e' : Z),
    binary_round_aux prec emax s (Zpos P) E loc_Exact = S754_finite s m' e'
    /\ 2 ^ 52 <= Zpos m' < 2 ^ 53
    /\ d + E - 53 <= e' <= d + E - 52
    /\ 2 * Z.abs (Zpos m' * 2 ^ (e' - E) - Zpos P) <= 2 ^ (d - 53).
Proof.
  intros d Hd Hlo Hhi.
  set (n := d - 53).
  assert (Hn : 0 <= n) by (unfold n; lia).
  destruct (digits2_pos_bounds P) as [HPlo HPhi]. fold d in HPlo, HPhi.
  assert (HBn : 0 < 2 ^ n) by now apply pow2_pos.
  assert (Hd1 : 2 ^ (d - 1) = 2 ^ 52 * 2 ^ n).
  { rewrite <- pow2_split by lia. f_equal. unfold n. lia. }
  assert (Hd2 : 2 ^ d = 2 ^ 53 * 2 ^ n).
  { rewrite <- pow2_split by lia. f_equal. unfold n. lia. }
  unfold binary_round_aux, shr_fexp.
  change (Zdigits2 (Zpos P)) with d.
  rewrite fexp_normal by lia.
  replace (d + E - 53 - E) with n by (unfold n; lia).
  destruct (shr_exact_inv (Zpos P) E n) as (mrs & Hshr & Hinv); [lia | lia |].
  rewrite Hshr.
  destruct (round_nearest_even_inv (Zpos P) n mrs) as (Hq & Herr);
    [lia | lia | exact Hinv |].
  set (q := round_nearest_even (shr_m mrs) (loc_of_shr_record mrs)) in *.
  assert (Hquo : 2 ^ 52 <= Zpos P / 2 ^ n < 2 ^ 53).
  { split.
    - apply Z.div_le_lower_bound; lia.
    - apply Z.div_lt_upper_bound; lia. }
  assert (Hqr : 2 ^ 52 <= q <= 2 ^ 53) by lia.
  destruct q as [|pq|pq] eqn:Hqeq; [lia| |lia].
  destruct (Z.eq_dec (Zpos pq) (2 ^ 53)) as [Htop|Hlt].
  - (* the rounded mantissa is 2^53: one more shift *)
    assert (Hdq : Zpos (digits2_pos pq) = 54).
    { apply digits2_pos_unique. rewrite Htop. split; [reflexivity|].
      apply Z.pow_lt_mono_r; lia. }
    cbn [Zdigits2]. rewrite Hdq.
    rewrite fexp_normal by lia.
    replace (54 + (E + n) - 53 - (E + n)) with 1 by lia.
    injection Htop as ->.
    exists (4503599627370496%positive), (E + n + 1).
    cbn [shr shr_record_of_loc iter_pos shr_1 shr_m fst snd].
    replace (E + n + 1 <=? emax - prec) with true
      by (symmetry; apply Z.leb_le; unfold emax, prec, n; lia).
    split; [reflexivity|]. split; [split; [reflexivity|reflexivity]|].
    split; [unfold n; lia|].
    replace (E + n + 1 - E) with (1 + n) by lia.
    rewrite pow2_split by lia. fold n.
    change (2 ^ 53) with (Zpos 9007199254740992) in Herr.
    change (2 ^ 1) with 2. lia.
  - (* the rounded mantissa has 53 digits *)
    assert (Hdq : Zpos (digits2_pos pq) = 53).
    { apply digits2_pos_unique. change (53 - 1) with 52. lia. }
    cbn [Zdigits2]. rewrite Hdq.
    rewrite fexp_normal by lia.
    replace (53 + (E + n) - 53 - (E + n)) with 0 by lia.
    exists pq, (E + n).
    cbn [shr shr_record_of_loc shr_m fst snd].
    replace (E + n <=? emax - prec) with true
      by (symmetry; apply Z.leb_le; unfold emax, prec, n; lia).
    split; [reflexivity|]. split; [lia|].
    split; [unfold n; lia|].
    replace (E + n - E) with n by lia. fold n. exact Herr.
Qed.

Lemma digits2_pos_bounds_upper (p : positive) (d : Z) :
  Zpos (digits2_pos p) = d -> Zpos p < 2 ^ d.
Proof. intros <-. apply digits2_pos_bounds. Qed.

End RoundingOps.

Section Scaled.

(** The lemmas below measure a mantissa [m] with exponent [e] in units of
    [2 ^ (- K)], as the integer [m * 2 ^ (e + K)], for any [K] large
    enough to make the exponents non-negative. *)
Variable K : Z.

Lemma shl_align_pos (m : positive) (k : positive) :
  Zpos (Pos.iter xO m k) = Zpos m * 2 ^ Zpos k.
Proof.
  change (Pos.iter xO m k) with (shift_pos k m).
  rewrite shift_pos_correct. change (Z.pow_pos 2 k) with (2 ^ Zpos k). lia.
Qed.

Lemma scaled_abs_le (X B W : Z) :
  0 < W -> 2 * Z.abs X <= B -> 2 * Z.abs (X * W) <= B * W.
Proof.
  intros HW HX. rewrite Z.abs_mul, (Z.abs_eq W) by lia.
  rewrite Z.mul_assoc. apply Z.mul_le_mono_nonneg_r; lia.
Qed.

Lemma scaled_half_unit (Y W : Z) :
  0 < W -> 2 * Z.abs (Y * W) <= W -> Y = 0.
Proof.
  intros HW HY. rewrite Z.abs_mul, (Z.abs_eq W) in HY by lia.
  destruct (Z.eq_dec Y 0) as [|Hne]; trivial. exfalso.
  assert (H1 : 1 * W <= Z.abs Y * W)
    by (apply Z.mul_le_mono_nonneg_r; lia).
  lia.
Qed.

Lemma binary_round_aux_scaled (s : bool) (P : positive) (E : Z) :
  let d := Zpos (digits2_pos P) in
  let j := d + E - 53 in
  53 <= d -> -1021 <= d + E -> d + E <= 1023 -> 0 <= E + K ->
  exists (m' : positive) (e' : Z),
    binary_round_aux prec emax s (Zpos P) E loc_Exact = S754_finite s m' e'
    /\ 2 ^ 52 <= Zpos m' < 2 ^ 53
    /\ j <= e' <= j + 1
    /\ 2 * Z.abs (Zpos m' * 2 ^ (e' + K) - Zpos P * 2 ^ (E + K))
       <= 2 ^ (j + K)
    /\ 2 ^ (j + K) * 2 ^ 52 <= Zpos P * 2 ^ (E + K) < 2 ^ (j + K) * 2 ^ 53.
Proof.
  intros d j Hd Hlo Hhi HK.
  destruct (binary_round_aux_normal s P E Hd Hlo Hhi)
    as (m' & e' & Heq & Hm' & He' & Herr).
  fold d in He', Herr.
  exists m', e'. split; [exact Heq|]. split; [exact Hm'|].
  split; [unfold j; lia|].
  assert (HW : 0 < 2 ^ (E + K)) by now apply pow2_pos.
  destruct (digits2_pos_bounds P) as [HPlo HPhi]. fold d in HPlo, HPhi.
  replace (e' + K) with ((e' - E) + (E + K)) by lia.
  replace (j + K) with ((d - 53) + (E + K)) by (unfold j; lia).
  rewrite (pow2_split (e' - E) (E + K)), (pow2_split (d - 53) (E + K)) by lia.
  set (W := 2 ^ (E + K)) in *. set (B := 2 ^ (d - 53)) in *.
  assert (HB52 : B * 2 ^ 52 = 2 ^ (d - 1)).
  { unfold B. rewrite <- pow2_split by lia. f_equal. lia. }
  assert (HB53 : B * 2 ^ 53 = 2 ^ d).
  { unfold B. rewrite <- pow2_split by lia. f_equal. lia. }
  split.
  - replace (Zpos m' * (2 ^ (e' - E) * W) - Zpos P * W)
      with ((Zpos m' * 2 ^ (e' - E) - Zpos P) * W) by ring.
    now apply scaled_abs_le.
  - replace (B * W * 2 ^ 52) with (2 ^ (d - 1) * W) by (rewrite <- HB52; ring).
    replace (B * W * 2 ^ 53) with (2 ^ d * W) by (rewrite <- HB53; ring).
    split.
    + apply Z.mul_le_mono_nonneg_r; lia.
    + apply Z.mul_lt_mono_pos_r; lia.
Qed.

Lemma binary_round_scaled (s : bool) (P : positive) (E : Z) :
  let d := Zpos (digits2_pos P) in
  let j := d + E - 53 in
  -1021 <= d + E -> d + E <= 1023 -> 0 <= E + K -> 0 <= j + K ->
  exists (m' : positive) (e' : Z),
    binary_round prec emax s P E = S754_finite s m' e'
    /\ 2 ^ 52 <= Zpos m' < 2 ^ 53
    /\ j <= e' <= j + 1
    /\ 2 * Z.abs (Zpos m' * 2 ^ (e' + K) - Zpos P * 2 ^ (E + K))
       <= 2 ^ (j + K)
    /\ 2 ^ (j + K) * 2 ^ 52 <= Zpos P * 2 ^ (E + K) < 2 ^ (j + K) * 2 ^ 53
    /\ (d <= 53 -> Zpos m' * 2 ^ (e' + K) = Zpos P * 2 ^ (E + K)).
Proof.
  intros d j Hlo Hhi HK HjK.
  unfold binary_round. change (Zpos (digits2_pos P)) with d.
  rewrite fexp_normal by lia. unfold shl_align.
  destruct (digits2_pos_bounds P) as [HPlo HPhi]. fold d in HPlo, HPhi.
  assert (Hd0 : 0 < d) by (unfold d; lia).
  destruct (d + E - 53 - E) as [|k|k] eqn:Hk.
  - (* exactly 53 digits *)
    assert (Hd : d = 53) by lia.
    destruct (binary_round_aux_scaled s P E) as (m' & e' & Heq & Hm' & He' & Herr & HU);
      fold d; try lia.
    fold d in He', Herr, HU. fold j in He', Herr, HU.
    exists m', e'. repeat split; try tauto; try lia.
    intros _.
    assert (Hj : j = E) by (unfold j; lia). rewrite Hj in *.
    assert (HW : 0 < 2 ^ (E + K)) by now apply pow2_pos.
    destruct (Z.eq_dec e' E) as [->|Hne].
    + set (W := 2 ^ (E + K)) in *.
      replace (Zpos m' * W - Zpos P * W) with ((Zpos m' - Zpos P) * W) in Herr by ring.
      apply scaled_half_unit in Herr; [|exact HW].
      replace (Zpos m') with (Zpos P) by lia. reflexivity.
    + exfalso. assert (He1 : e' = E + 1) by lia. subst e'.
      replace (E + 1 + K) with (1 + (E + K)) in Herr by lia.
      rewrite pow2_split in Herr by lia. change (2 ^ 1) with 2 in Herr.
      set (W := 2 ^ (E + K)) in *.
      replace (Zpos m' * (2 * W) - Zpos P * W)
        with ((2 * Zpos m' - Zpos P) * W) in Herr by ring.
      apply scaled_half_unit in Herr; [|exact HW].
      rewrite Hd in HPhi. change (2 ^ 53) with (2 * 2 ^ 52) in HPhi. lia.
  - (* more than 53 digits: rounding *)
    assert (Hd : 53 < d) by lia.
    destruct (binary_round_aux_scaled s P E) as (m' & e' & Heq & Hm' & He' & Herr & HU);
      fold d; try lia.
    fold d in He', Herr, HU. fold j in He', Herr, HU.
    exists m', e'. repeat split; try tauto; try lia.
  - (* fewer than 53 digits: the mantissa is shifted left, exactly *)
    assert (Hd : d < 53) by lia.
    assert (Hkd : Zpos k = 53 - d) by lia.
    set (mz := Pos.iter xO P k).
    assert (Hmz : Zpos mz = Zpos P * 2 ^ (53 - d)).
    { unfold mz. rewrite shl_align_pos, Hkd. reflexivity. }
    assert (Hb : 2 ^ (53 - d) * 2 ^ (d - 1) = 2 ^ 52).
    { rewrite <- pow2_split by lia. f_equal. lia. }
    assert (Hb' : 2 ^ (53 - d) * 2 ^ d = 2 ^ 53).
    { rewrite <- pow2_split by lia. f_equal. lia. }
    assert (Hsh : 0 < 2 ^ (53 - d)) by (apply pow2_pos; lia).
    assert (Hdz : Zpos (digits2_pos mz) = 53).
    { apply digits2_pos_unique. change (53 - 1) with 52. rewrite Hmz.
      rewrite <- Hb, <- Hb'. rewrite (Z.mul_comm (Zpos P)). split.
      - apply Z.mul_le_mono_nonneg_l; lia.
      - apply Z.mul_lt_mono_pos_l; lia. }
    destruct (binary_round_aux_scaled s mz (d + E - 53))
      as (m' & e' & Heq & Hm' & He' & Herr & HU);
      rewrite ?Hdz; try lia.
    rewrite Hdz in He', Herr, HU.
    replace (53 + (d + E - 53) - 53) with j in He', Herr, HU by (unfold j; lia).
    assert (Hval : Zpos mz * 2 ^ (d + E - 53 + K) = Zpos P * 2 ^ (E + K)).
    { rewrite Hmz. replace (E + K) with ((53 - d) + (d + E - 53 + K)) by lia.
      rewrite (pow2_split (53 - d)) by (unfold j in HjK; lia). ring. }
    rewrite Hval in Herr, HU.
    exists m', e'. split; [exact Heq|]. split; [exact Hm'|].
    split; [exact He'|]. split; [exact Herr|]. split; [exact HU|].
    intros _. rewrite <- Hval.
    fold j. fold j in Hval.
    assert (HW : 0 < 2 ^ (j + K)) by now apply pow2_pos.
    rewrite <- Hval in Herr.
    destruct (Z.eq_dec e' j) as [->|Hne].
    + set (W := 2 ^ (j + K)) in *.
      replace (Zpos m' * W - Zpos mz * W) with ((Zpos m' - Zpos mz) * W) in Herr by ring.
      apply scaled_half_unit in Herr; [|exact HW].
      replace (Zpos m') with (Zpos mz) by lia. reflexivity.
    + exfalso. assert (He1 : e' = j + 1) by lia. subst e'.
      replace (j + 1 + K) with (1 + (j + K)) in Herr by lia.
      rewrite pow2_split in Herr by lia. change (2 ^ 1) with 2 in Herr.
      set (W := 2 ^ (j + K)) in *.
      replace (Zpos m' * (2 * W) - Zpos mz * W)
        with ((2 * Zpos m' - Zpos mz) * W) in Herr by ring.
      apply scaled_half_unit in Herr; [|exact HW].
      assert (Hmz53 : Zpos mz < 2 ^ 53).
      { apply digits2_pos_bounds_upper. exact Hdz. }
      change (2 ^ 53) with (2 * 2 ^ 52) in Hmz53. lia.
Qed.

End Scaled.

Section Operations.

Variable K : Z.

Lemma digits2_pos_range (P : positive) (lo hi : Z) :
  0 <= lo -> 2 ^ lo <= Zpos P < 2 ^ hi ->
  lo < Zpos (digits2_pos P) <= hi.
Proof.
  intros Hlo0 [Hlo Hhi].
  destruct (digits2_pos_bounds P) as [HPlo HPhi].
  set (d := Zpos (digits2_pos P)) in *.
  assert (Hd : 0 < d) by (unfold d; lia).
  assert (Hhi0 : 0 < hi).
  { destruct (Z.lt_trichotomy hi 0) as [Hneg|[->|Hpos]]; trivial.
    - rewrite Z.pow_neg_r in Hhi by lia. lia.
    - simpl in Hhi. lia. }
  split.
  - apply (Z.pow_lt_mono_r_iff 2); lia.
  - assert (d - 1 < hi) by (apply (Z.pow_lt_mono_r_iff 2); lia). lia.
Qed.

Lemma pow2_lt_exp (x y : Z) : 0 <= y -> 2 ^ x < 2 ^ y -> x < y.
Proof. intros Hy H. apply (Z.pow_lt_mono_r_iff 2); lia. Qed.

Lemma pow2_le (x y : Z) : 0 <= x <= y -> 2 ^ x <= 2 ^ y.
Proof. intros H. apply Z.pow_le_mono_r; lia. Qed.

(** [binary_normalize] of a non-zero integer of magnitude below [2 ^ 53]
    is exact. *)
Lemma binary_normalize_exact (z : Z) :
  0 < Z.abs z < 2 ^ 53 -> 52 <= K ->
  exists (m : positive) (e : Z),
    binary_normalize prec emax z 0 false = S754_finite (z <? 0) m e
    /\ 2 ^ 52 <= Zpos m < 2 ^ 53
    /\ -52 <= e <= 1
    /\ Zpos m * 2 ^ (e + K) = Z.abs z * 2 ^ K.
Proof.
  intros Hz HK.
  assert (Hgen : forall (s : bool) (p : positive),
             Zpos p < 2 ^ 53 ->
             exists (m : positive) (e : Z),
               binary_round prec emax s p 0 = S754_finite s m e
               /\ 2 ^ 52 <= Zpos m < 2 ^ 53
               /\ -52 <= e <= 1
               /\ Zpos m * 2 ^ (e + K) = Zpos p * 2 ^ K).
  { intros s p Hp.
    assert (Hd : 0 < Zpos (digits2_pos p) <= 53).
    { split; [lia|]. apply (digits2_pos_range p 0 53); [lia|].
      change (2 ^ 0) with 1. lia. }
    destruct (binary_round_scaled K s p 0)
      as (m & e & Heq & Hm & He & _ & _ & Hexact); try lia.
    exists m, e. split; [exact Heq|]. split; [exact Hm|].
    split; [lia|]. rewrite Hexact by lia. reflexivity. }
  destruct z as [|p|p]; simpl in Hz; [lia| |].
  - apply (Hgen false p). lia.
  - apply (Hgen true p). lia.
Qed.

(** The product of a normal number by a normal positive constant. *)
Lemma float_mul_scaled (s : bool) (mx mc : positive) (ex ec : Z) :
  2 ^ 52 <= Zpos mx < 2 ^ 53 -> 2 ^ 52 <= Zpos mc < 2 ^ 53 ->
  -900 <= ex + ec <= 900 -> 0 <= ex + ec + K ->
  exists (m' : positive) (e' j : Z),
    float_mul (S754_finite s mx ex) (S754_finite false mc ec)
    = S754_finite s m' e'
    /\ 2 ^ 52 <= Zpos m' < 2 ^ 53
    /\ ex + ec + 52 <= j <= e' /\ e' <= j + 1 /\ j <= ex + ec + 53
    /\ 2 * Z.abs (Zpos m' * 2 ^ (e' + K)
                  - Zpos mx * Zpos mc * 2 ^ (ex + ec + K))
       <= 2 ^ (j + K)
    /\ 2 ^ (j + K) * 2 ^ 52 <= Zpos mx * Zpos mc * 2 ^ (ex + ec + K)
       < 2 ^ (j + K) * 2 ^ 53.
Proof.
  intros Hmx Hmc HE HEK.
  unfold float_mul, SFmul. rewrite xorb_false_r.
  assert (Hd : 104 < Zpos (digits2_pos (mx * mc)) <= 106).
  { apply digits2_pos_range; [lia|]. rewrite Pos2Z.inj_mul.
    change (2 ^ 104) with (2 ^ 52 * 2 ^ 52).
    change (2 ^ 106) with (2 ^ 53 * 2 ^ 53). split.
    - apply Z.mul_le_mono_nonneg; lia.
    - apply Z.mul_lt_mono_nonneg; lia. }
  destruct (binary_round_aux_scaled K s (mx * mc) (ex + ec))
    as (m' & e' & Heq & Hm' & He' & Herr & HU); try lia.
  rewrite Pos2Z.inj_mul in Herr, HU.
  exists m', e', (Zpos (digits2_pos (mx * mc)) + (ex + ec) - 53).
  split; [exact Heq|]. split; [exact Hm'|].
  split; [lia|]. split; [lia|]. split; [lia|]. split; [exact Herr | exact HU].
Qed.

Lemma shl_align_fst (m : positive) (e ez : Z) :
  ez <= e -> Zpos (fst (shl_align m e ez)) = Zpos m * 2 ^ (e - ez).
Proof.
  intros Hle. unfold shl_align.
  destruct (ez - e) as [|k|k] eqn:Hk; simpl fst.
  - replace (e - ez) with 0 by lia. change (2 ^ 0) with 1. lia.
  - lia.
  - rewrite shl_align_pos. f_equal. f_equal. lia.
Qed.

Lemma aligned_scaled (m : positive) (e ez : Z) :
  ez <= e -> 0 <= ez + K ->
  Zpos (fst (shl_align m e ez)) * 2 ^ (ez + K) = Zpos m * 2 ^ (e + K).
Proof.
  intros Hle HK. rewrite shl_align_fst by trivial.
  replace (e + K) with ((e - ez) + (ez + K)) by lia.
  rewrite (pow2_split (e - ez) (ez + K)) by lia. ring.
Qed.

(** What [float_add] and [float_sub] round, for operands of one sign:
    a positive integer [P] at the smaller exponent. *)
Lemma round_sum_scaled (s : bool) (P : positive) (ez X : Z) :
  Zpos P * 2 ^ (ez + K) = X ->
  -900 <= ez <= 900 -> 0 <= ez - 53 + K -> X < 2 ^ (K + 900) ->
  exists (m' : positive) (e' j : Z),
    binary_round prec emax s P ez = S754_finite s m' e'
    /\ 2 ^ 52 <= Zpos m' < 2 ^ 53
    /\ ez - 52 <= j <= e' /\ e' <= j + 1
    /\ 2 * Z.abs (Zpos m' * 2 ^ (e' + K) - X) <= 2 ^ (j + K)
    /\ 2 ^ (j + K) * 2 ^ 52 <= X < 2 ^ (j + K) * 2 ^ 53.
Proof.
  intros HX Hez HK Hbig.
  destruct (digits2_pos_bounds P) as [HPlo HPhi].
  set (d := Zpos (digits2_pos P)) in *.
  assert (Hd0 : 0 < d) by (unfold d; lia).
  assert (HW : 0 < 2 ^ (ez + K)) by (apply pow2_pos; lia).
  assert (Hd : d + ez <= 901).
  { assert (H1 : 2 ^ (d - 1) * 2 ^ (ez + K) <= X).
    { rewrite <- HX. apply Z.mul_le_mono_nonneg_r; lia. }
    rewrite <- pow2_split in H1 by lia.
    assert (d - 1 + (ez + K) < K + 900) by (apply pow2_lt_exp; lia).
    lia. }
  destruct (binary_round_scaled K s P ez)
    as (m' & e' & Heq & Hm' & He' & Herr & HU & _); fold d; try lia.
  fold d in He', Herr, HU. rewrite HX in Herr, HU.
  exists m', e', (d + ez - 53).
  split; [exact Heq|]. split; [exact Hm'|].
  split; [lia|]. split; [lia|]. split; [exact Herr | exact HU].
Qed.

Lemma float_add_scaled (s : bool) (mx my : positive) (ex ey : Z) :
  let X := Zpos mx * 2 ^ (ex + K) + Zpos my * 2 ^ (ey + K) in
  -900 <= ex <= 900 -> -900 <= ey <= 900 ->
  0 <= ex - 53 + K -> 0 <= ey - 53 + K -> X < 2 ^ (K + 900) ->
  exists (m' : positive) (e' j : Z),
    float_add (S754_finite s mx ex) (S754_finite s my ey)
    = S754_finite s m' e'
    /\ 2 ^ 52 <= Zpos m' < 2 ^ 53
    /\ Z.min ex ey - 52 <= j <= e' /\ e' <= j + 1
    /\ 2 * Z.abs (Zpos m' * 2 ^ (e' + K) - X) <= 2 ^ (j + K)
    /\ 2 ^ (j + K) * 2 ^ 52 <= X < 2 ^ (j + K) * 2 ^ 53.
Proof.
  intros X Hex Hey HexK HeyK Hbig.
  unfold float_add, SFadd.
  set (ez := Z.min ex ey).
  set (A := fst (shl_align mx ex ez)). set (B := fst (shl_align my ey ez)).
  assert (HA : Zpos A * 2 ^ (ez + K) = Zpos mx * 2 ^ (ex + K))
    by (apply aligned_scaled; unfold ez; lia).
  assert (HB : Zpos B * 2 ^ (ez + K) = Zpos my * 2 ^ (ey + K))
    by (apply aligned_scaled; unfold ez; lia).
  assert (Hsum : cond_Zopp s (Zpos A) + cond_Zopp s (Zpos B)
                 = cond_Zopp s (Zpos (A + B)))
    by (destruct s; simpl; reflexivity).
  rewrite Hsum.
  assert (Hnorm : binary_normalize prec emax (cond_Zopp s (Zpos (A + B))) ez false
                  = binary_round prec emax s (A + B) ez)
    by (destruct s; reflexivity).
  rewrite Hnorm.
  apply round_sum_scaled; try (unfold ez; lia).
  rewrite Pos2Z.inj_add, Z.mul_add_distr_r, HA, HB. reflexivity.
Qed.

Lemma float_sub_scaled (s : bool) (mx my : positive) (ex ey : Z) :
  let X := Zpos mx * 2 ^ (ex + K) - Zpos my * 2 ^ (ey + K) in
  -900 <= ex <= 900 -> -900 <= ey <= 900 ->
  0 <= ex - 53 + K -> 0 <= ey - 53 + K ->
  0 < X -> X < 2 ^ (K + 900) ->
  exists (m' : positive) (e' j : Z),
    float_sub (S754_finite s mx ex) (S754_finite s my ey)
    = S754_finite s m' e'
    /\ 2 ^ 52 <= Zpos m' < 2 ^ 53
    /\ Z.min ex ey - 52 <= j <= e' /\ e' <= j + 1
    /\ 2 * Z.abs (Zpos m' * 2 ^ (e' + K) - X) <= 2 ^ (j + K)
    /\ 2 ^ (j + K) * 2 ^ 52 <= X < 2 ^ (j + K) * 2 ^ 53.
Proof.
  intros X Hex Hey HexK HeyK Hpos Hbig.
  unfold float_sub, SFsub.
  set (ez := Z.min ex ey).
  set (A := fst (shl_align mx ex ez)). set (B := fst (shl_align my ey ez)).
  assert (HA : Zpos A * 2 ^ (ez + K) = Zpos mx * 2 ^ (ex + K))
    by (apply aligned_scaled; unfold ez; lia).
  assert (HB : Zpos B * 2 ^ (ez + K) = Zpos my * 2 ^ (ey + K))
    by (apply aligned_scaled; unfold ez; lia).
  assert (HW : 0 < 2 ^ (ez + K)) by (apply pow2_pos; unfold ez; lia).
  assert (HAB : Zpos B < Zpos A).
  { apply (Z.mul_lt_mono_pos_r (2 ^ (ez + K))); [exact HW|].
    rewrite HA, HB. unfold X in Hpos. lia. }
  destruct (Zpos A - Zpos B) as [|P|P] eqn:HP; [lia| |lia].
  assert (Hdiff : cond_Zopp s (Zpos A) - cond_Zopp s (Zpos B)
                  = cond_Zopp s (Zpos P))
    by (destruct s; simpl cond_Zopp; lia).
  rewrite Hdiff.
  assert (Hnorm : binary_normalize prec emax (cond_Zopp s (Zpos P)) ez false
                  = binary_round prec emax s P ez)
    by (destruct s; reflexivity).
  rewrite Hnorm.
  apply round_sum_scaled; try (unfold ez; lia).
  rewrite <- HP, Z.mul_sub_distr_r, HA, HB. reflexivity.
Qed.

(** Comparing an integer with a finite [float], in scaled form. *)
Lemma int_compare_float_scaled (n : Z) (s : bool) (m : positive) (e : Z) :
  0 <= e + K -> 0 <= K ->
  int_compare_float n (S754_finite s m e)
  = Some (Z.compare (n * 2 ^ K) (cond_Zopp s (Zpos m * 2 ^ (e + K)))).
Proof.
  intros HeK HK. unfold int_compare_float. f_equal.
  assert (Hopp : cond_Zopp s (Zpos m * 2 ^ (e + K))
                 = cond_Zopp s (Zpos m) * 2 ^ (e + K))
    by (destruct s; cbn [cond_Zopp];
        [symmetry; apply Z.mul_opp_l | reflexivity]).
  rewrite Hopp.
  destruct (Z.leb_spec 0 e) as [He|He].
  - rewrite (pow2_split e K) by lia.
    rewrite Z.mul_assoc.
    apply Zmult_compare_compat_r. apply Z.lt_gt. now apply pow2_pos.
  - replace (2 ^ K) with (2 ^ (- e) * 2 ^ (e + K))
      by (rewrite <- pow2_split by lia; f_equal; lia).
    rewrite Z.mul_assoc.
    apply Zmult_compare_compat_r. apply Z.lt_gt. now apply pow2_pos.
Qed.

End Operations.

Section Thresholds.

(** A value [V] on the grid of step [U] within half a step of [X] is the
    grid point [T] when [T] is strictly within half a step of [X]. *)
Lemma grid_nearest (U V T X : Z) :
  0 < U -> (U | V) -> (U | T) ->
  2 * Z.abs (V - X) <= U -> 2 * Z.abs (T - X) < U -> V = T.
Proof.
  intros HU [v ->] [t ->] HV HT.
  assert (Hvt : Z.abs ((v - t) * U) < 1 * U) by lia.
  rewrite Z.abs_mul, (Z.abs_eq U) in Hvt by lia.
  apply Z.mul_lt_mono_pos_r in Hvt; [|exact HU].
  f_equal. lia.
Qed.

Lemma pow2_divide (i j : Z) : 0 <= i <= j -> (2 ^ i | 2 ^ j).
Proof.
  intros Hij. exists (2 ^ (j - i)).
  rewrite <- pow2_split by lia. f_equal. lia.
Qed.

(** The result [m * 2 ^ e] of a rounding described by the lemmas of the
    previous section is the integer [t] when [t] is close enough to the
    rounded quantity [X]; everything is scaled by [2 ^ K]. *)
Lemma round_to_integer (K j e : Z) (m : positive) (X t : Z) :
  0 <= j + K -> j <= e ->
  2 * Z.abs (Zpos m * 2 ^ (e + K) - X) <= 2 ^ (j + K) ->
  2 ^ (j + K) * 2 ^ 52 <= X -> X < 2 ^ (K + 52) ->
  2 * Z.abs (t * 2 ^ K - X) < 2 ^ (j + K) ->
  Zpos m * 2 ^ (e + K) = t * 2 ^ K.
Proof.
  intros HjK Hje Herr HU HX Ht.
  assert (HK : 0 <= K).
  { destruct (Z_lt_le_dec K 0) as [Hneg|]; trivial.
    assert (H0 : 0 < 2 ^ (j + K)) by now apply pow2_pos.
    assert (H1 : 0 < 2 ^ 52) by reflexivity.
    assert (H2 : 0 < 2 ^ (j + K) * 2 ^ 52) by now apply Z.mul_pos_pos.
    destruct (Z_lt_le_dec (K + 52) 0) as [Hn|Hp].
    - rewrite Z.pow_neg_r in HX by lia. lia.
    - assert (j + K + 52 < K + 52).
      { apply pow2_lt_exp; [lia|]. rewrite pow2_split by lia. lia. }
      lia. }
  assert (Hj : j < 0).
  { assert (j + K + 52 < K + 52).
    { apply pow2_lt_exp; [lia|]. rewrite pow2_split by lia. lia. }
    lia. }
  apply (grid_nearest (2 ^ (j + K)) _ _ X); trivial.
  - now apply pow2_pos.
  - apply Z.divide_mul_r, pow2_divide. lia.
  - apply Z.divide_mul_r, pow2_divide. lia.
Qed.

(** [n * W] against [V] is [den * n] against [num], when [den * V] is
    [num * W] or is less than [W] away from it and [den] does not divide
    [num]. *)
Lemma compare_threshold (W V den num n : Z) :
  0 < W -> 0 < den ->
  den * V = num * W
  \/ (~ (den | num) /\ Z.abs (den * V - num * W) < W) ->
  Z.compare (n * W) V = Z.compare (den * n) num.
Proof.
  intros HW Hden Hcases.
  rewrite (Zmult_compare_compat_l (n * W) V den) by lia.
  destruct Hcases as [Hex|[Hndiv Hnear]].
  - rewrite Hex, Z.mul_assoc.
    symmetry. apply Zmult_compare_compat_r. lia.
  - destruct (Z.compare_spec (den * n) num) as [Heq|Hlt|Hgt].
    + exfalso. apply Hndiv. exists n. lia.
    + apply Z.compare_lt_iff.
      assert (H1 : (den * n + 1) * W <= num * W)
        by (apply Z.mul_le_mono_nonneg_r; lia).
      lia.
    + apply Z.compare_gt_iff.
      assert (H1 : (num + 1) * W <= den * n * W)
        by (apply Z.mul_le_mono_nonneg_r; lia).
      lia.
Qed.

Lemma compare_threshold_signed (s : bool) (W V den num n : Z) :
  0 < W -> 0 < den ->
  den * V = num * W
  \/ (~ (den | num) /\ Z.abs (den * V - num * W) < W) ->
  Z.compare (n * W) (cond_Zopp s V)
  = Z.compare (den * n) (cond_Zopp s num).
Proof.
  intros HW Hden Hcases. destruct s; cbn [cond_Zopp].
  - rewrite <- (Z.opp_involutive (n * W)), Z.compare_opp.
    rewrite <- (Z.opp_involutive (den * n)), (Z.compare_opp _ num).
    rewrite (Z.compare_antisym _ V), (Z.compare_antisym _ num).
    f_equal.
    replace (- (n * W)) with (- n * W) by ring.
    replace (- (den * n)) with (den * - n) by ring.
    now apply compare_threshold.
  - now apply compare_threshold.
Qed.

(** The error of [(a * 0.01) + a] when 100 does not divide [a]: [t] is
    [a * 2 ^ (K - 59)] and [W] is [2 ^ (K - 59)]; [Up] and [Ux] are the
    units in the last place of the product and of the sum. *)
Lemma confident_near (t W Vp Vx Up Ux : Z) :
  0 < W -> 0 < t <= 139000000000000 * W ->
  2 * Z.abs (Vp - 5764607523034235 * t) <= Up ->
  Up * 2 ^ 52 <= 5764607523034235 * t ->
  2 * Z.abs (Vx - (Vp + 2 ^ 59 * t)) <= Ux ->
  Ux <= 2 ^ 53 * W ->
  Z.abs (100 * Vx - 101 * (2 ^ 59 * t)) < 2 ^ 59 * W.
Proof.
  change (2 ^ 52) with 4503599627370496.
  change (2 ^ 53) with 9007199254740992.
  change (2 ^ 59) with 576460752303423488.
  lia.
Qed.

(** The error of [a - (a * 0.05)] when 20 does not divide [a]: [t] is
    [a * 2 ^ (K - 57)] and [W] is [2 ^ (K - 57)]. *)
Lemma min_tiles_near (t W Vp Vx Up Ux : Z) :
  0 < W -> 0 < t <= 592000000000000 * W ->
  2 * Z.abs (Vp - 7205759403792794 * t) <= Up ->
  Up * 2 ^ 52 <= 7205759403792794 * t ->
  2 * Z.abs (Vx - (2 ^ 57 * t - Vp)) <= Ux ->
  Ux <= 2 ^ 53 * W ->
  Z.abs (20 * Vx - 19 * (2 ^ 57 * t)) < 2 ^ 57 * W.
Proof.
  change (2 ^ 52) with 4503599627370496.
  change (2 ^ 53) with 9007199254740992.
  change (2 ^ 57) with 144115188075855872.
  lia.
Qed.

(** A unit in the last place [2 ^ i] with [2 ^ i * 2 ^ 52 <= X] is at
    most [2 ^ (h - 53)] when [X < 2 ^ h]. *)
Lemma ulp_le (i h X : Z) :
  0 <= i -> 53 <= h ->
  2 ^ i * 2 ^ 52 <= X -> X < 2 ^ h -> 2 ^ i <= 2 ^ (h - 53).
Proof.
  intros Hi Hh Hlo Hhi.
  assert (Hlt : i + 52 < h).
  { apply pow2_lt_exp; [lia|]. rewrite (pow2_split i 52) by lia. lia. }
  apply pow2_le. lia.
Qed.

End Thresholds.

Section ConfidentBound.

Lemma abs_cond_Zopp (s : bool) (a : Z) : 0 <= a -> Z.abs (cond_Zopp s a) = a.
Proof. intros Ha. destruct s; cbn [cond_Zopp]; lia. Qed.

Lemma sign_cond_Zopp (s : bool) (a : Z) : 0 < a -> (cond_Zopp s a <? 0) = s.
Proof.
  intros Ha. destruct s; cbn [cond_Zopp].
  - apply Z.ltb_lt. lia.
  - apply Z.ltb_ge. lia.
Qed.

Lemma float_of_int_normal (K : Z) (s : bool) (a : Z) :
  0 < a < 2 ^ 53 -> 52 <= K ->
  exists (m : positive) (e : Z),
    float_of_int (cond_Zopp s a) = Return (S754_finite s m e)
    /\ 2 ^ 52 <= Zpos m < 2 ^ 53
    /\ -52 <= e <= 1
    /\ Zpos m * 2 ^ (e + K) = a * 2 ^ K.
Proof.
  intros Ha HK.
  destruct (binary_normalize_exact K (cond_Zopp s a))
    as (m & e & Heq & Hm & He & Hv); [rewrite abs_cond_Zopp; lia | lia |].
  rewrite abs_cond_Zopp in Hv by lia.
  rewrite sign_cond_Zopp in Heq by lia.
  exists m, e. unfold float_of_int. rewrite Heq. auto.
Qed.

(** [(e * 0.01) + e] for a non-zero [e] of sign [s] and magnitude [a]. *)
Lemma confident_bound_nonzero (s : bool) (a : Z) :
  let K := 128 in
  0 < a <= 139000000000000 ->
  exists (mx : positive) (ex : Z),
    (p <- int_mul_float (cond_Zopp s a) lit_0_01 ;;
     float_add_int p (cond_Zopp s a))
    = Return (S754_finite s mx ex)
    /\ 0 <= ex + K
    /\ (100 * (Zpos mx * 2 ^ (ex + K)) = 101 * a * 2 ^ K
        \/ (~ (100 | 101 * a)
            /\ Z.abs (100 * (Zpos mx * 2 ^ (ex + K)) - 101 * a * 2 ^ K)
               < 2 ^ K)).
Proof.
  intros K0 Ha.
  assert (HK : 128 <= K0) by (unfold K0; lia).
  generalize dependent K0. intros K HK.
  assert (Ha53 : 0 < a < 2 ^ 53).
  { split; [lia|]. apply Z.le_lt_trans with 139000000000000; [lia | reflexivity]. }
  destruct (float_of_int_normal K s a Ha53) as (mz & ez & Hfe & Hmz & Hez & Hvz);
    [lia|].
  unfold int_mul_float, float_add_int. rewrite Hfe. cbn [bind].
  unfold lit_0_01.
  destruct (float_mul_scaled K s mz 5764607523034235 ez (-59))
    as (mp & ep & jp & Hp & Hmp & Hjp1 & Hjp2 & Hjp3 & Herrp & HUp);
    [exact Hmz | split; [apply Z.leb_le | apply Z.ltb_lt]; reflexivity | lia | lia |].
  rewrite Hp.
  (* everything in units of W = 2 ^ (K - 59) *)
  set (W := 2 ^ (K - 59)) in *.
  assert (HW : 0 < W) by (apply pow2_pos; lia).
  assert (HKW : 2 ^ K = 2 ^ 59 * W).
  { unfold W. rewrite <- pow2_split by lia. f_equal. lia. }
  set (t := a * W).
  assert (Ht : 0 < t <= 139000000000000 * W).
  { unfold t. split; [apply Z.mul_pos_pos; lia|].
    apply Z.mul_le_mono_nonneg_r; lia. }
  assert (Hvz' : Zpos mz * 2 ^ (ez + -59 + K) = t).
  { apply (Z.mul_reg_r _ _ (2 ^ 59)); [discriminate|].
    rewrite <- Z.mul_assoc, <- pow2_split by lia.
    replace (ez + -59 + K + 59) with (ez + K) by lia.
    rewrite Hvz, HKW. unfold t. ring. }
  assert (HXp : Zpos mz * 5764607523034235 * 2 ^ (ez + -59 + K)
                = 5764607523034235 * t).
  { rewrite <- Hvz'. ring. }
  rewrite HXp in Herrp, HUp.
  set (Vp := Zpos mp * 2 ^ (ep + K)) in *.
  set (Up := 2 ^ (jp + K)) in *.
  assert (HUp0 : 0 < Up) by (apply pow2_pos; lia).
  assert (HVz : Zpos mz * 2 ^ (ez + K) = 2 ^ 59 * t).
  { rewrite Hvz, HKW. unfold t. ring. }
  assert (HX47 : Vp + Zpos mz * 2 ^ (ez + K) < 2 ^ (K + 47)).
  { replace (K + 47) with (106 + (K - 59)) by lia.
    rewrite (pow2_split 106 (K - 59)) by lia. fold W. rewrite HVz.
    change (2 ^ 52) with 4503599627370496 in HUp.
    change (2 ^ 59) with 576460752303423488.
    change (2 ^ 106) with 81129638414606681695789005144064.
    lia. }
  assert (HX900 : Vp + Zpos mz * 2 ^ (ez + K) < 2 ^ (K + 900)).
  { apply Z.lt_le_trans with (2 ^ (K + 47)); [exact HX47|].
    apply pow2_le; lia. }
  destruct (float_add_scaled K s mp mz ep ez)
    as (mx & ex & jx & Hx & Hmx & Hjx1 & Hjx2 & Herrx & HUx);
    [lia | lia | lia | lia | exact HX900 |].
  rewrite Hx.
  fold Vp in Herrx, HUx. rewrite HVz in Herrx, HUx.
  set (Vx := Zpos mx * 2 ^ (ex + K)) in *.
  set (Ux := 2 ^ (jx + K)) in *.
  assert (HUx53 : Ux <= 2 ^ 53 * W).
  { unfold W. rewrite <- pow2_split by lia.
    replace (53 + (K - 59)) with (K + 47 - 53) by lia.
    apply (ulp_le (jx + K) (K + 47) (Vp + 2 ^ 59 * t));
      [lia | lia | apply HUx | rewrite <- HVz; exact HX47]. }
  exists mx, ex. split; [reflexivity|]. split; [lia|].
  fold Vx. rewrite <- Z.mul_assoc, HKW.
  replace (a * (2 ^ 59 * W)) with (2 ^ 59 * t) by (unfold t; ring).
  destruct (Z.eq_dec (a mod 100) 0) as [Hdiv|Hndiv].
  - (* 100 divides a: both roundings are exact *)
    left.
    apply Z.mod_divide in Hdiv; [|discriminate].
    destruct Hdiv as [k Hk].
    assert (Hk0 : 0 < k <= 2 ^ 41).
    { change (2 ^ 41) with 2199023255552. lia. }
    set (u := k * W).
    assert (Hu : 0 < u <= 2 ^ 41 * W).
    { unfold u. split; [apply Z.mul_pos_pos; lia|].
      apply Z.mul_le_mono_nonneg_r; lia. }
    assert (Htu : t = 100 * u) by (unfold t, u; rewrite Hk; ring).
    assert (HVp : Vp = k * 2 ^ K).
    { unfold Vp.
      apply (round_to_integer K jp ep mp (5764607523034235 * t) k).
      - lia.
      - lia.
      - exact Herrp.
      - apply HUp.
      - replace (K + 52) with (111 + (K - 59)) by lia.
        rewrite (pow2_split 111 (K - 59)) by lia. fold W.
        change (2 ^ 41) with 2199023255552 in Hu.
        change (2 ^ 111) with 2596148429267413814265248164610048.
        lia.
      - fold Up. rewrite HKW.
        replace (k * (2 ^ 59 * W)) with (2 ^ 59 * u) by (unfold u; ring).
        change (2 ^ 53) with 9007199254740992 in HUp.
        change (2 ^ 59) with 576460752303423488.
        lia. }
    assert (HVx : Vx = (101 * k) * 2 ^ K).
    { unfold Vx.
      apply (round_to_integer K jx ex mx (Vp + 2 ^ 59 * t) (101 * k)).
      - lia.
      - lia.
      - exact Herrx.
      - apply HUx.
      - rewrite HVp, HKW.
        replace (K + 52) with (111 + (K - 59)) by lia.
        rewrite (pow2_split 111 (K - 59)) by lia. fold W.
        replace (k * (2 ^ 59 * W)) with (2 ^ 59 * u) by (unfold u; ring).
        change (2 ^ 41) with 2199023255552 in Hu.
        change (2 ^ 59) with 576460752303423488.
        change (2 ^ 111) with 2596148429267413814265248164610048.
        lia.
      - assert (HUx0 : 0 < Ux) by (apply pow2_pos; lia).
        fold Ux. rewrite HVp, HKW, Htu.
        replace (101 * k * (2 ^ 59 * W)
                 - (k * (2 ^ 59 * W) + 2 ^ 59 * (100 * u)))
          with 0 by (unfold u; ring).
        simpl Z.abs. lia. }
    rewrite HVx, HKW, Htu. unfold u. ring.
  - (* otherwise the bound stays strictly between two integers *)
    right. split.
    + intros [c Hc]. apply Hndiv. apply Z.mod_divide; [discriminate|].
      exists (c - a). lia.
    + apply (confident_near t W Vp Vx Up Ux); try assumption; tauto.
Qed.

End ConfidentBound.

Section MinTilesBound.

(** [e - (e * 0.05)] for a non-zero [e] of sign [s] and magnitude [a]. *)
Lemma min_tiles_bound_nonzero (s : bool) (a : Z) :
  let K := 128 in
  0 < a <= 592000000000000 ->
  exists (mx : positive) (ex : Z),
    (p <- int_mul_float (cond_Zopp s a) lit_0_05 ;;
     int_sub_float (cond_Zopp s a) p)
    = Return (S754_finite s mx ex)
    /\ 0 <= ex + K
    /\ (20 * (Zpos mx * 2 ^ (ex + K)) = 19 * a * 2 ^ K
        \/ (~ (20 | 19 * a)
            /\ Z.abs (20 * (Zpos mx * 2 ^ (ex + K)) - 19 * a * 2 ^ K)
               < 2 ^ K)).
Proof.
  intros K0 Ha.
  assert (HK : 128 <= K0) by (unfold K0; lia).
  generalize dependent K0. intros K HK.
  assert (Ha53 : 0 < a < 2 ^ 53).
  { split; [lia|]. apply Z.le_lt_trans with 592000000000000; [lia | reflexivity]. }
  destruct (float_of_int_normal K s a Ha53) as (mz & ez & Hfe & Hmz & Hez & Hvz);
    [lia|].
  unfold int_mul_float, int_sub_float. rewrite Hfe. cbn [bind].
  unfold lit_0_05.
  destruct (float_mul_scaled K s mz 7205759403792794 ez (-57))
    as (mp & ep & jp & Hp & Hmp & Hjp1 & Hjp2 & Hjp3 & Herrp & HUp);
    [exact Hmz | split; [apply Z.leb_le | apply Z.ltb_lt]; reflexivity
     | lia | lia |].
  rewrite Hp.
  (* everything in units of W = 2 ^ (K - 57) *)
  set (W := 2 ^ (K - 57)) in *.
  assert (HW : 0 < W) by (apply pow2_pos; lia).
  assert (HKW : 2 ^ K = 2 ^ 57 * W).
  { unfold W. rewrite <- pow2_split by lia. f_equal. lia. }
  set (t := a * W).
  assert (Ht : 0 < t <= 592000000000000 * W).
  { unfold t. split; [apply Z.mul_pos_pos; lia|].
    apply Z.mul_le_mono_nonneg_r; lia. }
  assert (Hvz' : Zpos mz * 2 ^ (ez + -57 + K) = t).
  { apply (Z.mul_reg_r _ _ (2 ^ 57)); [discriminate|].
    rewrite <- Z.mul_assoc, <- pow2_split by lia.
    replace (ez + -57 + K + 57) with (ez + K) by lia.
    rewrite Hvz, HKW. unfold t. ring. }
  assert (HXp : Zpos mz * 7205759403792794 * 2 ^ (ez + -57 + K)
                = 7205759403792794 * t).
  { rewrite <- Hvz'. ring. }
  rewrite HXp in Herrp, HUp.
  set (Vp := Zpos mp * 2 ^ (ep + K)) in *.
  set (Up := 2 ^ (jp + K)) in *.
  assert (HUp0 : 0 < Up) by (apply pow2_pos; lia).
  assert (HVz : Zpos mz * 2 ^ (ez + K) = 2 ^ 57 * t).
  { rewrite Hvz, HKW. unfold t. ring. }
  assert (HXpos : 0 < Zpos mz * 2 ^ (ez + K) - Vp).
  { rewrite HVz.
    change (2 ^ 52) with 4503599627370496 in HUp.
    change (2 ^ 57) with 144115188075855872.
    lia. }
  assert (HX49 : Zpos mz * 2 ^ (ez + K) - Vp < 2 ^ (K + 49)).
  { replace (K + 49) with (106 + (K - 57)) by lia.
    rewrite (pow2_split 106 (K - 57)) by lia. fold W. rewrite HVz.
    change (2 ^ 52) with 4503599627370496 in HUp.
    change (2 ^ 57) with 144115188075855872.
    change (2 ^ 106) with 81129638414606681695789005144064.
    lia. }
  assert (HX900 : Zpos mz * 2 ^ (ez + K) - Vp < 2 ^ (K + 900)).
  { apply Z.lt_le_trans with (2 ^ (K + 49)); [exact HX49|].
    apply pow2_le; lia. }
  destruct (float_sub_scaled K s mz mp ez ep)
    as (mx & ex & jx & Hx & Hmx & Hjx1 & Hjx2 & Herrx & HUx);
    [lia | lia | lia | lia | exact HXpos | exact HX900 |].
  rewrite Hx.
  fold Vp in Herrx, HUx. rewrite HVz in Herrx, HUx.
  set (Vx := Zpos mx * 2 ^ (ex + K)) in *.
  set (Ux := 2 ^ (jx + K)) in *.
  assert (HUx53 : Ux <= 2 ^ 53 * W).
  { unfold W. rewrite <- pow2_split by lia.
    replace (53 + (K - 57)) with (K + 49 - 53) by lia.
    apply (ulp_le (jx + K) (K + 49) (2 ^ 57 * t - Vp));
      [lia | lia | apply HUx | rewrite <- HVz; exact HX49]. }
  exists mx, ex. split; [reflexivity|]. split; [lia|].
  fold Vx. rewrite <- Z.mul_assoc, HKW.
  replace (a * (2 ^ 57 * W)) with (2 ^ 57 * t) by (unfold t; ring).
  destruct (Z.eq_dec (a mod 20) 0) as [Hdiv|Hndiv].
  - (* 20 divides a: both roundings are exact *)
    left.
    apply Z.mod_divide in Hdiv; [|discriminate].
    destruct Hdiv as [k Hk].
    assert (Hk0 : 0 < k <= 2 ^ 45).
    { change (2 ^ 45) with 35184372088832. lia. }
    set (u := k * W).
    assert (Hu : 0 < u <= 2 ^ 45 * W).
    { unfold u. split; [apply Z.mul_pos_pos; lia|].
      apply Z.mul_le_mono_nonneg_r; lia. }
    assert (Htu : t = 20 * u) by (unfold t, u; rewrite Hk; ring).
    assert (HVp : Vp = k * 2 ^ K).
    { unfold Vp.
      apply (round_to_integer K jp ep mp (7205759403792794 * t) k).
      - lia.
      - lia.
      - exact Herrp.
      - apply HUp.
      - replace (K + 52) with (109 + (K - 57)) by lia.
        rewrite (pow2_split 109 (K - 57)) by lia. fold W.
        change (2 ^ 45) with 35184372088832 in Hu.
        change (2 ^ 109) with 649037107316853453566312041152512.
        lia.
      - fold Up. rewrite HKW.
        replace (k * (2 ^ 57 * W)) with (2 ^ 57 * u) by (unfold u; ring).
        change (2 ^ 53) with 9007199254740992 in HUp.
        change (2 ^ 57) with 144115188075855872.
        lia. }
    assert (HVx : Vx = (19 * k) * 2 ^ K).
    { unfold Vx.
      apply (round_to_integer K jx ex mx (2 ^ 57 * t - Vp) (19 * k)).
      - lia.
      - lia.
      - exact Herrx.
      - apply HUx.
      - rewrite HVp, HKW.
        replace (K + 52) with (109 + (K - 57)) by lia.
        rewrite (pow2_split 109 (K - 57)) by lia. fold W.
        replace (k * (2 ^ 57 * W)) with (2 ^ 57 * u) by (unfold u; ring).
        change (2 ^ 45) with 35184372088832 in Hu.
        change (2 ^ 57) with 144115188075855872.
        change (2 ^ 109) with 649037107316853453566312041152512.
        lia.
      - assert (HUx0 : 0 < Ux) by (apply pow2_pos; lia).
        fold Ux. rewrite HVp, HKW, Htu.
        replace (19 * k * (2 ^ 57 * W)
                 - (2 ^ 57 * (20 * u) - k * (2 ^ 57 * W)))
          with 0 by (unfold u; ring).
        simpl Z.abs. lia. }
    rewrite HVx, HKW, Htu. unfold u. ring.
  - (* otherwise the bound stays strictly between two integers *)
    right. split.
    + intros [c Hc]. apply Hndiv. apply Z.mod_divide; [discriminate|].
      exists (a - c). lia.
    + apply (min_tiles_near t W Vp Vx Up Ux); try assumption; tauto.
Qed.

End MinTilesBound.

Section Bounds.

Lemma signed_magnitude (e : Z) :
  e <> 0 -> e = cond_Zopp (e <? 0) (Z.abs e) /\ 0 < Z.abs e.
Proof.
  intros He. destruct (Z.ltb_spec e 0); cbn [cond_Zopp]; lia.
Qed.

Lemma cond_Zopp_mul (s : bool) (c a : Z) :
  cond_Zopp s (c * a) = c * cond_Zopp s a.
Proof. destruct s; cbn [cond_Zopp]; ring. Qed.

(** The right-hand side of the comparison in
    [check_is_confident_subtype]: for [|e| <= 139 * 10 ^ 12] it is a finite
    number, and an integer [n] compares with it as [100 * n] compares
    with [101 * e]. *)
Lemma confident_bound (e : Z) :
  Z.abs e <= 139000000000000 ->
  exists bound : float,
    (p <- int_mul_float e lit_0_01 ;; float_add_int p e) = Return bound
    /\ forall n, int_compare_float n bound
                 = Some (Z.compare (100 * n) (101 * e)).
Proof.
  intros He. destruct (Z.eq_dec e 0) as [->|Hnz].
  - exists (S754_zero false). split; [reflexivity|].
    intros n. cbn [int_compare_float]. f_equal.
    change (101 * 0) with (100 * 0). symmetry.
    apply (Zcompare_mult_compat 100).
  - destruct (signed_magnitude e Hnz) as [Hsm Hpos].
    set (s := e <? 0) in *. set (a := Z.abs e) in *.
    destruct (confident_bound_nonzero s a) as (mx & ex & Heq & HexK & Hcases);
      [lia|].
    exists (S754_finite s mx ex). rewrite Hsm. split; [exact Heq|].
    intros n. rewrite (int_compare_float_scaled 128) by lia. f_equal.
    rewrite <- cond_Zopp_mul.
    apply compare_threshold_signed; [reflexivity | reflexivity |].
    exact Hcases.
Qed.

(** The right-hand side of the comparison in [check_min_tiles_reached]:
    for [|e| <= 592 * 10 ^ 12] an integer [n] compares with it as [20 * n]
    compares with [19 * e]. *)
Lemma min_tiles_bound (e : Z) :
  Z.abs e <= 592000000000000 ->
  exists bound : float,
    (p <- int_mul_float e lit_0_05 ;; int_sub_float e p) = Return bound
    /\ forall n, int_compare_float n bound
                 = Some (Z.compare (20 * n) (19 * e)).
Proof.
  intros He. destruct (Z.eq_dec e 0) as [->|Hnz].
  - exists (S754_zero false). split; [reflexivity|].
    intros n. cbn [int_compare_float]. f_equal.
    change (19 * 0) with (20 * 0). symmetry.
    apply (Zcompare_mult_compat 20).
  - destruct (signed_magnitude e Hnz) as [Hsm Hpos].
    set (s := e <? 0) in *. set (a := Z.abs e) in *.
    destruct (min_tiles_bound_nonzero s a) as (mx & ex & Heq & HexK & Hcases);
      [lia|].
    exists (S754_finite s mx ex). rewrite Hsm. split; [exact Heq|].
    intros n. rewrite (int_compare_float_scaled 128) by lia. f_equal.
    rewrite <- cond_Zopp_mul.
    apply compare_threshold_signed; [reflexivity | reflexivity |].
    exact Hcases.
Qed.

End Bounds.

(* ===================================================================== *)
(** * The confidence and completeness checks *)
(* ===================================================================== *)

Section Checks.

Lemma bind_bind_return {A B C : Type} (m : result A) (f : A -> result B)
    (g : B -> result C) (b : B) :
  bind m f = Return b -> bind m (fun x => bind (f x) g) = g b.
Proof.
  destruct m as [a|e]; cbn [bind]; intros H; [|discriminate].
  now rewrite H.
Qed.

Lemma flagged_inconsistent_true (st : Subtype) :
  flagged_inconsistent st = true <->
  (are_subtypes_consistent st = Some false
   \/ exists k, inconsistent_subtypes st = Some k /\ 0 < k).
Proof.
  unfold flagged_inconsistent. rewrite orb_true_iff. split.
  - intros [H|H].
    + left. destruct (are_subtypes_consistent st) as [[|]|];
        try discriminate; reflexivity.
    + right. destruct (inconsistent_subtypes st) as [k|]; [|discriminate].
      exists k. split; [reflexivity | now apply Z.ltb_lt].
  - intros [H|(k & Hk & Hpos)].
    + left. now rewrite H.
    + right. rewrite Hk. now apply Z.ltb_lt.
Qed.

Lemma check_is_confident_flagged (st : Subtype) (expected : Z) :
  expected_tiles st = Return expected ->
  flagged_inconsistent st = true ->
  check_is_confident_subtype st = Return false.
Proof.
  intros Hexp Hflag. unfold check_is_confident_subtype.
  rewrite Hexp. cbn [bind]. now rewrite Hflag.
Qed.

Lemma check_is_confident_unflagged (st : Subtype) (expected : Z) :
  expected_tiles st = Return expected ->
  flagged_inconsistent st = false ->
  Z.abs expected <= 139000000000000 ->
  check_is_confident_subtype st
  = Return (negb (101 * expected <=? 100 * n_tiles_matching_all st)).
Proof.
  intros Hexp Hflag Hbound. unfold check_is_confident_subtype.
  rewrite Hexp. cbn [bind]. rewrite Hflag.
  destruct (confident_bound expected Hbound) as (bound & Hb & Hcmp).
  etransitivity; [apply (bind_bind_return _ _ _ bound Hb)|].
  unfold int_ge_float. rewrite Hcmp.
  destruct (Z.compare_spec (100 * n_tiles_matching_all st) (101 * expected));
    destruct (Z.leb_spec (101 * expected) (100 * n_tiles_matching_all st));
    try lia; reflexivity.
Qed.

Lemma check_min_tiles_bounded (st : Subtype) (expected : Z) :
  expected_tiles st = Return expected ->
  Z.abs expected <= 592000000000000 ->
  check_min_tiles_reached st
  = Return (negb (20 * n_tiles_matching_all st <=? 19 * expected)).
Proof.
  intros Hexp Hbound. unfold check_min_tiles_reached.
  rewrite Hexp. cbn [bind].
  destruct (min_tiles_bound expected Hbound) as (bound & Hb & Hcmp).
  etransitivity; [apply (bind_bind_return _ _ _ bound Hb)|].
  unfold int_le_float. rewrite Hcmp.
  destruct (Z.compare_spec (20 * n_tiles_matching_all st) (19 * expected));
    destruct (Z.leb_spec (20 * n_tiles_matching_all st) (19 * expected));
    try lia; reflexivity.
Qed.

(** The two literals are the binary64 numbers nearest to 1/100 and to
    1/20: no other mantissa at their exponent is closer. *)
Lemma lit_0_01_nearest (m : Z) :
  Z.abs (100 * 5764607523034235 - 2 ^ 59) <= Z.abs (100 * m - 2 ^ 59).
Proof. change (2 ^ 59) with 576460752303423488. lia. Qed.

Lemma lit_0_05_nearest (m : Z) :
  Z.abs (20 * 7205759403792794 - 2 ^ 57) <= Z.abs (20 * m - 2 ^ 57).
Proof. change (2 ^ 57) with 144115188075855872. lia. Qed.

(** An expected count that no binary64 number holds stops both checks
    with [OverflowError], unless the first test of
    [check_is_confident_subtype] already decides. *)
Lemma checks_overflow :
  expected_tiles st_overflow = Return (2 ^ 1024)
  /\ check_is_confident_subtype st_overflow = Raise OverflowError
  /\ check_min_tiles_reached st_overflow = Raise OverflowError.
Proof. repeat split; vm_compute; reflexivity. Qed.

End Checks.

(** C1 (amended).  Let the text before the first semicolon of
    [n_tiles_matching_all_expected] be the integer [expected].  If
    [are_subtypes_consistent] is [False], or [inconsistent_subtypes] is not
    [None] and is positive, [check_is_confident_subtype] returns [False].
    Otherwise, for [|expected| <= 139 * 10 ^ 12], it returns [False] when
    [n_tiles_matching_all >= expected + expected / 100], that is when
    [100 * n >= 101 * expected], and [True] when not. *)
Theorem C1_is_confident_bounded :
  forall (st : Subtype) (s first : string) (rest : list string) (expected : Z),
    n_tiles_matching_all_expected st = Some s ->
    str_split ";" s = first :: rest ->
    int_of_str first = Return expected ->
    let n := n_tiles_matching_all st in
    let inconsistent :=
      are_subtypes_consistent st = Some false
      \/ exists k, inconsistent_subtypes st = Some k /\ 0 < k in
    (inconsistent -> check_is_confident_subtype st = Return false)
    /\ (~ inconsistent -> Z.abs expected <= 139000000000000 ->
        (101 * expected <= 100 * n ->
         check_is_confident_subtype st = Return false)
        /\ (100 * n < 101 * expected ->
            check_is_confident_subtype st = Return true)).
Proof.
  intros st s first rest expected Hs Hsplit Hint n inconsistent.
  assert (Hexp : expected_tiles st = Return expected)
    by (rewrite (expected_tiles_some st s first rest Hs Hsplit); exact Hint).
  split.
  - intros Hinc. apply (check_is_confident_flagged st expected Hexp).
    now apply flagged_inconsistent_true.
  - intros Hcons Hbound.
    assert (Hflag : flagged_inconsistent st = false).
    { destruct (flagged_inconsistent st) eqn:Hf; trivial.
      exfalso. apply Hcons. now apply flagged_inconsistent_true. }
    rewrite (check_is_confident_unflagged st expected Hexp Hflag Hbound).
    fold n. split; intros Hn.
    + apply Z.leb_le in Hn. now rewrite Hn.
    + apply Z.leb_gt in Hn. now rewrite Hn.
Qed.

Lemma C1_witness :
  check_is_confident_subtype st_100_100 = Return true
  /\ check_is_confident_subtype st_101_100 = Return false
  /\ check_is_confident_subtype st_inconsistent = Return false.
Proof.
  split; [|split].
  - destruct (C1_is_confident_bounded st_100_100 "100;100" "100" ["100"] 100
                eq_refl eq_refl eq_refl) as [_ Hcons].
    destruct Hcons as [_ Htrue].
    + intros [H|(k & H & _)]; discriminate.
    + simpl. lia.
    + apply Htrue. simpl. lia.
  - destruct (C1_is_confident_bounded st_101_100 "100;100" "100" ["100"] 100
                eq_refl eq_refl eq_refl) as [_ Hcons].
    destruct Hcons as [Hfalse _].
    + intros [H|(k & H & _)]; discriminate.
    + simpl. lia.
    + apply Hfalse. simpl. lia.
  - destruct (C1_is_confident_bounded st_inconsistent "100;100" "100" ["100"]
                100 eq_refl eq_refl eq_refl) as [Hinc _].
    apply Hinc. left. reflexivity.
Defined.

(** C1 as stated fails beyond the amended range: with 139344047876601
    expected tiles and 140737488355367 matching ones the observed count is
    below [expected + expected / 100] and the subtype is consistent, yet
    the check returns [False], because the floating-point bound is rounded
    down to 140737488355367.0. *)
Lemma C1_counterexample :
  expected_tiles st_far_confident = Return 139344047876601
  /\ are_subtypes_consistent st_far_confident = Some true
  /\ inconsistent_subtypes st_far_confident = None
  /\ 100 * n_tiles_matching_all st_far_confident < 101 * 139344047876601
  /\ check_is_confident_subtype st_far_confident = Return false.
Proof. repeat split. Qed.

(** C2 (amended).  Let the text before the first semicolon of
    [n_tiles_matching_all_expected] be the integer [expected], with
    [|expected| <= 592 * 10 ^ 12].  [check_min_tiles_reached] returns
    [False] when [n_tiles_matching_all <= expected - expected / 20], that is
    when [20 * n <= 19 * expected], and [True] when not; with 100 expected
    tiles, 95 matching tiles give [False] and 96 give [True]. *)
Theorem C2_min_tiles_bounded :
  (forall (st : Subtype) (s first : string) (rest : list string)
          (expected : Z),
      n_tiles_matching_all_expected st = Some s ->
      str_split ";" s = first :: rest ->
      int_of_str first = Return expected ->
      Z.abs expected <= 592000000000000 ->
      let n := n_tiles_matching_all st in
      (20 * n <= 19 * expected -> check_min_tiles_reached st = Return false)
      /\ (19 * expected < 20 * n -> check_min_tiles_reached st = Return true))
  /\ check_min_tiles_reached st_95_100 = Return false
  /\ check_min_tiles_reached st_96_100 = Return true.
Proof.
  split; [|split; reflexivity].
  intros st s first rest expected Hs Hsplit Hint Hbound n.
  assert (Hexp : expected_tiles st = Return expected)
    by (rewrite (expected_tiles_some st s first rest Hs Hsplit); exact Hint).
  rewrite (check_min_tiles_bounded st expected Hexp Hbound).
  fold n. split; intros Hn.
  - apply Z.leb_le in Hn. now rewrite Hn.
  - apply Z.leb_gt in Hn. now rewrite Hn.
Qed.

Lemma C2_witness :
  check_min_tiles_reached st_95_100 = Return false
  /\ check_min_tiles_reached st_96_100 = Return true.
Proof.
  destruct C2_min_tiles_bounded as (Hall & _).
  split.
  - destruct (Hall st_95_100 "100" "100" [] 100 eq_refl eq_refl eq_refl)
      as [Hfalse _]; [simpl; lia|].
    apply Hfalse. simpl. lia.
  - destruct (Hall st_96_100 "100" "100" [] 100 eq_refl eq_refl eq_refl)
      as [_ Htrue]; [simpl; lia|].
    apply Htrue. simpl. lia.
Defined.

(** C2 as stated fails beyond the amended range: with 592578898338241
    expected tiles and 562949953421329 matching ones the observed count is
    above [expected - expected / 20], yet the check returns [False],
    because the floating-point bound is rounded up to 562949953421329.0. *)
Lemma C2_counterexample :
  expected_tiles st_far_min_tiles = Return 592578898338241
  /\ 19 * 592578898338241 < 20 * n_tiles_matching_all st_far_min_tiles
  /\ check_min_tiles_reached st_far_min_tiles = Return false.
Proof. repeat split. Qed.

(* ===================================================================== *)
(** * Properties of [genome_name_from_fasta_path] *)
(* ===================================================================== *)

Local Open Scope string_scope.

Section Basename.

Lemma str_append_assoc (a b c : string) : (a ++ b) ++ c = a ++ (b ++ c).
Proof. induction a as [|x a IH]; simpl; [reflexivity | now rewrite IH]. Qed.

Lemma str_append_nil_r (a : string) : a ++ "" = a.
Proof. induction a as [|x a IH]; simpl; [reflexivity | now rewrite IH]. Qed.

Lemma str_length_append (a b : string) :
  String.length (a ++ b) = (String.length a + String.length b)%nat.
Proof. induction a as [|x a IH]; simpl; [reflexivity | now rewrite IH]. Qed.

Lemma str_drop_append (a b : string) : str_drop (String.length a) (a ++ b) = b.
Proof. induction a as [|x a IH]; simpl; trivial. Qed.

Lemma rfind_cons_none (c x : ascii) (s : string) :
  rfind c (String x s) = None <-> Ascii.eqb x c = false /\ rfind c s = None.
Proof.
  simpl. destruct (rfind c s) as [i|]; destruct (Ascii.eqb x c);
    split; try discriminate; try tauto; intros [H1 H2]; discriminate.
Qed.

Lemma rfind_append_none (a b : string) :
  rfind "/" (a ++ b) = None <-> rfind "/" a = None /\ rfind "/" b = None.
Proof.
  induction a as [|x a IH].
  - simpl. tauto.
  - change (String x a ++ b) with (String x (a ++ b)).
    rewrite !rfind_cons_none, IH. tauto.
Qed.

(** With a last slash: the text after it.  [rfind] finds a slash whenever
    there is one. *)
Lemma rfind_last (a b : string) :
  rfind "/" b = None ->
  rfind "/" (a ++ String "/" b) = Some (String.length a).
Proof.
  intros Hb. induction a as [|x a IH]; simpl.
  - now rewrite Hb.
  - now rewrite IH.
Qed.

Lemma basename_after_slash (dir fn : string) :
  rfind "/" fn = None -> basename (dir ++ String "/" fn) = fn.
Proof.
  intros Hfn. unfold basename. rewrite (rfind_last dir fn Hfn).
  change (String "/" fn) with ("/" ++ fn).
  rewrite <- str_append_assoc.
  replace (S (String.length dir)) with (String.length (dir ++ "/"))
    by (rewrite str_length_append; simpl; lia).
  apply str_drop_append.
Qed.

Lemma basename_no_slash (p : string) :
  rfind "/" p = None -> basename p = p.
Proof. intros Hp. unfold basename. now rewrite Hp. Qed.

Lemma rfind_some_split (p : string) (i : nat) :
  rfind "/" p = Some i ->
  exists a b, p = a ++ String "/" b /\ rfind "/" b = None.
Proof.
  revert i. induction p as [|x p IH]; intros i; simpl; [discriminate|].
  destruct (rfind "/" p) as [j|] eqn:Hp.
  - intros _. destruct (IH j eq_refl) as (a & b & Hab & Hb).
    exists (String x a), b. simpl. now rewrite Hab.
  - destruct (Ascii.eqb_spec x "/") as [->|Hne]; [|discriminate].
    intros _. exists "", p. split; [reflexivity | exact Hp].
Qed.

(** The base name is the end of the path, and holds no slash. *)
Lemma basename_suffix (p : string) :
  exists dir, p = dir ++ basename p /\ rfind "/" (basename p) = None.
Proof.
  destruct (rfind "/" p) as [i|] eqn:Hp.
  - destruct (rfind_some_split p i Hp) as (a & b & Hab & Hb).
    exists (a ++ "/"). subst p. rewrite (basename_after_slash a b Hb).
    split; [|exact Hb]. now rewrite str_append_assoc.
  - exists "". rewrite (basename_no_slash p Hp). split; [reflexivity | exact Hp].
Qed.

End Basename.

Section ExtensionPattern.

Local Arguments is_word : simpl never.
Local Arguments at_end : simpl never.

Lemma is_word_not_newline (c : ascii) :
  is_word c = true -> Ascii.eqb c "010" = false.
Proof.
  intros Hw. destruct (Ascii.eqb_spec c "010") as [->|]; trivial.
  discriminate.
Qed.

Lemma at_end_cases (s : string) :
  at_end s = true <-> is_line_end s.
Proof.
  unfold is_line_end, at_end. destruct s as [|c [|c' s]].
  - split; auto.
  - destruct (Ascii.eqb_spec c "010") as [->|Hne].
    + split; auto.
    + split; [discriminate|]. intros [H|H]; [discriminate | congruence].
  - split; [discriminate|]. intros [H|H]; discriminate.
Qed.

(** What follows the longest run of word characters does not start with
    one; the run and the rest make up the text. *)
Lemma span_word_spec (s : string) :
  s = fst (span_word s) ++ snd (span_word s)
  /\ all_word (fst (span_word s)) = true
  /\ match snd (span_word s) with
     | String c _ => is_word c = false
     | EmptyString => True
     end.
Proof.
  induction s as [|c s (Hs & Hw & Hrest)]; simpl.
  - auto.
  - destruct (is_word c) eqn:Hc; simpl.
    + rewrite Hc, Hw. repeat split; trivial. now rewrite <- Hs.
    + rewrite Hc. auto.
Qed.

Lemma span_word_run (w rest : string) :
  all_word w = true ->
  match rest with String c _ => is_word c = false | EmptyString => True end ->
  span_word (w ++ rest) = (w, rest).
Proof.
  intros Hw Hrest. induction w as [|c w IH]; simpl in *.
  - destruct rest as [|c r]; trivial. simpl. now rewrite Hrest.
  - apply andb_true_iff in Hw. destruct Hw as [Hc Hw].
    rewrite Hc, (IH Hw). reflexivity.
Qed.

(** Greedy [\w*] before [$]: only the longest run can reach the end. *)
Lemma word_star_end (s : string) :
  word_star s k_end = k_end (snd (span_word s)).
Proof.
  induction s as [|c s IH]; simpl; [reflexivity|].
  destruct (is_word c) eqn:Hc; simpl; [|reflexivity].
  rewrite IH. unfold k_end.
  destruct (at_end (snd (span_word s))) eqn:Hend; [reflexivity|].
  destruct s as [|c' s']; [discriminate Hend | reflexivity].
Qed.

(** The last alternative, [\.\w{1,}$], by direct computation. *)
Lemma re_match_dot_word (s : string) :
  re_match (Seq (Lit ".") (Seq WordPlus Eos)) s Some = match_ext s.
Proof.
  unfold match_ext. destruct s as [|d s]; [reflexivity|].
  cbn [re_match].
  destruct (Ascii.eqb_spec d ".") as [->|Hne].
  - destruct s as [|c s]; [reflexivity|].
    destruct (is_word c) eqn:Hc; [|reflexivity].
    change (fun s' : string => if at_end s' then Some s' else None) with k_end.
    rewrite word_star_end. reflexivity.
  - destruct d as [[] [] [] [] [] [] [] []]; try reflexivity.
    now contradiction Hne.
Qed.

(** A literal alternative matches only its own text followed by the
    end. *)
Lemma re_match_lits (w s rest : string) :
  re_match (lits w Eos) s Some = Some rest ->
  s = w ++ rest /\ at_end rest = true.
Proof.
  revert s. induction w as [|c w IH]; intros s; cbn [lits re_match].
  - destruct (at_end s) eqn:Hend; [|discriminate].
    intros H. injection H as ->. auto.
  - destruct s as [|c' s]; [discriminate|].
    destruct (Ascii.eqb_spec c' c) as [->|Hne]; [|discriminate].
    intros H. destruct (IH s H) as [-> Hend]. auto.
Qed.

Lemma match_ext_intro (ext rest : string) :
  is_extension ext -> is_line_end rest ->
  match_ext ("." ++ ext ++ rest) = Some rest.
Proof.
  intros [Hne Hw] Hrest. destruct ext as [|c w]; [contradiction|].
  simpl in Hw. apply andb_true_iff in Hw. destruct Hw as [Hc Hw].
  cbn [append match_ext]. rewrite Hc.
  rewrite span_word_run; trivial.
  - cbn [snd]. apply at_end_cases in Hrest. now rewrite Hrest.
  - destruct Hrest as [->| ->]; [exact I | reflexivity].
Qed.

Lemma match_ext_elim (s rest : string) :
  match_ext s = Some rest ->
  exists ext, s = "." ++ ext ++ rest /\ is_extension ext /\ is_line_end rest.
Proof.
  rewrite <- re_match_dot_word. cbn [re_match].
  destruct s as [|d s]; [discriminate|].
  destruct (Ascii.eqb_spec d ".") as [->|Hne]; [|discriminate].
  destruct s as [|c s]; [discriminate|].
  destruct (is_word c) eqn:Hc; [|discriminate].
  change (fun s' : string => if at_end s' then Some s' else None) with k_end.
  rewrite word_star_end. unfold k_end.
  destruct (at_end (snd (span_word s))) eqn:Hend; [|discriminate].
  intros H. injection H as <-.
  destruct (span_word_spec s) as (Hs & Hw & _).
  exists (String c (fst (span_word s))). split; [|split].
  - cbn [append]. now rewrite <- Hs.
  - split; [discriminate|]. simpl. now rewrite Hc, Hw.
  - now apply at_end_cases.
Qed.

(** The whole pattern matches as its last alternative does: the four
    literal alternatives add nothing. *)
Lemma re_match_extension_pattern (s : string) :
  re_match extension_pattern s Some = match_ext s.
Proof.
  assert (Hlit : forall w : string,
             is_extension w ->
             forall rest, re_match (lits ("." ++ w) Eos) s Some = Some rest ->
                          match_ext s = Some rest).
  { intros w Hw rest Hm. apply re_match_lits in Hm. destruct Hm as [-> Hend].
    apply match_ext_intro; [exact Hw | now apply at_end_cases]. }
  unfold extension_pattern.
  remember (Seq (Lit ".") (Seq WordPlus Eos)) as last eqn:Hlast.
  cbn [re_match].
  destruct (re_match (lits ".fa" Eos) s Some) as [rest|] eqn:H1.
  { symmetry. apply (Hlit "fa"); [split; [discriminate | reflexivity] | exact H1]. }
  destruct (re_match (lits ".fas" Eos) s Some) as [rest|] eqn:H2.
  { symmetry. apply (Hlit "fas"); [split; [discriminate | reflexivity] | exact H2]. }
  destruct (re_match (lits ".fasta" Eos) s Some) as [rest|] eqn:H3.
  { symmetry. apply (Hlit "fasta"); [split; [discriminate | reflexivity] | exact H3]. }
  destruct (re_match (lits ".fna" Eos) s Some) as [rest|] eqn:H4.
  { symmetry. apply (Hlit "fna"); [split; [discriminate | reflexivity] | exact H4]. }
  subst last. apply re_match_dot_word.
Qed.

(** Neither word characters nor a final newline hold a dot. *)
Lemma no_dot_extension (ext rest : string) :
  all_word ext = true -> is_line_end rest -> no_dot (ext ++ rest) = true.
Proof.
  intros Hw Hrest. induction ext as [|c w IH]; simpl in *.
  - destruct Hrest as [->| ->]; reflexivity.
  - apply andb_true_iff in Hw. destruct Hw as [Hc Hw].
    rewrite (IH Hw), andb_true_r.
    destruct (Ascii.eqb_spec c ".") as [->|]; [discriminate Hc | reflexivity].
Qed.

Lemma no_dot_with_dot (u v : string) : no_dot (u ++ String "." v) = false.
Proof.
  induction u as [|c u IH]; cbn [append no_dot]; [reflexivity|].
  rewrite IH. apply andb_false_r.
Qed.

(** No match starts before the last dot. *)
Lemma match_ext_before_dot (c : ascii) (u v : string) :
  match_ext (String c (u ++ String "." v)) = None.
Proof.
  destruct (match_ext (String c (u ++ String "." v))) as [rest|] eqn:Hm; trivial.
  apply match_ext_elim in Hm. destruct Hm as (ext & Hs & [_ Hw] & Hrest).
  cbn [append] in Hs. injection Hs as _ Hs.
  pose proof (no_dot_with_dot u v) as Hdot. rewrite Hs in Hdot.
  rewrite (no_dot_extension ext rest Hw Hrest) in Hdot. discriminate.
Qed.

Lemma re_sub_loop_skip (r : regex) (x t : string) :
  re_sub_loop r (x ++ t) (String.length x) = re_sub_loop r t 0.
Proof. induction x as [|c x IH]; simpl; trivial. Qed.

Lemma re_sub_line_end (tail : string) :
  is_line_end tail -> re_sub_empty extension_pattern tail = tail.
Proof. intros [->| ->]; reflexivity. Qed.

Lemma re_sub_loop_ext (r1 r2 : regex) :
  (forall s, re_match r1 s Some = re_match r2 s Some) ->
  forall s n, re_sub_loop r1 s n = re_sub_loop r2 s n.
Proof.
  intros Heq s. induction s as [|c s IH]; intros n; simpl; trivial.
  destruct n as [|n]; [|apply IH].
  change (match re_match r1 (String c s) Some with
          | Some rest => re_sub_loop r1 s (String.length s - String.length rest)
          | None => String c (re_sub_loop r1 s 0)
          end
          = match re_match r2 (String c s) Some with
            | Some rest => re_sub_loop r2 s (String.length s - String.length rest)
            | None => String c (re_sub_loop r2 s 0)
            end).
  rewrite Heq. destruct (re_match r2 (String c s) Some); now rewrite IH.
Qed.

Lemma re_sub_cons (c : ascii) (s : string) :
  re_sub_empty extension_pattern (String c s)
  = match match_ext (String c s) with
    | Some rest =>
        re_sub_loop extension_pattern s (String.length s - String.length rest)
    | None => String c (re_sub_empty extension_pattern s)
    end.
Proof.
  unfold re_sub_empty. cbn [re_sub_loop].
  now rewrite re_match_extension_pattern.
Qed.

(** The extension is removed, and what [$] allowed after it is kept. *)
Lemma re_sub_strip (stem ext tail : string) :
  is_extension ext -> is_line_end tail ->
  re_sub_empty extension_pattern (stem ++ "." ++ ext ++ tail) = stem ++ tail.
Proof.
  intros Hext Htail. induction stem as [|c stem IH].
  - cbn [append]. rewrite re_sub_cons.
    change (String "." (ext ++ tail)) with ("." ++ ext ++ tail).
    rewrite (match_ext_intro ext tail Hext Htail).
    rewrite str_length_append.
    replace (String.length ext + String.length tail - String.length tail)%nat
      with (String.length ext) by lia.
    rewrite re_sub_loop_skip. now apply re_sub_line_end.
  - change (String c stem ++ "." ++ ext ++ tail)
      with (String c (stem ++ String "." (ext ++ tail))).
    rewrite re_sub_cons, match_ext_before_dot.
    change (stem ++ String "." (ext ++ tail)) with (stem ++ "." ++ ext ++ tail).
    now rewrite IH.
Qed.

(** Without an extension at its end the text is kept. *)
Lemma re_sub_keep (fn : string) :
  (forall stem ext tail,
      fn = stem ++ "." ++ ext ++ tail ->
      is_extension ext -> is_line_end tail -> False) ->
  re_sub_empty extension_pattern fn = fn.
Proof.
  induction fn as [|c fn IH]; intros Hnone; [reflexivity|].
  rewrite re_sub_cons.
  destruct (match_ext (String c fn)) as [rest|] eqn:Hm.
  - exfalso. apply match_ext_elim in Hm.
    destruct Hm as (ext & Hs & Hext & Hrest).
    apply (Hnone "" ext rest); assumption.
  - rewrite IH; trivial.
    intros stem ext tail Hfn Hext Htail.
    apply (Hnone (String c stem) ext tail); trivial.
    cbn [append]. now rewrite Hfn.
Qed.

End ExtensionPattern.

Section GenomeName.

Lemma all_word_no_slash (w : string) : all_word w = true -> rfind "/" w = None.
Proof.
  induction w as [|c w IH]; [reflexivity|].
  cbn [all_word]. intros Hw. apply andb_true_iff in Hw. destruct Hw as [Hc Hw].
  apply rfind_cons_none. split; [|now apply IH].
  destruct (Ascii.eqb_spec c "/") as [->|]; [discriminate Hc | reflexivity].
Qed.

Lemma line_end_no_slash (tail : string) : is_line_end tail -> rfind "/" tail = None.
Proof. intros [->| ->]; reflexivity. Qed.

Lemma no_dot_no_match (s : string) :
  no_dot s = true ->
  forall stem ext tail, s = stem ++ "." ++ ext ++ tail -> False.
Proof.
  intros Hs stem ext tail Heq. rewrite Heq in Hs.
  change (stem ++ "." ++ ext ++ tail) with (stem ++ String "." (ext ++ tail)) in Hs.
  rewrite no_dot_with_dot in Hs. discriminate.
Qed.

(** The two cases of the substitution on any text. *)
Lemma re_sub_cases (fn : string) :
  (exists stem ext tail,
      fn = stem ++ "." ++ ext ++ tail /\ is_extension ext /\ is_line_end tail
      /\ re_sub_empty extension_pattern fn = stem ++ tail)
  \/ ((forall stem ext tail,
          fn = stem ++ "." ++ ext ++ tail ->
          is_extension ext -> is_line_end tail -> False)
      /\ re_sub_empty extension_pattern fn = fn).
Proof.
  induction fn as [|c fn IH].
  - right. split; [|reflexivity].
    intros [|x stem] ext tail Heq; discriminate.
  - destruct (match_ext (String c fn)) as [rest|] eqn:Hm.
    + left. apply match_ext_elim in Hm.
      destruct Hm as (ext & Hs & Hext & Hrest).
      exists "", ext, rest. repeat split; try assumption; try apply Hext.
      rewrite Hs. apply (re_sub_strip "" ext rest Hext Hrest).
    + rewrite re_sub_cons, Hm.
      destruct IH as [(stem & ext & tail & Hfn & Hext & Htail & Hsub)
                     |[Hnone Hsub]].
      * left. exists (String c stem), ext, tail.
        repeat split; try assumption; try apply Hext.
        -- cbn [append]. now rewrite Hfn.
        -- cbn [append]. now rewrite Hsub.
      * right. split; [|now rewrite Hsub].
        intros [|x stem] ext tail Heq Hext Htail.
        -- cbn [append] in Heq.
           change (String "." (ext ++ tail)) with ("." ++ ext ++ tail) in Heq.
           rewrite Heq, (match_ext_intro ext tail Hext Htail) in Hm.
           discriminate.
        -- cbn [append] in Heq. injection Heq as _ Heq.
           apply (Hnone stem ext tail); assumption.
Qed.

End GenomeName.

(** X1.  A path that ends in a file name [stem.ext], where [ext] is made
    of one or more letters, digits and underscores and [stem] holds no
    slash, gives [stem], with or without a directory before the name; only
    this last extension is removed, whatever dots [stem] holds.  A newline
    that ends the path is kept after the stem. *)
Theorem genome_name_strips_last_extension :
  forall dir stem ext tail : string,
    rfind "/" stem = None -> is_extension ext -> is_line_end tail ->
    genome_name_from_fasta_path (dir ++ "/" ++ stem ++ "." ++ ext ++ tail)
    = stem ++ tail
    /\ genome_name_from_fasta_path (stem ++ "." ++ ext ++ tail) = stem ++ tail.
Proof.
  intros dir stem ext tail Hstem Hext Htail.
  assert (Hfn : rfind "/" (stem ++ "." ++ ext ++ tail) = None).
  { apply rfind_append_none. split; [exact Hstem|].
    change ("." ++ ext ++ tail) with (String "." (ext ++ tail)).
    apply rfind_cons_none. split; [reflexivity|].
    apply rfind_append_none. split.
    - apply all_word_no_slash, Hext.
    - now apply line_end_no_slash. }
  unfold genome_name_from_fasta_path. split.
  - change ("/" ++ stem ++ "." ++ ext ++ tail)
      with (String "/" (stem ++ "." ++ ext ++ tail)).
    rewrite (basename_after_slash dir _ Hfn). now apply re_sub_strip.
  - rewrite (basename_no_slash _ Hfn). now apply re_sub_strip.
Qed.

Lemma genome_name_strips_last_extension_witness :
  genome_name_from_fasta_path "/path/to/genome_1.fasta" = "genome_1"
  /\ genome_name_from_fasta_path "sample.tar.gz" = "sample.tar".
Proof.
  split.
  - apply (genome_name_strips_last_extension "/path/to" "genome_1" "fasta" "").
    + reflexivity.
    + split; [discriminate | reflexivity].
    + left. reflexivity.
  - apply (genome_name_strips_last_extension "" "sample.tar" "gz" "").
    + reflexivity.
    + split; [discriminate | reflexivity].
    + left. reflexivity.
Defined.

(** X2.  On every path the result is the base name, or the base name
    without one extension at its end: either the base name is
    [stem.ext] followed by nothing or by one newline, and the result is
    the stem and that newline, or the base name has no such form and is
    returned as it is. *)
Theorem genome_name_cases :
  forall p : string,
    let fn := basename p in
    (exists stem ext tail,
        fn = stem ++ "." ++ ext ++ tail /\ is_extension ext
        /\ is_line_end tail
        /\ genome_name_from_fasta_path p = stem ++ tail)
    \/ ((forall stem ext tail,
            fn = stem ++ "." ++ ext ++ tail ->
            is_extension ext -> is_line_end tail -> False)
        /\ genome_name_from_fasta_path p = fn).
Proof. intros p. apply re_sub_cases. Qed.

(** X3.  A base name without a dot is returned unchanged. *)
Theorem genome_name_without_dot :
  forall p : string,
    no_dot (basename p) = true ->
    genome_name_from_fasta_path p = basename p.
Proof.
  intros p Hdot. unfold genome_name_from_fasta_path.
  apply re_sub_keep. intros stem ext tail Heq _ _.
  exact (no_dot_no_match _ Hdot stem ext tail Heq).
Qed.

Lemma genome_name_without_dot_witness :
  genome_name_from_fasta_path "runs.2017/genome_1" = "genome_1".
Proof. apply (genome_name_without_dot "runs.2017/genome_1"). reflexivity. Defined.

(** X4.  The result holds no slash and is never longer than the path. *)
Theorem genome_name_no_slash :
  forall p : string,
    rfind "/" (genome_name_from_fasta_path p) = None
    /\ (String.length (genome_name_from_fasta_path p) <= String.length p)%nat.
Proof.
  intros p.
  destruct (basename_suffix p) as (dir & Hp & Hnone).
  assert (Hlen : (String.length (basename p) <= String.length p)%nat).
  { rewrite Hp at 2. rewrite str_length_append. lia. }
  unfold genome_name_from_fasta_path.
  destruct (re_sub_cases (basename p))
    as [(stem & ext & tail & Hfn & Hext & Htail & Hres)|[_ Hres]];
    rewrite Hres.
  - rewrite Hfn in Hnone, Hlen.
    apply rfind_append_none in Hnone. destruct Hnone as [Hstem _].
    split.
    + apply rfind_append_none. split; [exact Hstem|].
      now apply line_end_no_slash.
    + rewrite !str_length_append in *. simpl in Hlen. lia.
  - split; [exact Hnone | exact Hlen].
Qed.

(** X5.  The alternatives [\.fa$], [\.fas$], [\.fasta$] and [\.fna$] of
    the pattern change nothing: the substitution with [\.\w{1,}$] alone
    gives the same result on every path. *)
Theorem genome_name_last_alternative_suffices :
  forall p : string,
    genome_name_from_fasta_path p
    = re_sub_empty (Seq (Lit ".") (Seq WordPlus Eos)) (basename p).
Proof.
  intros p. unfold genome_name_from_fasta_path, re_sub_empty.
  apply re_sub_loop_ext. intros s.
  now rewrite re_match_extension_pattern, re_match_dot_word.
Qed.

(* ===================================================================== *)
(** * Properties of the scheme lookups *)
(* ===================================================================== *)

Section SchemeLookups.

Variable resource_filename : string -> string -> string.
Variable program_name : string.

Lemma dict_get_builtin (scheme : string) :
  match dict_get (SCHEME_FASTAS resource_filename program_name) scheme with
  | Some entry =>
      (scheme = "heidelberg" /\ version entry = "0.5.0"
       \/ scheme = "enteritidis" /\ version entry = "0.7.0")
      /\ file entry
         = resource_filename program_name ("data/" ++ scheme ++ "/tiles.fasta")
  | None => scheme <> "heidelberg" /\ scheme <> "enteritidis"
  end.
Proof.
  unfold SCHEME_FASTAS. cbn [dict_get].
  destruct (String.eqb_spec scheme "heidelberg") as [->|Hh].
  - split; [left; split; reflexivity | reflexivity].
  - destruct (String.eqb_spec scheme "enteritidis") as [->|He].
    + split; [right; split; reflexivity | reflexivity].
    + split; assumption.
Qed.

End SchemeLookups.

(** X6.  A scheme has a version only when it is one of the two built-in
    schemes, ["heidelberg"] with version 0.5.0 and ["enteritidis"] with
    version 0.7.0; for such a scheme [get_scheme_fasta] returns the packaged
    file [data/<scheme>/tiles.fasta] whatever the file system holds: a file
    with the name of a built-in scheme is never used, and no error is
    raised. *)
Theorem versioned_scheme_is_packaged :
  forall (resource_filename : string -> string -> string)
         (program_name : string) (scheme v : string),
    get_scheme_version resource_filename program_name scheme = Some v ->
    (scheme = "heidelberg" /\ v = "0.5.0"
     \/ scheme = "enteritidis" /\ v = "0.7.0")
    /\ forall path_exists path_isfile : string -> bool,
         get_scheme_fasta resource_filename program_name path_exists
                          path_isfile scheme
         = inr (resource_filename program_name
                  ("data/" ++ scheme ++ "/tiles.fasta")).
Proof.
  intros rf pn scheme v Hv.
  pose proof (dict_get_builtin rf pn scheme) as Hget.
  unfold get_scheme_version in Hv. unfold get_scheme_fasta.
  destruct (dict_get (SCHEME_FASTAS rf pn) scheme) as [entry|];
    [|discriminate].
  injection Hv as <-. destruct Hget as [Hver Hfile]. split.
  - exact Hver.
  - intros ex isf. now rewrite Hfile.
Qed.

Lemma versioned_scheme_is_packaged_witness :
  get_scheme_fasta (fun pkg f => pkg ++ "/" ++ f) "bio_hansel"
                   (fun _ => true) (fun _ => true) "enteritidis"
  = inr "bio_hansel/data/enteritidis/tiles.fasta".
Proof.
  apply (versioned_scheme_is_packaged (fun pkg f => pkg ++ "/" ++ f)
           "bio_hansel" "enteritidis" "0.7.0").
  reflexivity.
Defined.

(** X7.  For any other scheme [get_scheme_version] returns [None], and
    [get_scheme_fasta] returns the scheme itself when it is the path of an
    existing regular file and raises [FileNotFoundError] otherwise; the
    error carries the message template, not filled in, and the scheme. *)
Theorem user_scheme_resolves :
  forall (resource_filename : string -> string -> string)
         (program_name : string) (path_exists path_isfile : string -> bool)
         (scheme : string),
    scheme <> "heidelberg" -> scheme <> "enteritidis" ->
    get_scheme_version resource_filename program_name scheme = None
    /\ (path_exists scheme = true -> path_isfile scheme = true ->
        get_scheme_fasta resource_filename program_name path_exists
                         path_isfile scheme
        = inr scheme)
    /\ (path_exists scheme = false \/ path_isfile scheme = false ->
        get_scheme_fasta resource_filename program_name path_exists
                         path_isfile scheme
        = inl (FileNotFoundError not_found_template scheme)).
Proof.
  intros rf pn ex isf scheme Hh He.
  pose proof (dict_get_builtin rf pn scheme) as Hget.
  unfold get_scheme_version, get_scheme_fasta.
  destruct (dict_get (SCHEME_FASTAS rf pn) scheme) as [entry|].
  - exfalso. destruct Hget as [[[H _]|[H _]] _]; contradiction.
  - split; [reflexivity|]. split.
    + intros -> ->. reflexivity.
    + intros [->| ->]; [reflexivity|]. now rewrite andb_false_r.
Qed.

Lemma user_scheme_resolves_witness :
  get_scheme_version (fun pkg f => pkg ++ "/" ++ f) "bio_hansel"
                     "my/tiles.fasta"
  = None
  /\ get_scheme_fasta (fun pkg f => pkg ++ "/" ++ f) "bio_hansel"
                      (fun _ => true) (fun _ => true) "my/tiles.fasta"
     = inr "my/tiles.fasta"
  /\ get_scheme_fasta (fun pkg f => pkg ++ "/" ++ f) "bio_hansel"
                      (fun _ => true) (fun _ => false) "my/tiles.fasta"
     = inl (FileNotFoundError not_found_template "my/tiles.fasta").
Proof.
  split; [|split].
  - apply (user_scheme_resolves (fun pkg f => pkg ++ "/" ++ f) "bio_hansel"
             (fun _ => true) (fun _ => true) "my/tiles.fasta"); discriminate.
  - apply (user_scheme_resolves (fun pkg f => pkg ++ "/" ++ f) "bio_hansel"
             (fun _ => true) (fun _ => true) "my/tiles.fasta");
      try discriminate; reflexivity.
  - apply (user_scheme_resolves (fun pkg f => pkg ++ "/" ++ f) "bio_hansel"
             (fun _ => true) (fun _ => false) "my/tiles.fasta");
      try discriminate. right. reflexivity.
Defined.

(* ===================================================================== *)
(** * Further properties of the path comparison and of the ranking *)
(* ===================================================================== *)

Local Open Scope list_scope.

Section ComparePrefix.
Context {A : Type} `{PyLabel A}.

Lemma compare_subtypes_prefix_iff (a b : list A) :
  compare_subtypes a b = true <->
  (exists t, b = a ++ t) \/ (exists t, a = b ++ t).
Proof.
  revert b. induction a as [|x a IH]; intros [|y b]; simpl.
  - split; trivial. intros _. left. now exists [].
  - split; trivial. intros _. left. now exists (y :: b).
  - split; trivial. intros _. right. now exists (x :: a).
  - destruct (py_ne x y) eqn:Hxy.
    + split; [discriminate|].
      assert (Hne : x <> y)
        by (intros ->; now rewrite py_ne_refl in Hxy).
      intros [[t Ht]|[t Ht]]; injection Ht as Hx _; congruence.
    + apply py_ne_spec in Hxy. subst y. rewrite IH. split.
      * intros [[t ->]|[t ->]]; [left | right]; now exists t.
      * intros [[t Ht]|[t Ht]]; injection Ht as Ht; [left | right];
          now exists t.
Qed.

Lemma compare_subtypes_same_length (a b : list A) :
  List.length a = List.length b ->
  (compare_subtypes a b = true <-> a = b).
Proof.
  revert b. induction a as [|x a IH]; intros [|y b] Hlen; simpl in *;
    try discriminate.
  - tauto.
  - injection Hlen as Hlen. destruct (py_ne x y) eqn:Hxy.
    + split; [discriminate|]. intros Heq. injection Heq as -> _.
      now rewrite py_ne_refl in Hxy.
    + apply py_ne_spec in Hxy. subst y. rewrite (IH b Hlen). split.
      * now intros ->.
      * intros Heq. now injection Heq.
Qed.

Lemma compare_subtypes_trans (a b c : list A) :
  (Nat.min (List.length a) (List.length c) <= List.length b)%nat ->
  compare_subtypes a b = true -> compare_subtypes b c = true ->
  compare_subtypes a c = true.
Proof.
  revert b c. induction a as [|x a IH]; intros b c Hlen Hab Hbc; trivial.
  destruct c as [|z c]; trivial.
  destruct b as [|y b]; [simpl in Hlen; lia|].
  simpl in *.
  destruct (py_ne x y) eqn:Hxy; [discriminate|].
  destruct (py_ne y z) eqn:Hyz; [discriminate|].
  apply py_ne_spec in Hxy. apply py_ne_spec in Hyz. subst y z.
  rewrite py_ne_refl. apply (IH b c); trivial. lia.
Qed.

End ComparePrefix.

(** X8.  Two paths compare equal exactly when one of them is the other
    followed by further elements, that is when one is a prefix of the
    other. *)
Theorem compare_subtypes_is_prefix_test :
  forall (A : Type) (L : PyLabel A) (a b : list A),
    compare_subtypes a b = true <->
    (exists t, b = a ++ t) \/ (exists t, a = b ++ t).
Proof. intros A L a b. apply compare_subtypes_prefix_iff. Qed.

(** X9.  On paths of the same length the comparison is equality. *)
Theorem compare_subtypes_equal_lengths :
  forall (A : Type) (L : PyLabel A) (a b : list A),
    List.length a = List.length b ->
    (compare_subtypes a b = true <-> a = b).
Proof. intros A L a b. apply compare_subtypes_same_length. Qed.

Lemma compare_subtypes_equal_lengths_witness :
  compare_subtypes [2; 1; 3]%Z [2; 1; 3]%Z = true.
Proof.
  apply (compare_subtypes_equal_lengths Z PyLabel_int); reflexivity.
Defined.

(** X10.  The comparison is transitive through a middle path that is at
    least as long as the shorter of the two outer paths, and not through a
    shorter one: [[1,2]] and [[1,3]] both agree with [[1]] and disagree
    with each other. *)
Theorem compare_subtypes_transitive_through_long :
  (forall (A : Type) (L : PyLabel A) (a b c : list A),
      (Nat.min (List.length a) (List.length c) <= List.length b)%nat ->
      compare_subtypes a b = true -> compare_subtypes b c = true ->
      compare_subtypes a c = true)
  /\ (compare_subtypes [1; 2]%Z [1]%Z = true
      /\ compare_subtypes [1]%Z [1; 3]%Z = true
      /\ compare_subtypes [1; 2]%Z [1; 3]%Z = false).
Proof.
  split.
  - intros A L a b c. apply compare_subtypes_trans.
  - repeat split.
Qed.

Lemma compare_subtypes_transitive_through_long_witness :
  compare_subtypes [1; 2]%Z [1; 2; 3; 4]%Z = true.
Proof.
  destruct compare_subtypes_transitive_through_long as [Htrans _].
  apply (Htrans Z PyLabel_int [1; 2]%Z [1; 2; 3]%Z [1; 2; 3; 4]%Z).
  - simpl. lia.
  - reflexivity.
  - reflexivity.
Defined.

Section RankingMore.
Context {A : Type} `{PyLabel A}.

Lemma find_inconsistent_subtypes_NoDup (subtypes : list (list A)) :
  NoDup (find_inconsistent_subtypes subtypes).
Proof.
  rewrite find_inconsistent_subtypes_eq.
  destruct (Counter_spec (flatten_pairs (inconsistent_pairs subtypes)))
    as (Hnd & _).
  eapply Permutation_NoDup; [|exact Hnd].
  symmetry. apply Permutation_map, most_common_perm.
Qed.

Lemma find_inconsistent_subtypes_In_pairs (subtypes : list (list A))
    (s : string) :
  In s (find_inconsistent_subtypes subtypes) <->
  exists a b, In (a, b) (pairs_rec subtypes)
              /\ (s = join_subtype a \/ s = join_subtype b).
Proof.
  rewrite find_inconsistent_subtypes_eq, inconsistent_pairs_rec.
  destruct (Counter_spec (flatten_pairs (pairs_rec subtypes)))
    as (_ & _ & Hkeys & _).
  rewrite <- flatten_pairs_In, <- Hkeys. unfold keys. split; intros Hin.
  - eapply Permutation_in; [|exact Hin].
    apply Permutation_map, most_common_perm.
  - eapply Permutation_in; [|exact Hin].
    symmetry. apply Permutation_map, most_common_perm.
Qed.

(** A recorded pair is a pair of paths of the input that disagree, in
    either order. *)
Lemma pairs_rec_In_members (subtypes : list (list A)) (a b : list A) :
  (In (a, b) (pairs_rec subtypes) \/ In (b, a) (pairs_rec subtypes)) <->
  In a subtypes /\ In b subtypes /\ compare_subtypes a b = false.
Proof.
  rewrite !pairs_rec_In. unfold disagree_at. split.
  - intros [(i & j & _ & Hi & Hj & Hc)|(i & j & _ & Hi & Hj & Hc)].
    + repeat split; trivial; eapply nth_error_In; eauto.
    + rewrite compare_subtypes_sym in Hc.
      repeat split; trivial; eapply nth_error_In; eauto.
  - intros (Ha & Hb & Hc).
    apply In_nth_error in Ha. destruct Ha as (i & Hi).
    apply In_nth_error in Hb. destruct Hb as (j & Hj).
    destruct (Nat.lt_trichotomy i j) as [Hlt|[Heq|Hgt]].
    + left. now exists i, j.
    + exfalso. subst j. rewrite Hi in Hj. injection Hj as ->.
      rewrite compare_subtypes_refl in Hc. discriminate.
    + right. exists j, i. rewrite compare_subtypes_sym. auto.
Qed.

Lemma find_inconsistent_subtypes_In_members (subtypes : list (list A))
    (s : string) :
  In s (find_inconsistent_subtypes subtypes) <->
  exists a b, In a subtypes /\ In b subtypes
              /\ compare_subtypes a b = false /\ s = join_subtype a.
Proof.
  rewrite find_inconsistent_subtypes_In_pairs. split.
  - intros (a & b & Hab & [->| ->]).
    + exists a, b.
      destruct (proj1 (pairs_rec_In_members subtypes a b) (or_introl Hab))
        as (Ha & Hb & Hc). auto.
    + exists b, a.
      destruct (proj1 (pairs_rec_In_members subtypes b a) (or_intror Hab))
        as (Ha & Hb & Hc). auto.
  - intros (a & b & Ha & Hb & Hc & ->).
    destruct (proj2 (pairs_rec_In_members subtypes a b)) as [Hab|Hba]; auto.
    + exists a, b. auto.
    + exists b, a. auto.
Qed.

End RankingMore.

Section Stability.

Lemma keys_counter_incr (k : string) (c : counter) :
  keys (counter_incr k c)
  = if existsb (String.eqb k) (keys c) then keys c else keys c ++ [k].
Proof.
  induction c as [|[k0 n] c IH]; simpl; [reflexivity|].
  destruct (String.eqb k k0); simpl; [reflexivity|].
  rewrite IH. now destruct (existsb (String.eqb k) (keys c)).
Qed.

Lemma filter_twice {X : Type} (f g : X -> bool) (l : list X) :
  filter f (filter g l) = filter (fun x => (g x && f x)%bool) l.
Proof.
  induction l as [|x l IH]; simpl; [reflexivity|].
  destruct (g x); simpl; [|exact IH].
  destruct (f x); now rewrite IH.
Qed.

Lemma keys_fold_incr (l : list string) (c : counter) :
  keys (fold_left (fun c k => counter_incr k c) l c)
  = keys c
    ++ filter (fun y => negb (existsb (String.eqb y) (keys c))) (first_seen l).
Proof.
  revert c. induction l as [|x l IH]; intros c; simpl.
  - now rewrite app_nil_r.
  - rewrite IH, keys_counter_incr.
    destruct (existsb (String.eqb x) (keys c)) eqn:Hx; simpl.
    + f_equal. rewrite filter_twice.
      apply filter_ext. intros y.
      destruct (String.eqb_spec y x) as [->|Hne]; simpl.
      * now rewrite Hx.
      * reflexivity.
    + rewrite <- app_assoc. simpl. f_equal. f_equal.
      rewrite filter_twice. apply filter_ext. intros y.
      rewrite existsb_app. simpl. rewrite orb_false_r, negb_orb.
      apply andb_comm.
Qed.

Lemma keys_Counter (l : list string) : keys (Counter l) = first_seen l.
Proof.
  unfold Counter. rewrite keys_fold_incr. simpl.
  induction (first_seen l) as [|y ys IH]; simpl; [reflexivity|].
  now rewrite IH.
Qed.

Lemma filter_insert_desc (n : nat) (x : string * nat) (l : counter) :
  filter (fun y => Nat.eqb (snd y) n) (insert_desc x l)
  = filter (fun y => Nat.eqb (snd y) n) (x :: l).
Proof.
  induction l as [|y l IH]; [reflexivity|].
  cbn [insert_desc].
  destruct (Nat.ltb_spec (snd x) (snd y)) as [Hlt|Hge]; [|reflexivity].
  cbn [filter] in *. rewrite IH.
  destruct (Nat.eqb_spec (snd x) n) as [Hx|Hx];
    destruct (Nat.eqb_spec (snd y) n) as [Hy|Hy]; try reflexivity.
  lia.
Qed.

Lemma filter_most_common (n : nat) (c : counter) :
  filter (fun y => Nat.eqb (snd y) n) (most_common c)
  = filter (fun y => Nat.eqb (snd y) n) c.
Proof.
  induction c as [|x c IH]; [reflexivity|].
  cbn [most_common fold_right]. rewrite filter_insert_desc.
  cbn [filter]. fold (most_common c). now rewrite IH.
Qed.

Lemma filter_map_fst (P : string -> bool) (c : counter) :
  filter P (map fst c) = map fst (filter (fun y => P (fst y)) c).
Proof.
  induction c as [|y c IH]; simpl; [reflexivity|].
  destruct (P (fst y)); simpl; now rewrite IH.
Qed.

End Stability.

(** X11.  The result is empty exactly when every two paths of the input
    agree. *)
Theorem find_inconsistent_subtypes_empty_iff :
  forall (A : Type) (L : PyLabel A) (subtypes : list (list A)),
    find_inconsistent_subtypes subtypes = [] <->
    (forall a b, In a subtypes -> In b subtypes ->
                 compare_subtypes a b = true).
Proof.
  intros A L subtypes. split.
  - intros Hempty a b Ha Hb.
    destruct (compare_subtypes a b) eqn:Hc; trivial. exfalso.
    assert (Hin : In (join_subtype a) (find_inconsistent_subtypes subtypes)).
    { apply find_inconsistent_subtypes_In_members. now exists a, b. }
    rewrite Hempty in Hin. exact Hin.
  - intros Hall.
    destruct (find_inconsistent_subtypes subtypes) as [|s r] eqn:Hres; trivial.
    exfalso.
    assert (Hin : In s (find_inconsistent_subtypes subtypes))
      by (rewrite Hres; now left).
    apply find_inconsistent_subtypes_In_members in Hin.
    destruct Hin as (a & b & Ha & Hb & Hc & _).
    rewrite (Hall a b Ha Hb) in Hc. discriminate.
Qed.

(** X12.  A string is returned exactly when it is the flattened form of a
    path of the input that disagrees with some path of the input; the
    positions of the paths play no part. *)
Theorem find_inconsistent_subtypes_members :
  forall (A : Type) (L : PyLabel A) (subtypes : list (list A)) (s : string),
    In s (find_inconsistent_subtypes subtypes) <->
    exists a b, In a subtypes /\ In b subtypes
                /\ compare_subtypes a b = false /\ s = join_subtype a.
Proof. intros A L subtypes s. apply find_inconsistent_subtypes_In_members. Qed.

(** X13.  The result never holds more strings than the input holds
    paths. *)
Theorem find_inconsistent_subtypes_length :
  forall (A : Type) (L : PyLabel A) (subtypes : list (list A)),
    (List.length (find_inconsistent_subtypes subtypes)
     <= List.length subtypes)%nat.
Proof.
  intros A L subtypes.
  rewrite <- (length_map join_subtype subtypes).
  apply NoDup_incl_length.
  - apply find_inconsistent_subtypes_NoDup.
  - intros s Hs. apply find_inconsistent_subtypes_In_members in Hs.
    destruct Hs as (a & b & Ha & _ & _ & ->). now apply in_map.
Qed.

(** X14.  Reordering the input changes at most the order of the result:
    the results for two orders of the same paths are permutations of each
    other. *)
Theorem find_inconsistent_subtypes_reorder :
  forall (A : Type) (L : PyLabel A) (p q : list (list A)),
    Permutation p q ->
    Permutation (find_inconsistent_subtypes p) (find_inconsistent_subtypes q).
Proof.
  intros A L p q Hpq.
  apply NoDup_Permutation; try apply find_inconsistent_subtypes_NoDup.
  intros s. rewrite !find_inconsistent_subtypes_In_members.
  split; intros (a & b & Ha & Hb & Hc & Hs); exists a, b;
    repeat split; trivial.
  - now apply (Permutation_in _ Hpq).
  - now apply (Permutation_in _ Hpq).
  - now apply (Permutation_in _ (Permutation_sym Hpq)).
  - now apply (Permutation_in _ (Permutation_sym Hpq)).
Qed.

Lemma find_inconsistent_subtypes_reorder_witness :
  Permutation (find_inconsistent_subtypes [[1; 2]; [1; 3]; [2]]%Z)
              (find_inconsistent_subtypes [[2]; [1; 2]; [1; 3]]%Z).
Proof.
  apply (find_inconsistent_subtypes_reorder Z PyLabel_int).
  apply Permutation_sym.
  apply (Permutation_cons_append [[1; 2]; [1; 3]]%Z [2]%Z).
Defined.

(** X15.  Strings with the same count keep the order in which they first
    appear among the recorded pairs: for every count [n], the strings of
    the result with that count are the strings of that count in order of
    first appearance. *)
Theorem find_inconsistent_subtypes_ties_first_seen :
  forall (A : Type) (L : PyLabel A) (subtypes : list (list A)) (n : nat),
    let l := flatten_pairs (inconsistent_pairs subtypes) in
    let has_count := fun s => Nat.eqb (count_occ string_dec l s) n in
    filter has_count (find_inconsistent_subtypes subtypes)
    = filter has_count (first_seen l).
Proof.
  intros A L subtypes n l has_count.
  rewrite find_inconsistent_subtypes_eq. fold l.
  destruct (Counter_spec l) as (_ & _ & _ & Hcount).
  rewrite <- keys_Counter. unfold keys. rewrite !filter_map_fst. f_equal.
  assert (Hext : forall c' : counter,
             (forall y, In y c' -> In y (Counter l)) ->
             filter (fun y => has_count (fst y)) c'
             = filter (fun y => Nat.eqb (snd y) n) c').
  { intros c' Hsub. apply filter_ext_in. intros [k m] Hk.
    unfold has_count. cbn [fst snd].
    now rewrite <- (Hcount k m (Hsub _ Hk)). }
  rewrite (Hext (most_common (Counter l))), (Hext (Counter l)); trivial.
  - apply filter_most_common.
  - intros y Hy. eapply Permutation_in; [apply most_common_perm | exact Hy].
Qed.

(* ===================================================================== *)
(** * Further properties of the two checks *)
(* ===================================================================== *)

Local Open Scope string_scope.

Section Decimal.

Lemma uint_value_pos (d : Decimal.uint) (a : positive) :
  uint_value d (Zpos a) = Zpos (Pos.of_uint_acc d a).
Proof.
  revert a. induction d as [|d IH|d IH|d IH|d IH|d IH|d IH|d IH|d IH|d IH|d IH];
    intros a; cbn [uint_value Pos.of_uint_acc]; trivial;
    rewrite <- IH; f_equal; lia.
Qed.

Lemma uint_value_zero (d : Decimal.uint) :
  uint_value d 0 = Z.of_N (Pos.of_uint d).
Proof.
  induction d as [|d IH|d IH|d IH|d IH|d IH|d IH|d IH|d IH|d IH|d IH];
    cbn [uint_value Pos.of_uint]; trivial;
    try (change (10 * 0 + 0)%Z with 0%Z; exact IH);
    apply uint_value_pos.
Qed.

Lemma int_digits_uint (d : Decimal.uint) (acc : Z) :
  int_digits acc false (NilEmpty.string_of_uint d) = Some (uint_value d acc).
Proof.
  revert acc. induction d as [|d IH|d IH|d IH|d IH|d IH|d IH|d IH|d IH|d IH|d IH];
    intros acc; cbn [NilEmpty.string_of_uint uint_value]; trivial;
    cbn [int_digits];
    match goal with
    | |- context [digit_val ?c] =>
        let v := eval vm_compute in (digit_val c) in
        change (digit_val c) with v
    end;
    cbv iota beta; apply IH.
Qed.

Lemma int_unsigned_uint (d : Decimal.uint) :
  d <> Decimal.Nil ->
  int_unsigned (NilEmpty.string_of_uint d) = Some (Z.of_uint d).
Proof.
  intros Hd. unfold Z.of_uint.
  destruct d; try contradiction;
    cbn [NilEmpty.string_of_uint]; unfold int_unsigned;
    match goal with
    | |- context [digit_val ?c] =>
        let v := eval vm_compute in (digit_val c) in
        change (digit_val c) with v
    end;
    cbv iota beta; rewrite int_digits_uint;
    cbn [Pos.of_uint Z.of_N];
    first [now rewrite uint_value_zero | now rewrite uint_value_pos].
Qed.

(** The digits and the sign: no semicolon, no dot, no white space. *)
Lemma string_of_uint_lacks (c : ascii) (d : Decimal.uint) :
  digit_val c = None ->
  lacks c (NilEmpty.string_of_uint d) = true.
Proof.
  intros Hc.
  induction d as [|d IH|d IH|d IH|d IH|d IH|d IH|d IH|d IH|d IH|d IH];
    cbn [NilEmpty.string_of_uint lacks]; trivial; rewrite IH, andb_true_r;
    apply negb_true_iff; apply Ascii.eqb_neq; intros <-; discriminate.
Qed.

Lemma str_of_int_cases (z : Z) :
  (exists d, d <> Decimal.Nil
             /\ str_of_int z = NilEmpty.string_of_uint d
             /\ z = Z.of_uint d)
  \/ (exists d, d <> Decimal.Nil
                /\ str_of_int z = String "-" (NilEmpty.string_of_uint d)
                /\ z = (- Z.of_uint d)%Z).
Proof.
  pose proof (DecimalZ.of_to z) as Hz. unfold str_of_int.
  destruct z as [|p|p]; cbn [Z.to_int NilZero.string_of_int] in *.
  - left. exists (Decimal.D0 Decimal.Nil). repeat split. discriminate.
  - left. exists (Pos.to_uint p).
    pose proof (DecimalPos.Unsigned.to_uint_nonnil p) as Hnil.
    repeat split; trivial.
    + unfold NilZero.string_of_uint. now destruct (Pos.to_uint p).
    + now rewrite <- Hz.
  - right. exists (Pos.to_uint p).
    pose proof (DecimalPos.Unsigned.to_uint_nonnil p) as Hnil.
    repeat split; trivial.
    + unfold NilZero.string_of_uint. now destruct (Pos.to_uint p).
    + now rewrite <- Hz.
Qed.

Lemma int_of_str_digit_first (c : ascii) (s : string) (v : Z) :
  digit_val c = Some v ->
  int_of_str (String c s)
  = match int_unsigned (String c s) with
    | Some z => Return z
    | None => Raise ValueError
    end.
Proof.
  intros Hv.
  destruct c as [[] [] [] [] [] [] [] []]; try discriminate Hv; reflexivity.
Qed.

Lemma string_of_uint_head (d : Decimal.uint) :
  d <> Decimal.Nil ->
  exists c v s, NilEmpty.string_of_uint d = String c s /\ digit_val c = Some v.
Proof.
  intros Hd. destruct d; try contradiction;
    cbn [NilEmpty.string_of_uint]; do 3 eexists; split; reflexivity.
Qed.

Lemma int_of_str_str_of_int (z : Z) : int_of_str (str_of_int z) = Return z.
Proof.
  destruct (str_of_int_cases z) as [(d & Hd & Hs & Hz)|(d & Hd & Hs & Hz)];
    rewrite Hs, Hz.
  - destruct (string_of_uint_head d Hd) as (c & v & s & Hstr & Hv).
    pose proof (int_unsigned_uint d Hd) as Hu. rewrite Hstr in *.
    rewrite (int_of_str_digit_first c s v Hv), Hu. reflexivity.
  - unfold int_of_str. cbn [lstrip].
    change (is_space "-") with false. cbv iota.
    now rewrite (int_unsigned_uint d Hd).
Qed.

Lemma str_of_int_lacks (c : ascii) (z : Z) :
  digit_val c = None -> c <> "-"%char -> lacks c (str_of_int z) = true.
Proof.
  intros Hc Hminus.
  destruct (str_of_int_cases z) as [(d & _ & Hs & _)|(d & _ & Hs & _)];
    rewrite Hs.
  - now apply string_of_uint_lacks.
  - cbn [lacks]. rewrite string_of_uint_lacks by trivial.
    rewrite andb_true_r. apply negb_true_iff, Ascii.eqb_neq. congruence.
Qed.

Lemma str_of_int_nonempty (z : Z) : str_of_int z <> "".
Proof.
  destruct (str_of_int_cases z) as [(d & Hd & Hs & _)|(d & _ & Hs & _)];
    rewrite Hs; [|discriminate].
  destruct d; try contradiction; discriminate.
Qed.

End Decimal.

Section SplitJoin.

Lemma str_split_lacks (sep : ascii) (s : string) :
  lacks sep s = true -> str_split sep s = [s].
Proof.
  induction s as [|c s IH]; [reflexivity|].
  cbn [lacks str_split]. intros Hs. apply andb_true_iff in Hs.
  destruct Hs as [Hc Hs]. apply negb_true_iff in Hc.
  now rewrite Hc, (IH Hs).
Qed.

Lemma str_split_first_piece (sep : ascii) (first t : string) :
  lacks sep first = true ->
  str_split sep (first ++ String sep t) = first :: str_split sep t.
Proof.
  induction first as [|c first IH]; cbn [lacks append str_split].
  - intros _. now rewrite Ascii.eqb_refl.
  - intros Hs. apply andb_true_iff in Hs.
    destruct Hs as [Hc Hs]. apply negb_true_iff in Hc.
    now rewrite Hc, (IH Hs).
Qed.

(** Splitting a joined list at the separator gives the list back, when no
    piece holds the separator. *)
Lemma str_split_concat (sep : ascii) (w : string) (ws : list string) :
  Forall (fun x => lacks sep x = true) (w :: ws) ->
  str_split sep (String.concat (String sep "") (w :: ws)) = w :: ws.
Proof.
  revert w. induction ws as [|w' ws IH]; intros w Hall.
  - cbn [String.concat]. apply str_split_lacks. now inversion Hall.
  - inversion Hall as [|? ? Hw Hrest]; subst.
    change (String.concat (String sep "") (w :: w' :: ws))
      with (w ++ String sep (String.concat (String sep "") (w' :: ws))).
    rewrite (str_split_first_piece sep w _ Hw). f_equal. now apply IH.
Qed.

Lemma expected_tiles_first_piece (st : Subtype) (first t : string) :
  lacks ";" first = true ->
  expected_tiles (with_expected st (first ++ String ";" t))
  = int_of_str first
  /\ expected_tiles (with_expected st first) = int_of_str first.
Proof.
  intros Hfirst. unfold expected_tiles, with_expected.
  cbn [n_tiles_matching_all_expected].
  rewrite (str_split_first_piece ";" first t Hfirst).
  rewrite (str_split_lacks ";" first Hfirst). split; reflexivity.
Qed.

(** The checks read the expected text through [expected_tiles] only. *)
Lemma checks_same_expected (st st' : Subtype) :
  expected_tiles st = expected_tiles st' ->
  n_tiles_matching_all st = n_tiles_matching_all st' ->
  are_subtypes_consistent st = are_subtypes_consistent st' ->
  inconsistent_subtypes st = inconsistent_subtypes st' ->
  check_is_confident_subtype st = check_is_confident_subtype st'
  /\ check_min_tiles_reached st = check_min_tiles_reached st'.
Proof.
  intros He Hn Hc Hi.
  unfold check_is_confident_subtype, check_min_tiles_reached,
    flagged_inconsistent.
  now rewrite He, Hn, Hc, Hi.
Qed.

Lemma join_subtype_int_lacks_dot (a : list Z) :
  Forall (fun x => lacks "." x = true) (map str_of_int a).
Proof.
  apply Forall_forall. intros x Hx. apply in_map_iff in Hx.
  destruct Hx as (z & <- & _). apply str_of_int_lacks; [reflexivity | discriminate].
Qed.

Lemma str_of_int_inj (x y : Z) : str_of_int x = str_of_int y -> x = y.
Proof.
  intros Heq. pose proof (int_of_str_str_of_int x) as Hx.
  rewrite Heq, int_of_str_str_of_int in Hx. now injection Hx.
Qed.

Lemma map_str_of_int_inj (a b : list Z) :
  map str_of_int a = map str_of_int b -> a = b.
Proof.
  revert b. induction a as [|x a IH]; intros [|y b] Heq; try discriminate;
    trivial.
  injection Heq as Hx Hab. f_equal; [now apply str_of_int_inj | now apply IH].
Qed.

Lemma concat_nonempty (w : string) (ws : list string) :
  w <> "" -> String.concat "." (w :: ws) <> "".
Proof.
  intros Hw. destruct ws as [|w' ws]; cbn [String.concat]; trivial.
  destruct w; [contradiction | discriminate].
Qed.

(** Integer paths: the flattened form determines the path. *)
Lemma join_subtype_int_inj (a b : list Z) :
  join_subtype a = join_subtype b -> a = b.
Proof.
  unfold join_subtype. cbn [py_str PyLabel_int]. intros Heq.
  destruct a as [|x a], b as [|y b]; trivial.
  - exfalso. cbn [map] in Heq. symmetry in Heq. revert Heq.
    apply concat_nonempty, str_of_int_nonempty.
  - exfalso. cbn [map] in Heq. revert Heq.
    apply concat_nonempty, str_of_int_nonempty.
  - apply map_str_of_int_inj.
    pose proof (str_split_concat "." (str_of_int x) (map str_of_int a)
                  (join_subtype_int_lacks_dot (x :: a))) as Ha.
    pose proof (str_split_concat "." (str_of_int y) (map str_of_int b)
                  (join_subtype_int_lacks_dot (y :: b))) as Hb.
    cbn [map] in *. rewrite Heq in Ha. rewrite Ha in Hb. exact Hb.
Qed.

End SplitJoin.

(** X16.  [int(str(z))] is [z]: the expected count of a record whose text
    is [str(z)], alone or followed by a semicolon and any text, is [z]. *)
Theorem expected_tiles_reads_back :
  forall (st : Subtype) (z : Z) (t : string),
    int_of_str (str_of_int z) = Return z
    /\ expected_tiles (with_expected st (str_of_int z)) = Return z
    /\ expected_tiles (with_expected st (str_of_int z ++ String ";" t))
       = Return z.
Proof.
  intros st z t.
  assert (Hl : lacks ";" (str_of_int z) = true)
    by (apply str_of_int_lacks; [reflexivity | discriminate]).
  destruct (expected_tiles_first_piece st (str_of_int z) t Hl) as [H1 H2].
  rewrite H1, H2. repeat split; apply int_of_str_str_of_int.
Qed.

(** X17.  Only the text before the first semicolon of
    [n_tiles_matching_all_expected] counts: what follows the semicolon
    changes the result of neither check. *)
Theorem checks_read_first_count_only :
  forall (st : Subtype) (first t : string),
    lacks ";" first = true ->
    check_is_confident_subtype (with_expected st (first ++ String ";" t))
    = check_is_confident_subtype (with_expected st first)
    /\ check_min_tiles_reached (with_expected st (first ++ String ";" t))
       = check_min_tiles_reached (with_expected st first).
Proof.
  intros st first t Hfirst.
  destruct (expected_tiles_first_piece st first t Hfirst) as [H1 H2].
  apply checks_same_expected; trivial. now rewrite H1, H2.
Qed.

Lemma checks_read_first_count_only_witness :
  check_is_confident_subtype (with_expected st_100_100 "100;abc")
  = check_is_confident_subtype (with_expected st_100_100 "100")
  /\ check_min_tiles_reached (with_expected st_100_100 "100;abc")
     = check_min_tiles_reached (with_expected st_100_100 "100").
Proof.
  apply (checks_read_first_count_only st_100_100 "100" "abc"). reflexivity.
Defined.

(** X18.  Integer paths are told apart by their flattened forms, so for
    integer paths the result is never a single string: it is empty or
    holds at least two strings. *)
Theorem find_inconsistent_subtypes_int_not_single :
  forall subtypes : list (list Z),
    (forall a b : list Z, join_subtype a = join_subtype b -> a = b)
    /\ List.length (find_inconsistent_subtypes subtypes) <> 1%nat.
Proof.
  intros subtypes. split; [apply join_subtype_int_inj|].
  intros Hlen.
  destruct (find_inconsistent_subtypes subtypes) as [|s [|s' r]] eqn:Hres;
    try discriminate.
  assert (Hin : In s (find_inconsistent_subtypes subtypes))
    by (rewrite Hres; now left).
  apply find_inconsistent_subtypes_In_members in Hin.
  destruct Hin as (a & b & Ha & Hb & Hc & Hs).
  assert (Hin' : In (join_subtype b) (find_inconsistent_subtypes subtypes)).
  { apply find_inconsistent_subtypes_In_members. exists b, a.
    rewrite compare_subtypes_sym. auto. }
  rewrite Hres in Hin'. destruct Hin' as [Hsb|[]].
  assert (Hab : a = b) by (apply join_subtype_int_inj; congruence).
  subst b. rewrite compare_subtypes_refl in Hc. discriminate.
Qed.

Local Open Scope Z_scope.

Section ChecksMore.

Lemma int_compare_float_mono (n n' : Z) (f : float) :
  n <= n' ->
  (int_le_float n' f = true -> int_le_float n f = true)
  /\ (int_ge_float n f = true -> int_ge_float n' f = true).
Proof.
  intros Hn. unfold int_le_float, int_ge_float, int_compare_float.
  destruct f as [s|s| |s m e].
  - destruct (Z.compare_spec n 0), (Z.compare_spec n' 0);
      split; intros; try reflexivity; try discriminate; lia.
  - destruct s; split; intros; trivial.
  - split; intros; trivial.
  - destruct (Z.leb 0 e).
    + destruct (Z.compare_spec n (cond_Zopp s (Zpos m) * 2 ^ e)),
               (Z.compare_spec n' (cond_Zopp s (Zpos m) * 2 ^ e));
        split; intros; try reflexivity; try discriminate; lia.
    + assert (Hc : 0 <= 2 ^ (- e)) by (apply Z.pow_nonneg; lia).
      assert (Hm : n * 2 ^ (- e) <= n' * 2 ^ (- e))
        by (apply Z.mul_le_mono_nonneg_r; lia).
      destruct (Z.compare_spec (n * 2 ^ (- e)) (cond_Zopp s (Zpos m))),
               (Z.compare_spec (n' * 2 ^ (- e)) (cond_Zopp s (Zpos m)));
        split; intros; try reflexivity; try discriminate; lia.
Qed.

Lemma float_of_int_finite (z : Z) :
  Z.abs z < 2 ^ 1023 -> exists f, float_of_int z = Return f.
Proof.
  intros Hz. unfold float_of_int.
  assert (Hgen : forall (s : bool) (p : positive),
             Zpos p < 2 ^ 1023 ->
             exists m e, binary_round prec emax s p 0 = S754_finite s m e).
  { intros s p Hp.
    assert (Hd : 0 < Zpos (digits2_pos p) <= 1023).
    { split; [lia|]. apply (digits2_pos_range p 0 1023); [lia|].
      change (2 ^ 0) with 1. lia. }
    destruct (binary_round_scaled 53 s p 0)
      as (m & e & Heq & _); try lia.
    now exists m, e. }
  destruct z as [|p|p]; cbn [binary_normalize].
  - eexists. reflexivity.
  - destruct (Hgen false p) as (m & e & ->); [simpl in Hz; lia|].
    eexists. reflexivity.
  - destruct (Hgen true p) as (m & e & ->); [simpl in Hz; lia|].
    eexists. reflexivity.
Qed.

End ChecksMore.

(** X19.  With the other attributes fixed, more matching tiles never turn
    a reached minimum into a missed one, and fewer matching tiles never
    turn a confident subtype into an unconfident one; this holds for every
    expected count. *)
Theorem checks_monotone_in_matching_tiles :
  forall (st : Subtype) (n' : Z),
    n_tiles_matching_all st <= n' ->
    (check_min_tiles_reached st = Return true ->
     check_min_tiles_reached (with_n_tiles st n') = Return true)
    /\ (check_is_confident_subtype (with_n_tiles st n') = Return true ->
        check_is_confident_subtype st = Return true).
Proof.
  intros st n' Hn.
  unfold check_min_tiles_reached, check_is_confident_subtype.
  change (expected_tiles (with_n_tiles st n')) with (expected_tiles st).
  change (flagged_inconsistent (with_n_tiles st n'))
    with (flagged_inconsistent st).
  change (n_tiles_matching_all (with_n_tiles st n')) with n'.
  destruct (expected_tiles st) as [e|err]; cbn [bind];
    [|split; intros; discriminate].
  split.
  - destruct (int_mul_float e lit_0_05) as [p|err]; cbn [bind]; trivial.
    destruct (int_sub_float e p) as [bound|err]; cbn [bind]; trivial.
    destruct (int_compare_float_mono _ _ bound Hn) as [Hle _].
    destruct (int_le_float n' bound); [|reflexivity].
    now rewrite (Hle eq_refl).
  - destruct (flagged_inconsistent st); trivial.
    destruct (int_mul_float e lit_0_01) as [p|err]; cbn [bind]; trivial.
    destruct (float_add_int p e) as [bound|err]; cbn [bind]; trivial.
    destruct (int_compare_float_mono _ _ bound Hn) as [_ Hge].
    destruct (int_ge_float (n_tiles_matching_all st) bound); [|reflexivity].
    now rewrite (Hge eq_refl).
Qed.

Lemma checks_monotone_in_matching_tiles_witness :
  check_min_tiles_reached (with_n_tiles st_96_100 150) = Return true.
Proof.
  destruct (checks_monotone_in_matching_tiles st_96_100 150) as [Hmin _].
  - simpl. lia.
  - apply Hmin. reflexivity.
Defined.

(** X20.  For an expected count [e] with [|e| <= 139 * 10 ^ 12] and a
    subtype that is not flagged inconsistent, both checks succeed exactly
    when the number [n] of matching tiles lies strictly between 95% and
    101% of [e]: [19 * e < 20 * n] and [100 * n < 101 * e].  In
    particular a positive expected count that is matched exactly passes
    both. *)
Theorem checks_pass_window :
  forall (st : Subtype) (e : Z),
    expected_tiles st = Return e ->
    flagged_inconsistent st = false ->
    Z.abs e <= 139000000000000 ->
    let n := n_tiles_matching_all st in
    ((check_is_confident_subtype st = Return true
      /\ check_min_tiles_reached st = Return true)
     <-> (19 * e < 20 * n /\ 100 * n < 101 * e))
    /\ (0 < e -> n = e ->
        check_is_confident_subtype st = Return true
        /\ check_min_tiles_reached st = Return true).
Proof.
  intros st e Hexp Hflag Hbound n.
  rewrite (check_is_confident_unflagged st e Hexp Hflag Hbound).
  rewrite (check_min_tiles_bounded st e Hexp) by lia.
  fold n.
  destruct (Z.leb_spec (101 * e) (100 * n));
    destruct (Z.leb_spec (20 * n) (19 * e)); cbn [negb];
    (split; [split; [intros [H1 H2]; try discriminate; lia
                    | intros [H1 H2]; try lia; split; reflexivity]
            | intros He Hn; try lia; split; reflexivity]).
Qed.

Lemma checks_pass_window_witness :
  check_is_confident_subtype st_100_100 = Return true
  /\ check_min_tiles_reached st_100_100 = Return true.
Proof.
  destruct (checks_pass_window st_100_100 100 eq_refl eq_refl) as [_ Hexact].
  - simpl. lia.
  - apply Hexact; [lia | reflexivity].
Defined.

(** X21.  A record that expects no tiles, or a negative number of them, is
    never confident when the number of matching tiles is not negative; with
    an expected count of zero the minimum is reached exactly when at least
    one tile matches. *)
Theorem checks_without_expected_tiles :
  forall (st : Subtype) (e : Z),
    expected_tiles st = Return e ->
    - 139000000000000 <= e <= 0 ->
    0 <= n_tiles_matching_all st ->
    check_is_confident_subtype st = Return false
    /\ (e = 0 ->
        check_min_tiles_reached st
        = Return (0 <? n_tiles_matching_all st)).
Proof.
  intros st e Hexp He Hn. split.
  - destruct (flagged_inconsistent st) eqn:Hflag.
    + now apply (check_is_confident_flagged st e).
    + rewrite (check_is_confident_unflagged st e Hexp Hflag) by lia.
      destruct (Z.leb_spec (101 * e) (100 * n_tiles_matching_all st));
        [reflexivity | lia].
  - intros ->. rewrite (check_min_tiles_bounded st 0 Hexp) by (simpl; lia).
    f_equal.
    destruct (Z.leb_spec (20 * n_tiles_matching_all st) (19 * 0));
      destruct (Z.ltb_spec 0 (n_tiles_matching_all st)); cbn [negb];
      try reflexivity; lia.
Qed.

Lemma checks_without_expected_tiles_witness :
  check_is_confident_subtype (with_expected (with_n_tiles st_100_100 0) "0")
  = Return false
  /\ check_min_tiles_reached (with_expected (with_n_tiles st_100_100 0) "0")
     = Return false.
Proof.
  destruct (checks_without_expected_tiles
              (with_expected (with_n_tiles st_100_100 0) "0") 0 eq_refl)
    as [Hconf Hmin].
  - lia.
  - simpl. lia.
  - split; [exact Hconf | apply Hmin; reflexivity].
Defined.

(** X22.  For an expected count of magnitude below [2 ^ 1023] neither
    check raises: each returns a boolean. *)
Theorem checks_return_below_overflow :
  forall (st : Subtype) (e : Z),
    expected_tiles st = Return e ->
    Z.abs e < 2 ^ 1023 ->
    (exists b, check_is_confident_subtype st = Return b)
    /\ (exists b, check_min_tiles_reached st = Return b).
Proof.
  intros st e Hexp He.
  destruct (float_of_int_finite e He) as (f & Hf).
  unfold check_is_confident_subtype, check_min_tiles_reached.
  rewrite Hexp. cbn [bind].
  unfold int_mul_float, float_add_int, int_sub_float. rewrite Hf. cbn [bind].
  split.
  - destruct (flagged_inconsistent st); [now exists false|].
    destruct (int_ge_float _ _); eexists; reflexivity.
  - destruct (int_le_float _ _); eexists; reflexivity.
Qed.

Lemma checks_return_below_overflow_witness :
  (exists b, check_is_confident_subtype st_far_confident = Return b)
  /\ (exists b, check_min_tiles_reached st_far_confident = Return b).
Proof.
  apply (checks_return_below_overflow st_far_confident 139344047876601).
  - reflexivity.
  - apply Z.ltb_lt. reflexivity.
Defined.

Local Open Scope list_scope.

Section Frequencies.

Lemma join_eqb_int (a b : list Z) :
  String.eqb (join_subtype b) (join_subtype a)
  = if path_eq_dec b a then true else false.
Proof.
  destruct (path_eq_dec b a) as [->|Hne].
  - apply String.eqb_refl.
  - apply String.eqb_neq. intros Heq. apply Hne.
    now apply join_subtype_int_inj.
Qed.

(** The pairs of [x] with the later paths [rest]: [x] counts once for each
    path of [rest] it disagrees with, and each occurrence of [a] in [rest]
    counts once when [x] disagrees with [a]. *)
Lemma occurrences_row (a x : list Z) (rest : list (list Z)) :
  occurrences (join_subtype a)
    (flat_map (fun b => if compare_subtypes x b then [] else [(x, b)]) rest)
  = ((if path_eq_dec x a then conflicts a rest else 0)
     + (if compare_subtypes x a then 0 else count_occ path_eq_dec rest a))%nat.
Proof.
  unfold conflicts.
  induction rest as [|b rest IH].
  - cbn. destruct (path_eq_dec x a), (compare_subtypes x a); reflexivity.
  - cbn [flat_map]. rewrite occurrences_app, IH. clear IH.
    cbn [filter count_occ].
    assert (Hrow : occurrences (join_subtype a)
                     (if compare_subtypes x b then [] else [(x, b)])
                   = if compare_subtypes x b then 0%nat
                     else ((if path_eq_dec x a then 1 else 0)
                           + (if path_eq_dec b a then 1 else 0))%nat).
    { destruct (compare_subtypes x b); [reflexivity|].
      unfold occurrences. cbn [map list_sum fst snd].
      rewrite !join_eqb_int.
      destruct (path_eq_dec x a), (path_eq_dec b a); reflexivity. }
    rewrite Hrow. clear Hrow.
    destruct (path_eq_dec x a) as [->|Hxa];
      destruct (path_eq_dec b a) as [->|Hba].
    + rewrite ?compare_subtypes_refl. cbv iota. cbn [negb List.length]. lia.
    + rewrite ?compare_subtypes_refl. cbv iota.
      destruct (compare_subtypes a b); cbv iota; cbn [negb List.length]; lia.
    + cbv iota. destruct (compare_subtypes x a); cbv iota; lia.
    + cbv iota. destruct (compare_subtypes x b), (compare_subtypes x a);
        cbv iota; lia.
Qed.

Lemma occurrences_pairs_rec (a : list Z) (subtypes : list (list Z)) :
  occurrences (join_subtype a) (pairs_rec subtypes)
  = (count_occ path_eq_dec subtypes a * conflicts a subtypes)%nat.
Proof.
  induction subtypes as [|x rest IH]; [reflexivity|].
  cbn [pairs_rec]. rewrite occurrences_app, occurrences_row, IH.
  unfold conflicts. cbn [count_occ filter].
  destruct (path_eq_dec x a) as [->|Hxa].
  - rewrite compare_subtypes_refl. cbn [negb]. lia.
  - rewrite (compare_subtypes_sym a x).
    destruct (compare_subtypes x a); cbn [negb List.length]; lia.
Qed.

End Frequencies.

(** X23.  For integer paths, the count that ranks the flattened form of a
    path [a] is the number of times [a] occurs in the input multiplied by
    the number of paths of the input that disagree with [a]. *)
Theorem ranking_count_int :
  forall (subtypes : list (list Z)) (a : list Z),
    count_occ string_dec (flatten_pairs (inconsistent_pairs subtypes))
              (join_subtype a)
    = (count_occ path_eq_dec subtypes a
       * conflicts a subtypes)%nat.
Proof.
  intros subtypes a.
  rewrite flatten_pairs_count, inconsistent_pairs_rec.
  apply occurrences_pairs_rec.
Qed.
